(** * Pathfinder: seeded world generation and A* search

    A shallow embedding of the TypeScript sources
    [seededRandom.ts], [grid.ts] (world/viewport version), [cell.ts],
    [player.ts], [pathfinder.ts], [worldGenerator.ts] and the movement
    queue, navigation and random mode of [app.ts], followed by the
    properties proved about them.

    Conventions of the embedding.
    - A JavaScript [number] that the program keeps integral (coordinates,
      sizes, indices, costs) is a [Z]; a [number] that is fractional or is
      produced by floating-point arithmetic is a binary64 [float], with the
      conversions ([Math.floor], [Math.ceil], [ToUint32]) written out.
    - An object that is mutated in place is passed and returned explicitly.
    - A loop that the source bounds only by its data ([while], recursion)
      takes a [fuel]; running out of it is the outcome [Diverge]. *)

From Stdlib Require Import ZArith List Lia Bool Ascii String Floats.
From stdpp Require Import base option list gmap.

Set Warnings "-inexact-float,-register-all,-clear-no-such-hyp".
Local Open Scope Z_scope.

(* ================================================================== *)
(** * Part I: the embedding                                           *)
(* ================================================================== *)

(** ** JavaScript numbers *)

Module Js.

(** An integer as a binary64 value (exact below 2^53). *)
Definition ofZ (z : Z) : float :=
  if z <? 0 then PrimFloat.opp (PrimFloat.of_uint63 (Uint63.of_Z (- z)))
  else PrimFloat.of_uint63 (Uint63.of_Z z).

(** [Math.floor] of a finite value, as an integer.  Zeros give 0; the
    non-finite values (on which [Math.floor] is not an integer) are
    mapped to 0 and never arise in the code below. *)
Definition floor (x : float) : Z :=
  match Prim2SF x with
  | S754_finite s m e =>
      let n := if s then Z.neg m else Z.pos m in
      if 0 <=? e then n * 2 ^ e else n / 2 ^ (- e)
  | _ => 0
  end.

(** [Math.ceil]. *)
Definition ceil (x : float) : Z :=
  match Prim2SF x with
  | S754_finite s m e =>
      let n := if s then Z.neg m else Z.pos m in
      if 0 <=? e then n * 2 ^ e else - ((- n) / 2 ^ (- e))
  | _ => 0
  end.

(** [Math.floor] and [Math.ceil] as the numbers they return.  A value
    with a non-negative exponent is an integer already; otherwise its
    magnitude is below 2^53 and the rounded integer is a binary64 value.
    Zeros, NaN and the infinities are returned as they are, and
    [Math.ceil] of a value between -1 and 0 is the negative zero. *)
Definition mathFloor (x : float) : float :=
  match Prim2SF x with
  | S754_finite s m e =>
      if 0 <=? e then x
      else ofZ ((if s then Z.neg m else Z.pos m) / 2 ^ (- e))
  | _ => x
  end.

Definition mathCeil (x : float) : float :=
  match Prim2SF x with
  | S754_finite s m e =>
      if 0 <=? e then x
      else
        let n := - ((- (if s then Z.neg m else Z.pos m)) / 2 ^ (- e)) in
        if (n =? 0) && s then PrimFloat.neg_zero else ofZ n
  | _ => x
  end.

(** Rounding toward zero, the first step of [ToInt32]/[ToUint32]. *)
Definition trunc (x : float) : Z :=
  match Prim2SF x with
  | S754_finite s m e =>
      let a := if 0 <=? e then Z.pos m * 2 ^ e else Z.pos m / 2 ^ (- e) in
      if s then - a else a
  | _ => 0
  end.

Definition two32 : Z := 4294967296.

(** [ToUint32]: the operand of [>>>], and the bit pattern that [^], [|]
    and [Math.imul] work on (NaN and the infinities give 0). *)
Definition toUint32 (x : float) : Z := trunc x mod two32.

(** [ToInt32] of an integer. *)
Definition toInt32 (z : Z) : Z := (z + 2147483648) mod two32 - 2147483648.

(** [Math.imul] on 32-bit patterns. *)
Definition imul (a b : Z) : Z := (a * b) mod two32.

(** [a >>> k] on a 32-bit pattern. *)
Definition ushr (a k : Z) : Z := Z.shiftr a k.

End Js.

(** ** Outcomes of a call *)

(** A call returns normally, throws (a [TypeError] on an [undefined]
    receiver), or is still running when the fuel is spent. *)
Inductive Completion (A : Type) : Type :=
| Normal (a : A)
| Throw
| Diverge.
Arguments Normal {A} a.
Arguments Throw {A}.
Arguments Diverge {A}.

#[global] Instance Completion_bind : MBind Completion :=
  fun A B k c =>
    match c with
    | Normal a => k a
    | Throw => Throw
    | Diverge => Diverge
    end.

(** [for (let i = lo; i < hi; i++) body]. *)
Definition forRange {S : Type} (lo hi : Z) (body : Z -> S -> S) (s : S) : S :=
  foldl (fun s i => body i s) s (seqZ lo (hi - lo)).

(** The same loop when the body may throw or diverge. *)
Definition forRangeC {S : Type} (lo hi : Z) (body : Z -> S -> Completion S)
    (s : S) : Completion S :=
  foldl (fun c i => c ≫= body i) (Normal s) (seqZ lo (hi - lo)).

(** ** types.ts *)

Definition Position : Type := Z * Z.
Definition px (p : Position) : Z := fst p.
Definition py (p : Position) : Z := snd p.

Inductive CellType : Type :=
| Empty | Wall | Player | Path | PlayerTrail | Visited | Target | QueuedTarget.

#[global] Instance CellType_eq_dec : EqDecision CellType.
Proof. solve_decision. Defined.

(** ** seededRandom.ts *)

Module SeededRandom.

Record t : Type := mk { seed : float; currentSeed : float }.

Inductive Seed : Type :=
| SeedNumber (n : float)
| SeedString (s : string).

(** [hashString]: [hash = ((hash << 5) - hash) + char; hash = hash & hash]
    over the code units of the string, then [Math.abs(hash || 1)]. *)
Fixpoint hashLoop (str : string) (hash : Z) : Z :=
  match str with
  | EmptyString => hash
  | String c rest =>
      let char := Z.of_nat (nat_of_ascii c) in
      hashLoop rest (Js.toInt32 (Js.toInt32 (hash * 32) - hash + char))
  end.

Definition hashString (str : string) : float :=
  let hash := hashLoop str 0 in
  Js.ofZ (Z.abs (if hash =? 0 then 1 else hash)).

(** [new SeededRandom(seed?)].  [mathRandom] is the value that the
    ambient [Math.random()] yields; it is used only without a seed. *)
Definition new (mathRandom : float) (s : option Seed) : t :=
  let n := match s with
           | None => Js.ofZ (Js.floor (mathRandom * 1000000000)%float)
           | Some (SeedString str) => hashString str
           | Some (SeedNumber n) => n
           end in
  {| seed := n; currentSeed := n |}.

Definition getSeed (r : t) : float := seed r.

Definition setSeed (s : Seed) (r : t) : t :=
  let n := match s with
           | SeedString str => hashString str
           | SeedNumber n => n
           end in
  {| seed := n; currentSeed := n |}.

Definition reset (r : t) : t := {| seed := seed r; currentSeed := seed r |}.

(** The 32-bit mixing of Mulberry32 on the pattern [u = ToUint32(t)].
    [t = Math.imul(t ^ t >>> 15, t | 1);
     t ^= t + Math.imul(t ^ t >>> 7, t | 61);
     (t ^ t >>> 14) >>> 0] *)
Definition mix (u : Z) : Z :=
  let t1 := Js.imul (Z.lxor u (Js.ushr u 15)) (Z.lor u 1) in
  let m := Js.imul (Z.lxor t1 (Js.ushr t1 7)) (Z.lor t1 61) in
  let t2 := Z.lxor t1 ((t1 + m) mod Js.two32) in
  Z.lxor t2 (Js.ushr t2 14).

(** [random()]: [let t = this.currentSeed += 0x6D2B79F5; ...;
    return ((t ^ t >>> 14) >>> 0) / 4294967296]. *)
Definition random (r : t) : float * t :=
  let t0 := (currentSeed r + 1831565813)%float in
  let k := mix (Js.toUint32 t0) in
  ((Js.ofZ k / 4294967296)%float, {| seed := seed r; currentSeed := t0 |}).

(** [randomInt(min, max)], every operation in binary64 as in the source:
    [min = Math.ceil(min); max = Math.floor(max);
     return Math.floor(this.random() * (max - min + 1)) + min]. *)
Definition randomInt (min max : float) (r : t) : float * t :=
  let min := Js.mathCeil min in
  let max := Js.mathFloor max in
  let '(x, r') := random r in
  ((Js.mathFloor (x * (max - min + 1)) + min)%float, r').

(** [randomBoolean(probability = 0.5)]. *)
Definition randomBoolean (probability : float) (r : t) : bool * t :=
  let '(x, r') := random r in
  (PrimFloat.ltb x probability, r').

(** [n] successive calls of [random()], oldest first. *)
Fixpoint randoms (n : nat) (r : t) : list float * t :=
  match n with
  | O => ([], r)
  | S n' =>
      let '(x, r1) := random r in
      let '(xs, r2) := randoms n' r1 in
      (x :: xs, r2)
  end.

(** [shuffle]: a copy of the array, then
    [for (i = result.length - 1; i > 0; i--)] swapping [result[i]] with
    [result[j]], [j = Math.floor(this.random() * (i + 1))]. *)
Fixpoint shuffleFrom {A : Type} (i : nat) (result : list A) (r : t)
    : list A * t :=
  match i with
  | O => (result, r)
  | S i' =>
      let '(x, r) := random r in
      let j := Z.to_nat (Js.floor (x * Js.ofZ (Z.of_nat i + 1))%float) in
      let result :=
        match result !! i, result !! j with
        | Some a, Some b => <[i := b]> (<[j := a]> result)
        | _, _ => result (* not reached: both indices are in range *)
        end in
      shuffleFrom i' result r
  end.

Definition shuffle {A : Type} (array : list A) (r : t) : list A * t :=
  shuffleFrom (length array - 1) array r.

(** A call of a public method that changes the generator (the drawing
    methods, [reset()] and [setSeed(seed)]), and the generator after
    it. *)
Inductive Call : Type :=
| CallRandom
| CallRandomInt (min max : float)
| CallRandomBoolean (probability : float)
| CallShuffle (len : nat)
| CallReset
| CallSetSeed (s : Seed).

Definition perform (c : Call) (r : t) : t :=
  match c with
  | CallRandom => snd (random r)
  | CallRandomInt min max => snd (randomInt min max r)
  | CallRandomBoolean p => snd (randomBoolean p r)
  | CallShuffle len => snd (shuffle (replicate len tt) r)
  | CallReset => reset r
  | CallSetSeed s => setSeed s r
  end.

(** The seed of the last seeding in a history of calls on a generator
    constructed with [s]: the argument of the last [setSeed], or [s]
    itself when there is none ([None] is a construction without a
    seed). *)
Definition lastSeeding (s : option Seed) (calls : list Call) : option Seed :=
  foldl (fun s c => match c with
                    | CallSetSeed s' => Some s'
                    | _ => s
                    end) s calls.

(** The errors a call of the generator can end in.  No method of the
    class has a [throw] statement or an assertion, so every call
    completes normally; [callRandomInt] is [randomInt] with its
    completion made explicit. *)
Inductive Error : Type := InvalidRange.

Inductive Result (A : Type) : Type :=
| Returned (a : A)
| Failed (e : Error).
Arguments Returned {A} a.
Arguments Failed {A} e.

Definition callRandomInt (min max : float) (r : t) : Result (float * t) :=
  Returned (randomInt min max r).

End SeededRandom.

(** ** cell.ts and grid.ts *)

(** Two-dimensional arrays indexed [a[y][x]], as [cells] and the
    generator's [visited] are. *)
Definition get2 {A : Type} (a : list (list A)) (p : Position) : option A :=
  a !! Z.to_nat (py p) ≫= fun row => row !! Z.to_nat (px p).

Definition set2 {A : Type} (a : list (list A)) (p : Position) (v : A)
    : list (list A) :=
  alter (fun row => <[Z.to_nat (px p) := v]> row) (Z.to_nat (py p)) a.

Module Cell.

(** [isWalkable()]: [this.currentType !== CellType.Wall]. *)
Definition isWalkable (t : CellType) : bool :=
  if decide (t = Wall) then false else true.

End Cell.

Module Grid.

(** The world of [grid.ts]: its dimensions and [cells[y][x]].  A [Cell]
    object is identified with its position (its [position] field is
    read-only and is its index in [cells]); what is stored is its
    [currentType].  The DOM element and the viewport play no part in
    what follows. *)
Record t : Type := mk {
  worldWidth : Z;
  worldHeight : Z;
  cells : list (list CellType)
}.

(** [initializeWorld]: every cell is created [Empty]. *)
Definition initializeWorld (w h : Z) : t :=
  {| worldWidth := w; worldHeight := h;
     cells := replicate (Z.to_nat h) (replicate (Z.to_nat w) Empty) |}.

Definition isWithinWorldBounds (g : t) (p : Position) : bool :=
  (0 <=? px p) && (px p <? worldWidth g) &&
  (0 <=? py p) && (py p <? worldHeight g).

(** [getCell]: the cell's type, or [None] for [null]. *)
Definition getCell (g : t) (p : Position) : option CellType :=
  if isWithinWorldBounds g p then get2 (cells g) p else None.

(** [cell.setType(ty)] on the cell that [getCell(p)] returned. *)
Definition setType (g : t) (p : Position) (ty : CellType) : t :=
  {| worldWidth := worldWidth g; worldHeight := worldHeight g;
     cells := set2 (cells g) p ty |}.

(** [cell.reset()]. *)
Definition resetCell (g : t) (p : Position) : t := setType g p Empty.

Definition directions : list Position := [(0, -1); (1, 0); (0, 1); (-1, 0)].

(** [getNeighbors]: the walkable cells among up, right, down, left. *)
Definition getNeighbors (g : t) (p : Position) : list Position :=
  foldl (fun neighbors dir =>
           let newPos := (px p + px dir, py p + py dir) in
           match getCell g newPos with
           | Some ty => if Cell.isWalkable ty then neighbors ++ [newPos]
                        else neighbors
           | None => neighbors
           end) [] directions.

(** [reset]: [this.cells[y][x].reset()] for every cell. *)
Definition reset (g : t) : t :=
  forRange 0 (worldHeight g) (fun y =>
    forRange 0 (worldWidth g) (fun x g => resetCell g (x, y))) g.

(** [resetPath]. *)
Definition resetPath (g : t) : t :=
  forRange 0 (worldHeight g) (fun y =>
    forRange 0 (worldWidth g) (fun x g =>
      match get2 (cells g) (x, y) with
      | Some ty =>
          if decide (ty = Path \/ ty = Visited \/ ty = Target)
          then resetCell g (x, y) else g
      | None => g
      end)) g.

End Grid.

(** ** pathfinder.ts *)

Module PathFinder.

(** A [CellNode].  The node a [parent] field refers to has left the open
    list when the reference is made, and only nodes of the open list are
    updated in place, so a parent never changes after it is referred
    to: the reference is modelled by the node itself. *)
Inductive CellNode : Type :=
  mkNode {
    position : Position;
    f : Z;
    g : Z;
    h : Z;
    parent : option CellNode
  }.

(** [heuristic]: the Manhattan distance. *)
Definition heuristic (a b : Position) : Z :=
  Z.abs (px a - px b) + Z.abs (py a - py b).

(** [reconstructPath]: [path.unshift(current.position)] along the
    parent links. *)
Fixpoint unshiftParents (current : CellNode) (path : list Position)
    : list Position :=
  match current with
  | mkNode pos _ _ _ par =>
      match par with
      | None => pos :: path
      | Some n => unshiftParents n (pos :: path)
      end
  end.

Definition reconstructPath (endNode : CellNode) : list Position :=
  unshiftParents endNode [].

(** The index of the node with the lowest [f], the first one among
    equals:
    [for (i = 0; i < openList.length; i++)
       if (openList[i].f < openList[currentIndex].f) currentIndex = i]. *)
Fixpoint lowestFrom (l : list CellNode) (i currentIndex : nat) (currentF : Z)
    : nat :=
  match l with
  | [] => currentIndex
  | n :: l' =>
      if f n <? currentF then lowestFrom l' (S i) i (f n)
      else lowestFrom l' (S i) currentIndex currentF
  end.

Definition lowestIndex (openList : list CellNode) : nat :=
  match openList with
  | [] => O
  | n :: _ => lowestFrom openList 0 0 (f n)
  end.

(** [openList.find(node => node.position is neighborPos)]: the first
    such node, with its index in the list. *)
Fixpoint find (openList : list CellNode) (pos : Position)
    : option (nat * CellNode) :=
  match openList with
  | [] => None
  | n :: l' =>
      if decide (position n = pos) then Some (O, n)
      else prod_map S id <$> find l' pos
  end.

(** The closed list is a [Map] from the key ["x,y"] to [true], used
    only through [set] and [has]: the set of the positions whose key it
    holds (the key determines the position). *)
Definition ClosedList : Type := gset Position.

(** One neighbour of the node being expanded. *)
Definition relax (end_ : Position) (closedList : ClosedList)
    (currentNode : CellNode) (openList : list CellNode)
    (neighborPos : Position) : list CellNode :=
  if decide (neighborPos ∈ closedList) then openList
  else
    let gScore := g currentNode + 1 in
    let hScore := heuristic neighborPos end_ in
    let fScore := gScore + hScore in
    match find openList neighborPos with
    | Some (i, openNode) =>
        if g openNode <=? gScore then openList
        else <[i := {| position := position openNode; f := fScore;
                       g := gScore; h := h openNode;
                       parent := Some currentNode |}]> openList
    | None =>
        openList ++ [{| position := neighborPos; f := fScore; g := gScore;
                        h := hScore; parent := Some currentNode |}]
    end.

(** The visualisation step: the node taken from the open list is
    tagged [Visited] unless it is the start, the end, a [Player] or a
    [Target] cell. *)
Definition markVisited (grid : Grid.t) (start end_ pos : Position) : Grid.t :=
  if decide (pos = start) then grid
  else if decide (pos = end_) then grid
  else match Grid.getCell grid pos with
       | Some ty =>
           if decide (ty = Player) then grid
           else if decide (ty = Target) then grid
           else Grid.setType grid pos Visited
       | None => grid
       end.

(** What a search ends in: a path, [null], or no answer within the
    fuel. *)
Inductive Answer : Type :=
| Found (path : list Position)
| Null
| Running.

(** The [while (openList.length > 0)] loop; [fuel] bounds its
    iterations.  The pauses ([await] of a timer) do not change the
    state and are left out. *)
Fixpoint search (fuel : nat) (start end_ : Position) (grid : Grid.t)
    (openList : list CellNode) (closedList : ClosedList)
    : Grid.t * Answer :=
  match openList with
  | [] => (grid, Null)
  | _ =>
      match fuel with
      | O => (grid, Running)
      | S fuel' =>
          let currentIndex := lowestIndex openList in
          match openList !! currentIndex with
          | None => (grid, Null) (* not reached: the index is in range *)
          | Some currentNode =>
              if decide (position currentNode = end_)
              then (grid, Found (reconstructPath currentNode))
              else
                let openList1 := delete currentIndex openList in
                let closedList1 := {[position currentNode]} ∪ closedList in
                let grid1 := markVisited grid start end_ (position currentNode) in
                let neighbors := Grid.getNeighbors grid1 (position currentNode) in
                let openList2 :=
                  foldl (relax end_ closedList1 currentNode) openList1 neighbors in
                search fuel' start end_ grid1 openList2 closedList1
          end
      end
  end.

Definition aStar (fuel : nat) (grid : Grid.t) (start end_ : Position)
    : Grid.t * Answer :=
  let startNode := {| position := start; f := 0; g := 0;
                      h := heuristic start end_; parent := None |} in
  search fuel start end_ grid [startNode] ∅.

Definition findPath := aStar.

(** Iterations that always suffice: one for the start and one for every
    cell of the world. *)
Definition enoughFuel (grid : Grid.t) : nat :=
  S (S (Z.to_nat (Grid.worldWidth grid) * Z.to_nat (Grid.worldHeight grid))).

End PathFinder.

(** ** worldGenerator.ts *)

(** [a[i]] followed by a property access: a [TypeError] when the index
    is outside the array. *)
Definition index {A : Type} (a : list A) (i : Z) : Completion A :=
  if 0 <=? i then
    match a !! Z.to_nat i with
    | Some v => Normal v
    | None => Throw
    end
  else Throw.

Module WorldGenerator.

Record t : Type := mk {
  grid : Grid.t;
  rng : SeededRandom.t;
  currentSeed : SeededRandom.Seed
}.

Definition withGrid (g : Grid.t) (w : t) : t :=
  {| grid := g; rng := rng w; currentSeed := currentSeed w |}.

(** [this.rng.random()], [this.rng.randomInt(..)] and
    [this.rng.randomBoolean(..)].  The generator calls [randomInt] on
    integers only (0, a dimension or a length minus one, 5 and 15): they
    are passed as their binary64 values, and the result, an integral
    value, is read back as the integer it is. *)
Definition random (w : t) : float * t :=
  let '(x, r) := SeededRandom.random (rng w) in
  (x, {| grid := grid w; rng := r; currentSeed := currentSeed w |}).

Definition randomInt (min max : Z) (w : t) : Z * t :=
  let '(n, r) := SeededRandom.randomInt (Js.ofZ min) (Js.ofZ max) (rng w) in
  (Js.floor n, {| grid := grid w; rng := r; currentSeed := currentSeed w |}).

Definition randomBoolean (p : float) (w : t) : bool * t :=
  let '(b, r) := SeededRandom.randomBoolean p (rng w) in
  (b, {| grid := grid w; rng := r; currentSeed := currentSeed w |}).

(** [const cell = this.grid.getCell(p); if (cell) cell.reset()]. *)
Definition resetAt (p : Position) (w : t) : t :=
  match Grid.getCell (grid w) p with
  | Some _ => withGrid (Grid.resetCell (grid w) p) w
  | None => w
  end.

(** [if (cell) cell.setType(CellType.Wall)]. *)
Definition wallAt (p : Position) (w : t) : t :=
  match Grid.getCell (grid w) p with
  | Some _ => withGrid (Grid.setType (grid w) p Wall) w
  | None => w
  end.

(** [setSeed]: [this.currentSeed = seed; this.rng = new SeededRandom(seed)]
    (with a seed given, the constructor does not call [Math.random()], so
    the value passed for it is immaterial). *)
Definition setSeed (s : SeededRandom.Seed) (w : t) : t :=
  {| grid := grid w; rng := SeededRandom.new 0%float (Some s); currentSeed := s |}.

Definition isWithinBounds (w : t) (x y : Z) : bool :=
  (0 <=? x) && (0 <=? y) && (x <? Grid.worldWidth (grid w)) &&
  (y <? Grid.worldHeight (grid w)).

Definition fillWithWalls (w : t) : t :=
  forRange 0 (Grid.worldHeight (grid w)) (fun y =>
    forRange 0 (Grid.worldWidth (grid w)) (fun x => wallAt (x, y))) w.

Definition clearStartArea (w : t) : t :=
  forRange 0 3 (fun y => forRange 0 3 (fun x => resetAt (x, y))) w.

Definition addRandomEmptySpaces (w : t) : t :=
  let width := Grid.worldWidth (grid w) in
  let height := Grid.worldHeight (grid w) in
  let numToAdd := Js.floor (Js.ofZ (width * height) * 0.15)%float in
  forRange 0 numToAdd (fun _ w =>
    let '(x, w) := randomInt 0 (width - 1) w in
    let '(y, w) := randomInt 0 (height - 1) w in
    match Grid.getCell (grid w) (x, y) with
    | Some Wall =>
        let w := withGrid (Grid.resetCell (grid w) (x, y)) w in
        let '(cluster, w) := randomBoolean 0.3 w in
        if cluster then
          let '(bx, w) := randomBoolean 0.5 w in
          let dx := if bx then 1 else -1 in
          let '(by_, w) := randomBoolean 0.5 w in
          let dy := if by_ then 1 else -1 in
          resetAt (x + dx, y + dy) w
        else w
    | _ => w
    end) w.

(** [countAdjacentWalls]: the walls among the eight neighbours, a
    position outside the world counting as one. *)
Definition countAdjacentWalls (w : t) (x y : Z) : Z :=
  forRange (-1) 2 (fun dy =>
    forRange (-1) 2 (fun dx count =>
      if (dx =? 0) && (dy =? 0) then count
      else
        let nx := x + dx in
        let ny := y + dy in
        if isWithinBounds w nx ny then
          match Grid.getCell (grid w) (nx, ny) with
          | Some Wall => count + 1
          | _ => count
          end
        else count + 1)) 0.

(** [newState[y][x]] of [smoothCave], a sparse array of arrays: a map
    from the index pair, a missing entry reading as [undefined]. *)
Definition readState (newState : gmap Position bool) (p : Position) : bool :=
  default false (newState !! p).

Definition smoothCave (startX startY endX endY : Z) (w : t) : t :=
  forRange 0 3 (fun _ w =>
    let newState0 : gmap Position bool :=
      forRange startY endY (fun y =>
        forRange startX endX (fun x m => <[(x, y) := false]> m)) ∅ in
    let '(newState, w) :=
      forRange startY endY (fun y =>
        forRange startX endX (fun x '(m, w) =>
          let wallCount := countAdjacentWalls w x y in
          match Grid.getCell (grid w) (x, y) with
          | None => (m, w)
          | Some ty =>
              if (x =? startX) || (y =? startY) || (x =? endX - 1)
                 || (y =? endY - 1)
              then
                let '(r, w) := random w in
                (<[(x, y) := PrimFloat.ltb r 0.5]> m, w)
              else if decide (ty = Wall)
              then (<[(x, y) := 5 <=? wallCount]> m, w)
              else (<[(x, y) := 6 <=? wallCount]> m, w)
          end)) (newState0, w) in
    forRange startY endY (fun y =>
      forRange startX endX (fun x w =>
        if readState newState (x, y) then wallAt (x, y) w
        else resetAt (x, y) w)) w) w.

Definition generateCave (startX startY width height : Z) (w : t)
    : list Position * t :=
  let endX := Z.min (startX + width) (Grid.worldWidth (grid w) - 1) in
  let endY := Z.min (startY + height) (Grid.worldHeight (grid w) - 1) in
  let w :=
    forRange startY endY (fun y =>
      forRange startX endX (fun x w =>
        match Grid.getCell (grid w) (x, y) with
        | Some _ =>
            let distFromCenter :=
              (PrimFloat.abs (Js.ofZ x - (Js.ofZ startX + Js.ofZ width / 2))
                 / (Js.ofZ width / 2)
               + PrimFloat.abs (Js.ofZ y - (Js.ofZ startY + Js.ofZ height / 2))
                 / (Js.ofZ height / 2))%float in
            let emptyProb := (0.9 - 0.2 * distFromCenter)%float in
            let '(r, w) := random w in
            if PrimFloat.ltb r emptyProb then resetAt (x, y) w
            else wallAt (x, y) w
        | None => w
        end)) w in
  let w := smoothCave startX startY endX endY w in
  let positions :=
    forRange startY endY (fun y =>
      forRange startX endX (fun x positions =>
        match Grid.getCell (grid w) (x, y) with
        | Some Empty => positions ++ [(x, y)]
        | _ => positions
        end)) [] in
  (positions, w).

Definition generateCaves (w : t) : list (list Position) * t :=
  let width := Grid.worldWidth (grid w) in
  let height := Grid.worldHeight (grid w) in
  let numCaves := Z.max 4 (Js.floor (Js.ofZ (width * height) / 150)%float) in
  let gridDivisions := Js.ceil (PrimFloat.sqrt (Js.ofZ numCaves)) in
  let divWidth := Js.floor (Js.ofZ width / Js.ofZ gridDivisions)%float in
  let divHeight := Js.floor (Js.ofZ height / Js.ofZ gridDivisions)%float in
  forRange 0 numCaves (fun i '(caveRegions, w) =>
    let divX := Z.rem i gridDivisions in
    let divY := Js.floor (Js.ofZ i / Js.ofZ gridDivisions)%float in
    let caveWidth := Js.floor (Js.ofZ divWidth * 0.7)%float in
    let caveHeight := Js.floor (Js.ofZ divHeight * 0.7)%float in
    let '(rx, w) := random w in
    let caveX := divX * divWidth
                 + Js.floor (rx * Js.ofZ (divWidth - caveWidth) * 0.8)%float in
    let '(ry, w) := random w in
    let caveY := divY * divHeight
                 + Js.floor (ry * Js.ofZ (divHeight - caveHeight) * 0.8)%float in
    if (0 <? caveX) && (0 <? caveY) && (caveX + caveWidth <? width)
       && (caveY + caveHeight <? height)
    then
      let '(cavePoints, w) := generateCave caveX caveY caveWidth caveHeight w in
      if 0 <? Z.of_nat (length cavePoints)
      then (caveRegions ++ [cavePoints], w)
      else (caveRegions, w)
    else (caveRegions, w)) ([], w).

(** [if (wideCell && this.isWithinBounds(x, y)) wideCell.reset()]. *)
Definition widenAt (x y : Z) (w : t) : t :=
  match Grid.getCell (grid w) (x, y) with
  | Some _ => if isWithinBounds w x y
              then withGrid (Grid.resetCell (grid w) (x, y)) w else w
  | None => w
  end.

(** [createTunnel]: the [while] loop, from the current point. *)
Fixpoint tunnel (fuel : nat) (end_ : Position) (currentX currentY : Z) (w : t)
    : Completion t :=
  if (currentX =? px end_) && (currentY =? py end_) then Normal w
  else
    match fuel with
    | O => Diverge
    | S fuel' =>
        let distIfMoveX :=
          Z.abs (px end_ - (currentX + Z.sgn (px end_ - currentX)))
          + Z.abs (py end_ - currentY) in
        let distIfMoveY :=
          Z.abs (px end_ - currentX)
          + Z.abs (py end_ - (currentY + Z.sgn (py end_ - currentY))) in
        let '(r, w) := random w in
        let moveX := if PrimFloat.ltb r 0.8 then distIfMoveX <=? distIfMoveY
                     else distIfMoveY <? distIfMoveX in
        let '(currentX, currentY) :=
          if moveX && negb (currentX =? px end_)
          then (currentX + Z.sgn (px end_ - currentX), currentY)
          else if negb (currentY =? py end_)
          then (currentX, currentY + Z.sgn (py end_ - currentY))
          else (currentX, currentY) in
        let w := resetAt (currentX, currentY) w in
        let '(r, w) := random w in
        let w :=
          if PrimFloat.ltb r 0.7 then
            let '(r, w) := random w in
            let widthX := if PrimFloat.ltb r 0.5 then 1 else -1 in
            let '(r, w) := random w in
            let widthY := if PrimFloat.ltb r 0.5 then 1 else -1 in
            let '(r, w) := random w in
            if PrimFloat.ltb r 0.5 then
              let w := widenAt (currentX + widthX) currentY w in
              widenAt currentX (currentY + widthY) w
            else
              let '(r, w) := random w in
              if PrimFloat.ltb r 0.5
              then widenAt (currentX + widthX) currentY w
              else widenAt currentX (currentY + widthY) w
          else w in
        tunnel fuel' end_ currentX currentY w
    end.

Definition createTunnel (fuel : nat) (start end_ : Position) (w : t)
    : Completion t :=
  tunnel fuel end_ (px start) (py start) w.

Definition manhattanFromStart (point : Position) : Z :=
  Z.abs (px point - 0) + Z.abs (py point - 0).

(** The two [closestDistance] searches of [connectToStart]; [None] is
    [Infinity]. *)
Definition closer (dist : Z) (closestDistance : option Z) : bool :=
  match closestDistance with
  | None => true
  | Some d => dist <? d
  end.

Definition connectToStart (fuel : nat) (caves : list (list Position)) (w : t)
    : Completion t :=
  match caves with
  | [] => Normal w
  | cave0 :: _ =>
      let '(closestCave, _) :=
        foldl (fun acc cave =>
                 foldl (fun '(closestCave, closestDistance) point =>
                          let dist := manhattanFromStart point in
                          if closer dist closestDistance
                          then (cave, Some dist)
                          else (closestCave, closestDistance)) acc cave)
              (cave0, None) caves in
      point0 ← index closestCave 0;
      let '(closestPoint, _) :=
        foldl (fun '(closestPoint, closestDistance) point =>
                 let dist := manhattanFromStart point in
                 if closer dist closestDistance
                 then (point, Some dist)
                 else (closestPoint, closestDistance))
              (point0, None) closestCave in
      createTunnel fuel (0, 0) closestPoint w
  end.

(** [do { cave2Idx = randomInt(0, n - 1) } while (cave2Idx === cave1Idx)]. *)
Fixpoint pickOther (fuel : nat) (n cave1Idx : Z) (w : t) : Completion (Z * t) :=
  match fuel with
  | O => Diverge
  | S fuel' =>
      let '(cave2Idx, w) := randomInt 0 (n - 1) w in
      if cave2Idx =? cave1Idx then pickOther fuel' n cave1Idx w
      else Normal (cave2Idx, w)
  end.

Definition connectCaves (fuel : nat) (caves : list (list Position)) (w : t)
    : Completion t :=
  let n := Z.of_nat (length caves) in
  if n <=? 1 then Normal w
  else
    w ← forRangeC 0 (n - 1) (fun i w =>
           currentCave ← index caves i;
           nextCave ← index caves (i + 1);
           if (0 <? Z.of_nat (length currentCave))
              && (0 <? Z.of_nat (length nextCave))
           then
             let '(startIdx, w) :=
               randomInt 0 (Z.of_nat (length currentCave) - 1) w in
             let '(endIdx, w) :=
               randomInt 0 (Z.of_nat (length nextCave) - 1) w in
             start ← index currentCave startIdx;
             end_ ← index nextCave endIdx;
             createTunnel fuel start end_ w
           else Normal w) w;
    let extraConnections := Js.floor (Js.ofZ n * 0.7)%float in
    w ← forRangeC 0 extraConnections (fun _ w =>
           let '(cave1Idx, w) := randomInt 0 (n - 1) w in
           '(cave2Idx, w) ← pickOther fuel n cave1Idx w;
           cave1 ← index caves cave1Idx;
           cave2 ← index caves cave2Idx;
           if (0 <? Z.of_nat (length cave1)) && (0 <? Z.of_nat (length cave2))
           then
             let '(i1, w) := randomInt 0 (Z.of_nat (length cave1) - 1) w in
             start ← index cave1 i1;
             let '(i2, w) := randomInt 0 (Z.of_nat (length cave2) - 1) w in
             end_ ← index cave2 i2;
             createTunnel fuel start end_ w
           else Normal w) w;
    connectToStart fuel caves w.

(** [visited[y][x]]; a missing entry reads as [undefined]. *)
Definition readVisited (visited : list (list bool)) (p : Position) : bool :=
  default false (get2 visited p).

(** [floodFill]; [fuel] bounds the depth of the recursion. *)
Fixpoint floodFill (fuel : nat) (w : t) (x y : Z)
    (st : list (list bool) * list Position)
    : Completion (list (list bool) * list Position) :=
  match fuel with
  | O => Diverge
  | S fuel' =>
      let '(visited, reachableCells) := st in
      if negb (isWithinBounds w x y) || readVisited visited (x, y)
      then Normal st
      else
        match Grid.getCell (grid w) (x, y) with
        | None => Normal st
        | Some Wall => Normal st
        | Some _ =>
            let st := (set2 visited (x, y) true, reachableCells ++ [(x, y)]) in
            st ← floodFill fuel' w (x + 1) y st;
            st ← floodFill fuel' w (x - 1) y st;
            st ← floodFill fuel' w x (y + 1) st;
            floodFill fuel' w x (y - 1) st
        end
  end.

(** The inner loop of [improveConnectivity], [n] steps to go ([break]
    outside the world). *)
Fixpoint carve (n : nat) (dir : Position) (currentX currentY : Z) (w : t) : t :=
  match n with
  | O => w
  | S n' =>
      let currentX := currentX + px dir in
      let currentY := currentY + py dir in
      if negb (isWithinBounds w currentX currentY) then w
      else
        match Grid.getCell (grid w) (currentX, currentY) with
        | Some _ =>
            let w := withGrid (Grid.resetCell (grid w) (currentX, currentY)) w in
            let '(widen, w) := randomBoolean 0.4 w in
            let w :=
              if widen then
                let offsetX := py dir in
                let offsetY := px dir in
                widenAt (currentX + offsetX) (currentY + offsetY) w
              else w in
            carve n' dir currentX currentY w
        | None => carve n' dir currentX currentY w
        end
  end.

Definition improveConnectivity (reachableCells : list Position) (w : t)
    : Completion t :=
  let len := Z.of_nat (length reachableCells) in
  let numPaths := Z.min 10 (Js.floor (Js.ofZ len / 20)%float) in
  forRangeC 0 numPaths (fun _ w =>
    let '(startIdx, w) := randomInt 0 (len - 1) w in
    let directions := [(1, 0); (-1, 0); (0, 1); (0, -1)] in
    let '(dirIdx, w) := randomInt 0 (Z.of_nat (length directions) - 1) w in
    let '(distance, w) := randomInt 5 15 w in
    start ← index reachableCells startIdx;
    if 0 <? distance then
      dir ← index directions dirIdx;
      Normal (carve (Z.to_nat distance) dir (px start) (py start) w)
    else Normal w) w.

Definition ensureConnectivity (fuel : nat) (w : t) : Completion t :=
  let width := Grid.worldWidth (grid w) in
  let height := Grid.worldHeight (grid w) in
  let visited0 := replicate (Z.to_nat height) (replicate (Z.to_nat width) false) in
  '(visited, reachableCells) ← floodFill fuel w 0 0 (visited0, []);
  let totalCells := width * height in
  let reachablePercent :=
    (Js.ofZ (Z.of_nat (length reachableCells)) / Js.ofZ totalCells * 100)%float in
  w ← (if PrimFloat.ltb reachablePercent 25
       then improveConnectivity reachableCells w else Normal w);
  Normal
    (forRange 0 height (fun y =>
       forRange 0 width (fun x w =>
         match Grid.getCell (grid w) (x, y) with
         | Some Empty =>
             if readVisited visited (x, y) then w
             else withGrid (Grid.setType (grid w) (x, y) Wall) w
         | _ => w
         end)) w).

(** [generateWorld(newSeed?)]. *)
Definition generateWorld (fuel : nat) (newSeed : option SeededRandom.Seed)
    (w : t) : Completion t :=
  let w := match newSeed with
           | Some s => setSeed s w
           | None => w
           end in
  let w := fillWithWalls w in
  let '(caveRegions, w) := generateCaves w in
  w ← connectCaves fuel caveRegions w;
  let w := addRandomEmptySpaces w in
  let w := clearStartArea w in
  ensureConnectivity fuel w.

End WorldGenerator.

(** ** app.ts: the movement queue *)

Module App.

(** The fields of [PathfindingApp] that the queue operations read or
    write. *)
Record t : Type := mk {
  grid : Grid.t;
  currentTask : option Position;
  movementQueue : list Position;
  isRandomMode : bool;
  isMoving : bool
}.

(** [handleGridClick] for a click on the cell element of
    [clickedPosition], up to its last statement: the flag tells whether
    the handler goes on to [await this.processMovementQueue()], which
    takes the head of the queue as the current task. *)
Definition handleGridClick (clickedPosition : Position) (a : t) : t * bool :=
  if isRandomMode a then (a, false)
  else
    match Grid.getCell (grid a) clickedPosition with
    | None => (a, false)
    | Some ty =>
        if decide (ty <> Wall /\ ty <> Player) then
          ({| grid := Grid.setType (grid a) clickedPosition QueuedTarget;
              currentTask := currentTask a;
              movementQueue := movementQueue a ++ [clickedPosition];
              isRandomMode := isRandomMode a;
              isMoving := isMoving a |},
           negb (isMoving a))
        else (a, false)
    end.

Definition removeTaskFromQueue (index : Z) (a : t) : t :=
  if (0 <=? index) && (index <? Z.of_nat (length (movementQueue a))) then
    match movementQueue a !! Z.to_nat index with
    | Some removedPosition =>
        let grid' :=
          match Grid.getCell (grid a) removedPosition with
          | Some QueuedTarget => Grid.resetCell (grid a) removedPosition
          | _ => grid a
          end in
        {| grid := grid';
           currentTask := currentTask a;
           movementQueue := delete (Z.to_nat index) (movementQueue a);
           isRandomMode := isRandomMode a;
           isMoving := isMoving a |}
    | None => a (* not reached: the index is in range *)
    end
  else a.

End App.

(** ** grid.ts: the viewport and the random empty position *)

Module Viewport.

(** The [Grid] object with its viewport fields: the world of [Grid.t],
    the size of the visible window and its offset in the world. *)
Record t : Type := mk {
  world : Grid.t;
  viewWidth : Z;
  viewHeight : Z;
  viewportX : Z;
  viewportY : Z
}.

Definition withWorld (g : Grid.t) (v : t) : t :=
  {| world := g; viewWidth := viewWidth v; viewHeight := viewHeight v;
     viewportX := viewportX v; viewportY := viewportY v |}.

(** [moveViewport(deltaX, deltaY)]; the offsets are assigned only when one
    of them changes (the window is then drawn again). *)
Definition moveViewport (deltaX deltaY : Z) (v : t) : t :=
  let newViewportX :=
    Z.max 0 (Z.min (Grid.worldWidth (world v) - viewWidth v) (viewportX v + deltaX)) in
  let newViewportY :=
    Z.max 0 (Z.min (Grid.worldHeight (world v) - viewHeight v) (viewportY v + deltaY)) in
  if negb (newViewportX =? viewportX v) || negb (newViewportY =? viewportY v)
  then {| world := world v; viewWidth := viewWidth v; viewHeight := viewHeight v;
          viewportX := newViewportX; viewportY := newViewportY |}
  else v.

(** [centerViewportOn(worldPosition)]; [Math.floor(this.viewWidth / 2)] on
    the integral [viewWidth] is the quotient rounded down. *)
Definition centerViewportOn (worldPosition : Position) (v : t) : t :=
  {| world := world v; viewWidth := viewWidth v; viewHeight := viewHeight v;
     viewportX :=
       Z.max 0 (Z.min (Grid.worldWidth (world v) - viewWidth v)
                      (px worldPosition - viewWidth v / 2));
     viewportY :=
       Z.max 0 (Z.min (Grid.worldHeight (world v) - viewHeight v)
                      (py worldPosition - viewHeight v / 2)) |}.

Definition viewToWorldPosition (v : t) (viewPos : Position) : Position :=
  (px viewPos + viewportX v, py viewPos + viewportY v).

(** [worldToViewPosition]; [None] is [null]. *)
Definition worldToViewPosition (v : t) (worldPos : Position) : option Position :=
  let viewX := px worldPos - viewportX v in
  let viewY := py worldPos - viewportY v in
  if (0 <=? viewX) && (viewX <? viewWidth v) && (0 <=? viewY) && (viewY <? viewHeight v)
  then Some (viewX, viewY)
  else None.

Definition isWithinViewport (v : t) (worldPosition : Position) : bool :=
  (viewportX v <=? px worldPosition) &&
  (px worldPosition <? viewportX v + viewWidth v) &&
  (viewportY v <=? py worldPosition) &&
  (py worldPosition <? viewportY v + viewHeight v).

(** [getRandomEmptyPosition]: the positions of the [Empty] cells, row by
    row, and the one at index [Math.floor(Math.random() * length)];
    [mathRandom] is the value that [Math.random()] yields.  The loop reads
    [this.cells[y][x]] without a bounds check, so a missing cell throws.
    [None] is [null] (and [undefined], were the index outside the array). *)
Definition emptyCells (g : Grid.t) : Completion (list Position) :=
  forRangeC 0 (Grid.worldHeight g) (fun y =>
    forRangeC 0 (Grid.worldWidth g) (fun x emptyCells =>
      match get2 (Grid.cells g) (x, y) with
      | Some ty =>
          Normal (if decide (ty = Empty) then emptyCells ++ [(x, y)]
                  else emptyCells)
      | None => Throw
      end)) [].

Definition getRandomEmptyPosition (mathRandom : float) (g : Grid.t)
    : Completion (option Position) :=
  emptyCells ← emptyCells g;
  if Z.of_nat (length emptyCells) =? 0 then Normal None
  else
    let randomIndex :=
      Js.floor (mathRandom * Js.ofZ (Z.of_nat (length emptyCells)))%float in
    Normal (if 0 <=? randomIndex then emptyCells !! Z.to_nat randomIndex
            else None).

End Viewport.

(** ** player.ts *)

Module Player.

Record t : Type := mk {
  position : Position;
  trailCells : list Position
}.

(** [updatePlayerPosition]. *)
Definition updatePlayerPosition (position : Position) (g : Grid.t) : Grid.t :=
  match Grid.getCell g position with
  | Some _ => Grid.setType g position Player
  | None => g
  end.

(** [new Player(grid, startPosition)]. *)
Definition new (startPosition : Position) (v : Viewport.t) : t * Viewport.t :=
  let g := updatePlayerPosition startPosition (Viewport.world v) in
  ({| position := startPosition; trailCells := [] |},
   Viewport.centerViewportOn startPosition (Viewport.withWorld g v)).

Definition getPosition (p : t) : Position := position p.

(** [moveTo(position)]: the cell that is left becomes a trail cell. *)
Definition moveTo (newPosition : Position) (p : t) (v : Viewport.t)
    : t * Viewport.t :=
  let g := Viewport.world v in
  let '(g, trail) :=
    match Grid.getCell g (position p) with
    | Some _ => (Grid.setType g (position p) PlayerTrail,
                 trailCells p ++ [position p])
    | None => (g, trailCells p)
    end in
  let g := updatePlayerPosition newPosition g in
  ({| position := newPosition; trailCells := trail |},
   Viewport.centerViewportOn newPosition (Viewport.withWorld g v)).

(** [clearTrail]. *)
Definition clearTrail (p : t) (g : Grid.t) : t * Grid.t :=
  ({| position := position p; trailCells := [] |},
   foldl (fun g pos =>
            match Grid.getCell g pos with
            | Some PlayerTrail => Grid.resetCell g pos
            | _ => g
            end) g (trailCells p)).

End Player.

(** ** app.ts: the application *)

Module Shell.

(** [PathfindingApp]: the grid (with its viewport), the player, the world
    generator's seed and random state (its [grid] field is this same
    grid), and the fields of the movement queue.  The timers and the DOM
    are left out. *)
Record t : Type := mk {
  grid : Viewport.t;
  player : Player.t;
  rng : SeededRandom.t;
  currentSeed : SeededRandom.Seed;
  currentTask : option Position;
  movementQueue : list Position;
  isRandomMode : bool;
  isMoving : bool;
  movementCancelled : bool
}.

(** [clearFrames]: the loop over the world, then
    [this.player.clearTrail(); this.isMoving = false]. *)
Definition clearFrames (a : t) : t :=
  let g := Viewport.world (grid a) in
  let g :=
    forRange 0 (Grid.worldHeight g) (fun y =>
      forRange 0 (Grid.worldWidth g) (fun x g =>
        match Grid.getCell g (x, y) with
        | Some ty =>
            if decide (ty = Path \/ ty = Visited \/ ty = Target)
            then Grid.resetCell g (x, y) else g
        | None => g
        end)) g in
  let '(pl, g) := Player.clearTrail (player a) g in
  {| grid := Viewport.withWorld g (grid a); player := pl; rng := rng a;
     currentSeed := currentSeed a; currentTask := currentTask a;
     movementQueue := movementQueue a; isRandomMode := isRandomMode a;
     isMoving := false; movementCancelled := movementCancelled a |}.

(** [resetGrid] ([toggleRandomMode] leaves random mode when it is on). *)
Definition resetGrid (a : t) : t :=
  let g := Viewport.world (grid a) in
  let g := match Grid.getCell g (Player.getPosition (player a)) with
           | Some _ => Grid.resetCell g (Player.getPosition (player a))
           | None => g
           end in
  let a := clearFrames
             {| grid := Viewport.withWorld g (grid a); player := player a;
                rng := rng a; currentSeed := currentSeed a;
                currentTask := currentTask a; movementQueue := [];
                isRandomMode := false; isMoving := false;
                movementCancelled := true |} in
  let '(pl, v) := Player.new (0, 0) (grid a) in
  {| grid := v; player := pl; rng := rng a; currentSeed := currentSeed a;
     currentTask := currentTask a; movementQueue := movementQueue a;
     isRandomMode := isRandomMode a; isMoving := isMoving a;
     movementCancelled := movementCancelled a |}.

(** [generateWorld(seed?)]: the grid is reset, the world generator runs
    on it, and a new player is placed at the origin. *)
Definition generateWorld (fuel : nat) (seed : option SeededRandom.Seed) (a : t)
    : Completion t :=
  let g := Grid.reset (Viewport.world (grid a)) in
  w ← WorldGenerator.generateWorld fuel seed
         {| WorldGenerator.grid := g; WorldGenerator.rng := rng a;
            WorldGenerator.currentSeed := currentSeed a |};
  let '(pl, v) :=
    Player.new (0, 0) (Viewport.withWorld (WorldGenerator.grid w) (grid a)) in
  Normal {| grid := v; player := pl; rng := WorldGenerator.rng w;
            currentSeed := WorldGenerator.currentSeed w;
            currentTask := currentTask a; movementQueue := movementQueue a;
            isRandomMode := false; isMoving := false;
            movementCancelled := true |}.

(** [visualizePath], up to its pause: the positions between the first
    and the last of the path are tagged [Path], unless the movement was
    cancelled. *)
Definition visualizePath (path : list Position) (a : t) : t :=
  if movementCancelled a then a
  else
    let g :=
      forRange 1 (Z.of_nat (length path) - 1) (fun i g =>
        match path !! Z.to_nat i with
        | Some pos =>
            match Grid.getCell g pos with
            | Some _ => Grid.setType g pos Path
            | None => g
            end
        | None => g
        end) (Viewport.world (grid a)) in
    {| grid := Viewport.withWorld g (grid a); player := player a; rng := rng a;
       currentSeed := currentSeed a; currentTask := currentTask a;
       movementQueue := movementQueue a; isRandomMode := isRandomMode a;
       isMoving := isMoving a; movementCancelled := movementCancelled a |}.

(** [moveAlongPath] when no other handler runs during its pauses:
    [this.player.moveTo(path[i])] for [i] from 1, then
    [this.isMoving = false]; the loop returns at once when the movement
    was cancelled. *)
Definition moveAlongPath (path : list Position) (a : t) : t :=
  if movementCancelled a && (1 <? Z.of_nat (length path)) then a
  else
    let '(pl, v) :=
      forRange 1 (Z.of_nat (length path)) (fun i '(pl, v) =>
        match path !! Z.to_nat i with
        | Some currentPosition => Player.moveTo currentPosition pl v
        | None => (pl, v)
        end) (player a, grid a) in
    {| grid := v; player := pl; rng := rng a; currentSeed := currentSeed a;
       currentTask := currentTask a; movementQueue := movementQueue a;
       isRandomMode := isRandomMode a; isMoving := false;
       movementCancelled := movementCancelled a |}.

(** [navigateToPosition(targetPosition)] when no other handler runs
    during its pauses, with the value it resolves to.  Without a path
    the target cell is left tagged [Target]; a timer resets it two
    seconds later. *)
Definition navigateToPosition (fuel : nat) (targetPosition : Position) (a : t)
    : Completion (t * bool) :=
  let g := Grid.resetPath (Viewport.world (grid a)) in
  match Grid.getCell g targetPosition with
  | None =>
      Normal ({| grid := Viewport.withWorld g (grid a); player := player a;
                 rng := rng a; currentSeed := currentSeed a;
                 currentTask := currentTask a; movementQueue := movementQueue a;
                 isRandomMode := isRandomMode a; isMoving := isMoving a;
                 movementCancelled := false |}, false)
  | Some _ =>
      let g := Grid.setType g targetPosition Target in
      let playerPosition := Player.getPosition (player a) in
      let '(g, path) := PathFinder.findPath fuel g playerPosition targetPosition in
      let a := {| grid := Viewport.withWorld g (grid a); player := player a;
                  rng := rng a; currentSeed := currentSeed a;
                  currentTask := currentTask a; movementQueue := movementQueue a;
                  isRandomMode := isRandomMode a; isMoving := true;
                  movementCancelled := false |} in
      let noPath :=
        Normal ({| grid := grid a; player := player a; rng := rng a;
                   currentSeed := currentSeed a; currentTask := currentTask a;
                   movementQueue := movementQueue a;
                   isRandomMode := isRandomMode a; isMoving := false;
                   movementCancelled := movementCancelled a |}, false) in
      match path with
      | PathFinder.Running => Diverge
      | PathFinder.Null => noPath
      | PathFinder.Found path =>
          if 1 <? Z.of_nat (length path) then
            let a := visualizePath path a in
            if movementCancelled a then Normal (clearFrames a, false)
            else
              let a := moveAlongPath path a in
              if negb (movementCancelled a) then Normal (clearFrames a, true)
              else Normal (a, false)
          else noPath
      end
  end.

(** [processMovementQueue] when no other handler runs during its
    pauses; [n] bounds the number of tasks taken (the recursion in the
    source is as deep as the queue is long). *)
Fixpoint processMovementQueue (n fuel : nat) (a : t) : Completion t :=
  match movementQueue a with
  | [] => Normal a
  | task :: rest =>
      if isMoving a then Normal a
      else
        match n with
        | O => Diverge
        | S n' =>
            let a := {| grid := grid a; player := player a; rng := rng a;
                        currentSeed := currentSeed a; currentTask := Some task;
                        movementQueue := rest; isRandomMode := isRandomMode a;
                        isMoving := isMoving a;
                        movementCancelled := movementCancelled a |} in
            '(a, _) ← navigateToPosition fuel task a;
            let a := {| grid := grid a; player := player a; rng := rng a;
                        currentSeed := currentSeed a; currentTask := None;
                        movementQueue := movementQueue a;
                        isRandomMode := isRandomMode a; isMoving := isMoving a;
                        movementCancelled := movementCancelled a |} in
            if 0 <? Z.of_nat (length (movementQueue a))
            then processMovementQueue n' fuel a
            else Normal a
        end
  end.

(** One round of random mode, [pickRandomTarget], when no other handler
    runs during its pauses; the timers that call it again are left out.
    The flag is the outcome of the navigation, when one was made. *)
Definition pickRandomTarget (mathRandom : float) (fuel : nat) (a : t)
    : Completion (t * option bool) :=
  if negb (isRandomMode a) then Normal (a, None)
  else if isMoving a then Normal (a, None)
  else
    randomPosition ← Viewport.getRandomEmptyPosition mathRandom
                        (Viewport.world (grid a));
    match randomPosition with
    | Some p =>
        '(a, success) ← navigateToPosition fuel p a;
        Normal (a, Some success)
    | None => Normal (a, None)
    end.

End Shell.

(* ================================================================== *)
(** * Part II: properties                                             *)
(* ================================================================== *)

(** ** Loops and arrays *)

Section Loops.
Context {S : Type}.

Lemma forRange_empty (lo hi : Z) (body : Z -> S -> S) (s : S) :
  hi <= lo -> forRange lo hi body s = s.
Proof. intros H. unfold forRange. rewrite seqZ_nil by lia. done. Qed.

Lemma forRange_snoc (lo hi : Z) (body : Z -> S -> S) (s : S) :
  lo <= hi ->
  forRange lo (hi + 1) body s = body hi (forRange lo hi body s).
Proof.
  intros H. unfold forRange.
  replace (hi + 1 - lo) with (Z.of_nat (Datatypes.S (Z.to_nat (hi - lo)))) by lia.
  rewrite seqZ_S, foldl_app. simpl.
  replace (Z.of_nat (Z.to_nat (hi - lo))) with (hi - lo) by lia.
  by replace (lo + (hi - lo)) with hi by lia.
Qed.

(** An invariant indexed by the loop counter. *)
Lemma forRange_inv (I : Z -> S -> Prop) (lo hi : Z) (body : Z -> S -> S) (s : S) :
  lo <= hi ->
  I lo s ->
  (forall i s, lo <= i < hi -> I i s -> I (i + 1) (body i s)) ->
  I hi (forRange lo hi body s).
Proof.
  intros Hle H0 Hstep.
  assert (Hn : forall n : nat, lo + Z.of_nat n <= hi ->
             I (lo + Z.of_nat n) (forRange lo (lo + Z.of_nat n) body s)).
  { induction n as [|n IH]; intros Hb.
    - rewrite Z.add_0_r, forRange_empty by lia. done.
    - replace (lo + Z.of_nat (Datatypes.S n)) with (lo + Z.of_nat n + 1) by lia.
      rewrite forRange_snoc by lia. apply Hstep; [lia|]. apply IH. lia. }
  specialize (Hn (Z.to_nat (hi - lo))).
  replace (lo + Z.of_nat (Z.to_nat (hi - lo))) with hi in Hn by lia.
  apply Hn. lia.
Qed.

(** An invariant that does not mention the counter. *)
Lemma forRange_ind (P : S -> Prop) (lo hi : Z) (body : Z -> S -> S) (s : S) :
  P s ->
  (forall i s, lo <= i < hi -> P s -> P (body i s)) ->
  P (forRange lo hi body s).
Proof.
  intros H0 Hstep. destruct (decide (lo <= hi)) as [Hle|Hgt].
  - apply (forRange_inv (fun _ => P)); auto.
  - rewrite forRange_empty by lia. done.
Qed.

Lemma forRangeC_ind (P : S -> Prop) (lo hi : Z) (body : Z -> S -> Completion S)
    (s s' : S) :
  P s ->
  (forall i s s', lo <= i < hi -> P s -> body i s = Normal s' -> P s') ->
  forRangeC lo hi body s = Normal s' -> P s'.
Proof.
  unfold forRangeC. intros H0 Hstep.
  assert (Hin : forall i, i ∈ seqZ lo (hi - lo) -> lo <= i < hi).
  { intros i Hi. apply elem_of_seqZ in Hi. lia. }
  revert Hin. generalize (seqZ lo (hi - lo)) as l. intros l.
  revert s' . induction l as [|i l IH] using rev_ind; intros s' Hin Hrun.
  - simpl in Hrun. by inversion Hrun; subst.
  - rewrite foldl_app in Hrun. simpl in Hrun.
    destruct (foldl (fun c i => c ≫= body i) (Normal s) l) as [s1| |] eqn:E;
      try discriminate.
    eapply Hstep; [| |exact Hrun].
    + apply Hin. apply elem_of_app. right. by apply list_elem_of_singleton.
    + apply IH; [|done]. intros j Hj. apply Hin. apply elem_of_app. by left.
Qed.

End Loops.

Section Arrays.
Context {A : Type}.
Implicit Types (a : list (list A)) (p q : Position).

Lemma get2_set2_eq a p v :
  0 <= px p -> 0 <= py p -> is_Some (get2 a p) ->
  get2 (set2 a p v) p = Some v.
Proof.
  unfold get2, set2. intros _ _ [old Hold].
  rewrite list_lookup_alter_eq.
  destruct (a !! Z.to_nat (py p)) as [row|] eqn:Hrow; [|done]. simpl in *.
  apply list_lookup_insert_eq. by eapply lookup_lt_Some.
Qed.

Lemma get2_set2_ne a p q v :
  0 <= px p -> 0 <= py p -> 0 <= px q -> 0 <= py q -> p <> q ->
  get2 (set2 a p v) q = get2 a q.
Proof.
  unfold get2, set2. intros ? ? ? ? Hne.
  destruct (decide (Z.to_nat (py p) = Z.to_nat (py q))) as [Hy|Hy].
  - rewrite Hy, list_lookup_alter_eq.
    destruct (a !! Z.to_nat (py q)) as [row|]; [|done]. simpl.
    apply list_lookup_insert_ne. intros Hx. apply Hne.
    destruct p, q; unfold px, py in *; simpl in *. f_equal; lia.
  - by rewrite list_lookup_alter_ne.
Qed.

End Arrays.

(** ** The grid *)

Section GridFacts.
Implicit Types (g : Grid.t) (p q : Position) (ty : CellType).

Lemma bounds_spec g p :
  Grid.isWithinWorldBounds g p = true <->
  0 <= px p < Grid.worldWidth g /\ 0 <= py p < Grid.worldHeight g.
Proof. unfold Grid.isWithinWorldBounds. lia. Qed.

Lemma getCell_bounds g p ty :
  Grid.getCell g p = Some ty ->
  0 <= px p < Grid.worldWidth g /\ 0 <= py p < Grid.worldHeight g.
Proof.
  unfold Grid.getCell. destruct (Grid.isWithinWorldBounds g p) eqn:E; [|done].
  intros _. by apply bounds_spec.
Qed.

Lemma getCell_get2 g p ty :
  Grid.getCell g p = Some ty -> get2 (Grid.cells g) p = Some ty.
Proof.
  unfold Grid.getCell. by destruct (Grid.isWithinWorldBounds g p).
Qed.

Lemma getCell_setType g p q ty :
  is_Some (Grid.getCell g p) ->
  Grid.getCell (Grid.setType g p ty) q
  = if decide (q = p) then Some ty else Grid.getCell g q.
Proof.
  intros [old Hold]. pose proof (getCell_bounds _ _ _ Hold) as Hb.
  unfold Grid.getCell, Grid.isWithinWorldBounds. simpl.
  fold (Grid.isWithinWorldBounds g q).
  destruct (decide (q = p)) as [->|Hne].
  - apply bounds_spec in Hb as Hb'. rewrite Hb'.
    apply get2_set2_eq; [lia|lia|]. exists old. by apply getCell_get2.
  - destruct (Grid.isWithinWorldBounds g q) eqn:E; [|done].
    apply bounds_spec in E. apply get2_set2_ne; try lia. congruence.
Qed.

Lemma setType_width g p ty :
  Grid.worldWidth (Grid.setType g p ty) = Grid.worldWidth g.
Proof. done. Qed.

Lemma setType_height g p ty :
  Grid.worldHeight (Grid.setType g p ty) = Grid.worldHeight g.
Proof. done. Qed.

(** A double loop over the world that rewrites each cell by a function
    of its position and type rewrites the world pointwise.  The state
    [S] of the loop holds the grid ([gr]). *)
Lemma cells_loop {S : Type} (gr : S -> Grid.t) (body : Z -> Z -> S -> S)
    (fn : Position -> CellType -> CellType) (s0 : S) :
  (forall x y s,
      0 <= x < Grid.worldWidth (gr s) -> 0 <= y < Grid.worldHeight (gr s) ->
      Grid.worldWidth (gr (body x y s)) = Grid.worldWidth (gr s) /\
      Grid.worldHeight (gr (body x y s)) = Grid.worldHeight (gr s) /\
      forall q, Grid.getCell (gr (body x y s)) q
                = if decide (q = (x, y)) then fn q <$> Grid.getCell (gr s) q
                  else Grid.getCell (gr s) q) ->
  let s1 := forRange 0 (Grid.worldHeight (gr s0)) (fun y =>
              forRange 0 (Grid.worldWidth (gr s0)) (fun x => body x y)) s0 in
  Grid.worldWidth (gr s1) = Grid.worldWidth (gr s0) /\
  Grid.worldHeight (gr s1) = Grid.worldHeight (gr s0) /\
  forall q, Grid.getCell (gr s1) q = fn q <$> Grid.getCell (gr s0) q.
Proof.
  intros Hbody. set (W := Grid.worldWidth (gr s0)). set (H := Grid.worldHeight (gr s0)).
  assert (Hout : forall q, ~ (0 <= px q < W /\ 0 <= py q < H) ->
                 Grid.getCell (gr s0) q = None).
  { intros q Hq. destruct (Grid.getCell (gr s0) q) eqn:E; [|done].
    apply getCell_bounds in E. fold W H in E. lia. }
  pose (I := fun (y : Z) (s : S) =>
    Grid.worldWidth (gr s) = W /\ Grid.worldHeight (gr s) = H /\
    forall q, Grid.getCell (gr s) q
              = if decide (py q < y) then fn q <$> Grid.getCell (gr s0) q
                else Grid.getCell (gr s0) q).
  assert (HI : I (Z.max 0 H) (forRange 0 H (fun y => forRange 0 W (fun x => body x y)) s0)).
  { destruct (decide (0 <= H)) as [HH|HH];
      [rewrite Z.max_r by lia|rewrite Z.max_l, forRange_empty by lia].
    2:{ repeat split; try done. intros q. case_decide; [|done].
        rewrite Hout by lia. done. }
    apply forRange_inv; [done| |].
    { repeat split; try done. intros q. case_decide; [|done].
      rewrite Hout by lia. done. }
    intros y s Hy (HW1 & HH1 & Hq).
    pose (J := fun (x : Z) (s' : S) =>
      Grid.worldWidth (gr s') = W /\ Grid.worldHeight (gr s') = H /\
      forall q, Grid.getCell (gr s') q
                = if decide (py q < y \/ (py q = y /\ px q < x))
                  then fn q <$> Grid.getCell (gr s0) q
                  else Grid.getCell (gr s0) q).
    assert (HJ : J (Z.max 0 W) (forRange 0 W (fun x => body x y) s)).
    { destruct (decide (0 <= W)) as [HW|HW];
        [rewrite Z.max_r by lia|rewrite Z.max_l, forRange_empty by lia].
      2:{ repeat split; try done. intros q. rewrite Hq.
          repeat case_decide; try done; try lia; rewrite Hout by lia; done. }
      apply forRange_inv; [done| |].
      { repeat split; try done. intros q. rewrite Hq.
        repeat case_decide; try done; try lia; rewrite Hout by lia; done. }
      intros x s' Hx (HW2 & HH2 & Hq2).
      destruct (Hbody x y s') as (HW3 & HH3 & Hq3); [lia|lia|].
      repeat split; [congruence|congruence|].
      intros q. rewrite Hq3, Hq2. destruct q as [qx qy].
      unfold px, py in *. simpl in *.
      repeat case_decide; simplify_eq; try done; try lia;
        exfalso; match goal with Hne : (_, _) <> (_, _) |- _ => apply Hne; f_equal; lia end. }
    destruct HJ as (HW2 & HH2 & Hq2). repeat split; try done.
    intros q. rewrite Hq2.
    repeat case_decide; try done; try lia; rewrite Hout by lia; done. }
  destruct HI as (HW1 & HH1 & Hq). repeat split; try done.
  intros q. rewrite Hq. case_decide; [done|]. rewrite Hout by lia. done.
Qed.

End GridFacts.

(** ** The random generator *)

Module SeededRandomFacts.
Import SeededRandom.

Lemma random_seed r : seed (snd (random r)) = seed r.
Proof. done. Qed.

Lemma randomInt_seed min max r : seed (snd (randomInt min max r)) = seed r.
Proof. done. Qed.

Lemma randomBoolean_seed p r : seed (snd (randomBoolean p r)) = seed r.
Proof. done. Qed.

Lemma shuffleFrom_seed {A : Type} (i : nat) (l : list A) r :
  seed (snd (shuffleFrom i l r)) = seed r.
Proof.
  revert l r. induction i as [|i IH]; intros l r; [done|].
  simpl. rewrite IH. done.
Qed.

(** Every call but [setSeed] keeps the [seed] field. *)
Lemma perform_seed c r :
  (forall s, c <> CallSetSeed s) -> seed (perform c r) = seed r.
Proof.
  intros Hc.
  destruct c; simpl; auto using random_seed, randomInt_seed, randomBoolean_seed.
  - apply shuffleFrom_seed.
  - by destruct (Hc s).
Qed.

(** The state after construction holds the seed twice. *)
Lemma new_fresh m s : currentSeed (new m s) = seed (new m s).
Proof. done. Qed.

Lemma reset_fresh r : seed r = currentSeed r -> reset r = r.
Proof. destruct r as [s c]. simpl. by intros ->. Qed.

(** [setSeed(s)] leaves the generator that [new SeededRandom(s)]
    constructs. *)
Lemma setSeed_new m s r : setSeed s r = new m (Some s).
Proof. done. Qed.

(** After a history of calls the [seed] field is the one that a
    construction with the seed of the last seeding gives. *)
Lemma performAll_seed calls :
  forall m s r,
    seed r = seed (new m s) ->
    seed (foldl (fun r c => perform c r) r calls)
    = seed (new m (lastSeeding s calls)).
Proof.
  induction calls as [|c calls IH]; intros m s r Hr; [done|].
  unfold lastSeeding. cbn [foldl]. fold (lastSeeding s calls).
  destruct c as [| | | | |s'];
    try (apply IH; rewrite perform_seed; [done|discriminate]).
  apply (IH m (Some s')). done.
Qed.

(** The test that tells the first value of a sequence from [x]. *)
Definition startsWith (x : float) (l : list float) : bool :=
  match l with
  | y :: _ => PrimFloat.eqb x y
  | [] => false
  end.

(** The claim of C7 fails for an instance that has been re-seeded:
    constructed with seed 1 and given [setSeed(2)], it yields after
    [reset()] the sequence of seed 2, whose first value is not the first
    value it gave after its construction. *)
Lemma reset_after_setSeed_differs :
  ~ (forall (m : float) (s : option Seed) (calls : list Call) (n : nat),
        fst (randoms n (reset (foldl (fun r c => perform c r) (new m s) calls)))
        = fst (randoms n (new m s))).
Proof.
  intros H.
  specialize (H 0%float (Some (SeedNumber 1%float))
                [CallSetSeed (SeedNumber 2%float)] 1%nat).
  apply (f_equal
           (startsWith
              (hd 0%float
                 (fst (randoms 1 (new 0%float (Some (SeedNumber 1%float)))))))) in H.
  vm_compute in H. discriminate H.
Qed.

(** C7, amended. Two generators constructed with the same numeric seed
    give the same sequence of [random()] values, whatever
    [Math.random()] would have yielded at their construction; and on a
    generator constructed from any seed and then used for any sequence
    of draws, shuffles, resets and re-seedings, [reset()] followed by
    [n] calls of [random()] gives the [n] values that a generator gives
    right after its construction with the seed of the last seeding (the
    seed of the construction when [setSeed] was not called since). *)
Theorem rng_reproducible :
  (forall (m1 m2 s : float) (n : nat),
      fst (randoms n (new m1 (Some (SeedNumber s))))
      = fst (randoms n (new m2 (Some (SeedNumber s)))))
  /\ (forall (m : float) (s : option Seed) (calls : list Call) (n : nat),
         fst (randoms n (reset (foldl (fun r c => perform c r) (new m s) calls)))
         = fst (randoms n (new m (lastSeeding s calls))))
  /\ (forall (s : option Seed) (calls : list Call),
         (forall s', CallSetSeed s' ∉ calls) -> lastSeeding s calls = s).
Proof.
  split; [done|]. split.
  - intros m s calls n. f_equal. f_equal.
    unfold reset. rewrite (performAll_seed calls m s) by done.
    by destruct (new m (lastSeeding s calls)) as [a b] eqn:E;
      pose proof (new_fresh m (lastSeeding s calls)) as H;
      rewrite E in H; simpl in *; subst.
  - intros s calls. revert s. induction calls as [|c calls IH]; intros s Hc; [done|].
    cbn [lastSeeding foldl].
    replace (match c with CallSetSeed s' => Some s' | _ => s end) with s.
    + apply IH. intros s' Hin. apply (Hc s'). by right.
    + destruct c; try done. destruct (Hc s0). by left.
Qed.

Lemma rng_reproducible_witness :
  fst (randoms 3 (reset (foldl (fun r c => perform c r)
                           (new 0%float (Some (SeedNumber 1%float)))
                           [CallRandom; CallSetSeed (SeedNumber 2%float);
                            CallRandomInt 1 6; CallRandom])))
  = fst (randoms 3 (new 0%float (Some (SeedNumber 2%float))))
  /\ lastSeeding (Some (SeedNumber 1%float)) [CallRandom; CallReset; CallShuffle 4]
     = Some (SeedNumber 1%float).
Proof.
  split.
  - exact (proj1 (proj2 rng_reproducible) 0%float (Some (SeedNumber 1%float))
             [CallRandom; CallSetSeed (SeedNumber 2%float); CallRandomInt 1 6;
              CallRandom] 3%nat).
  - apply (proj2 (proj2 rng_reproducible)).
    intros s' Hin.
    repeat (apply elem_of_cons in Hin as [Hin|Hin]; [discriminate Hin|]).
    by apply elem_of_nil in Hin.
Defined.

Example randomInt_5_3 :
  fst (randomInt 5 3 (new 0%float (Some (SeedNumber 1%float)))) = 4%float.
Proof. vm_compute. reflexivity. Qed.

(** The claim of C5 fails: [randomInt(5, 3)] returns a number. *)
Lemma randomInt_min_above_max_returns :
  ~ (forall (min max : float) (r : t),
        PrimFloat.ltb max min = true ->
        callRandomInt min max r = Failed InvalidRange).
Proof.
  intros H. specialize (H 5%float 3%float (new 0%float (Some (SeedNumber 1%float)))).
  discriminate H. reflexivity.
Qed.

(** C5, amended. [randomInt(min, max)] with [min > max] raises no
    error: it returns, computed in binary64 as the source computes it,
    [Math.floor(random() * (max - min + 1)) + min] for [min] and [max]
    rounded up and down to integers, and the generator has advanced by
    one step. *)
Theorem randomInt_min_above_max (min max : float) (r : t) :
  PrimFloat.ltb max min = true ->
  callRandomInt min max r
  = Returned ((Js.mathFloor
                 (fst (random r) * (Js.mathFloor max - Js.mathCeil min + 1))
               + Js.mathCeil min)%float,
              snd (random r)).
Proof. intros _. done. Qed.

Lemma randomInt_min_above_max_witness :
  PrimFloat.ltb 3 5 = true /\
  callRandomInt 5 3 (new 0%float (Some (SeedNumber 1%float)))
  = Returned
      ((Js.mathFloor
          (fst (random (new 0%float (Some (SeedNumber 1%float))))
           * (Js.mathFloor 3 - Js.mathCeil 5 + 1))
        + Js.mathCeil 5)%float,
       snd (random (new 0%float (Some (SeedNumber 1%float))))).
Proof. split; [reflexivity|]. apply randomInt_min_above_max. reflexivity. Defined.

End SeededRandomFacts.

(** ** Resetting the visualisation *)

Module GridFacts.

(** What [resetPath] does to a cell of type [ty]. *)
Definition cleared (ty : CellType) : CellType :=
  if decide (ty = Path \/ ty = Visited \/ ty = Target) then Empty else ty.

Lemma resetPath_body (x y : Z) (g : Grid.t) :
  0 <= x < Grid.worldWidth g -> 0 <= y < Grid.worldHeight g ->
  let g' := match get2 (Grid.cells g) (x, y) with
            | Some ty =>
                if decide (ty = Path \/ ty = Visited \/ ty = Target)
                then Grid.resetCell g (x, y) else g
            | None => g
            end in
  Grid.worldWidth g' = Grid.worldWidth g /\
  Grid.worldHeight g' = Grid.worldHeight g /\
  forall q, Grid.getCell g' q
            = if decide (q = (x, y)) then cleared <$> Grid.getCell g q
              else Grid.getCell g q.
Proof.
  intros Hx Hy.
  assert (Hget : Grid.getCell g (x, y) = get2 (Grid.cells g) (x, y)).
  { unfold Grid.getCell.
    replace (Grid.isWithinWorldBounds g (x, y)) with true; [done|].
    symmetry. apply bounds_spec. unfold px, py. simpl. lia. }
  destruct (get2 (Grid.cells g) (x, y)) as [ty|] eqn:E; simpl.
  - case_decide as Hty.
    + repeat split; try done. intros q. unfold Grid.resetCell.
      rewrite getCell_setType by (rewrite Hget; eauto).
      case_decide; [|done]. subst q. rewrite Hget. simpl.
      unfold cleared. by rewrite decide_True.
    + repeat split; try done. intros q. case_decide; [|done]. subst q.
      rewrite Hget. simpl. unfold cleared. by rewrite decide_False.
  - repeat split; try done. intros q. case_decide; [|done]. subst q.
    by rewrite Hget.
Qed.

Lemma resetPath_getCell (g : Grid.t) (q : Position) :
  Grid.getCell (Grid.resetPath g) q = cleared <$> Grid.getCell g q.
Proof.
  unfold Grid.resetPath.
  apply (cells_loop (fun g => g)
           (fun x y g => match get2 (Grid.cells g) (x, y) with
                         | Some ty =>
                             if decide (ty = Path \/ ty = Visited \/ ty = Target)
                             then Grid.resetCell g (x, y) else g
                         | None => g
                         end) (fun _ => cleared)).
  intros x y s Hx Hy. by apply resetPath_body.
Qed.

(** The claim of C6 fails: a [QueuedTarget] and a [PlayerTrail] cell
    keep their tags through [resetPath]. *)
Lemma resetPath_keeps_queued_and_trail :
  let g := Grid.mk 2 1 [[QueuedTarget; PlayerTrail]] in
  Grid.getCell (Grid.resetPath g) (0, 0) = Some QueuedTarget /\
  Grid.getCell (Grid.resetPath g) (1, 0) = Some PlayerTrail.
Proof. split; reflexivity. Qed.

(** C6, amended. [resetPath] sets every cell tagged [Path], [Visited]
    or [Target] to [Empty] and leaves every other cell ([Empty], [Wall],
    [Player], and also [QueuedTarget] and [PlayerTrail]) as it is; after
    it no cell is tagged [Path], [Visited] or [Target]. *)
Theorem resetPath_spec (g : Grid.t) (p : Position) (ty : CellType) :
  Grid.getCell g p = Some ty ->
  (ty = Path \/ ty = Visited \/ ty = Target ->
     Grid.getCell (Grid.resetPath g) p = Some Empty) /\
  (ty <> Path -> ty <> Visited -> ty <> Target ->
     Grid.getCell (Grid.resetPath g) p = Some ty) /\
  Grid.getCell (Grid.resetPath g) p <> Some Path /\
  Grid.getCell (Grid.resetPath g) p <> Some Visited /\
  Grid.getCell (Grid.resetPath g) p <> Some Target.
Proof.
  intros H. rewrite resetPath_getCell, H. simpl. unfold cleared.
  repeat split; intros; case_decide; try done; intuition congruence.
Qed.

Lemma resetPath_spec_witness :
  let g := Grid.mk 3 1 [[Visited; Wall; QueuedTarget]] in
  Grid.getCell (Grid.resetPath g) (0, 0) = Some Empty /\
  Grid.getCell (Grid.resetPath g) (1, 0) = Some Wall /\
  Grid.getCell (Grid.resetPath g) (2, 0) = Some QueuedTarget.
Proof.
  intros g.
  pose proof (resetPath_spec g (0, 0) Visited eq_refl) as (H0 & _).
  pose proof (resetPath_spec g (1, 0) Wall eq_refl) as (_ & H1 & _).
  pose proof (resetPath_spec g (2, 0) QueuedTarget eq_refl) as (_ & H2 & _).
  split; [|split].
  - apply H0. tauto.
  - by apply H1.
  - by apply H2.
Defined.

End GridFacts.

(** ** The movement queue *)

Module AppFacts.
Import App.

(** A click that is taken as a destination: on a cell of the world that
    is neither a wall nor the player. *)
Definition clickable (g : Grid.t) (p : Position) : Prop :=
  exists ty, Grid.getCell g p = Some ty /\ ty <> Wall /\ ty <> Player.

Lemma click_queued (p : Position) (a : t) :
  isRandomMode a = false -> isMoving a = true -> clickable (grid a) p ->
  exists a', handleGridClick p a = (a', false) /\
    movementQueue a' = movementQueue a ++ [p] /\
    isRandomMode a' = false /\ isMoving a' = true /\
    currentTask a' = currentTask a /\
    (forall q, Grid.getCell (grid a') q
               = if decide (q = p) then Some QueuedTarget
                 else Grid.getCell (grid a) q).
Proof.
  intros Hr Hm (ty & Hty & Hw & Hp). unfold handleGridClick.
  rewrite Hr, Hty, decide_True by done. rewrite Hm. simpl.
  eexists. split; [done|]. simpl. repeat split; try done.
  intros q. apply getCell_setType. eauto.
Qed.

Lemma clickable_after_click (g g' : Grid.t) (p q : Position) :
  clickable g q ->
  (forall r, Grid.getCell g' r
             = if decide (r = p) then Some QueuedTarget else Grid.getCell g r) ->
  clickable g' q.
Proof.
  intros (ty & Hty & Hw & Hp) Hg. unfold clickable. rewrite Hg.
  case_decide; [by eexists|]. eauto.
Qed.

(** C9. With a navigation in progress (so that no clicked destination
    is started) and an empty queue, clicking the destinations [p1],
    [p2], [p3] leaves the queue [p1; p2; p3] with the cell at [p2] tagged
    [QueuedTarget]; removing index 1 then leaves [p1; p3] and the cell at
    [p2] is [Empty].  Removing at an index outside the queue changes
    nothing. *)
Theorem queue_integrity (a : t) (p1 p2 p3 : Position) :
  isRandomMode a = false -> isMoving a = true -> movementQueue a = [] ->
  clickable (grid a) p1 -> clickable (grid a) p2 -> clickable (grid a) p3 ->
  let a3 := (handleGridClick p3 (handleGridClick p2 (handleGridClick p1 a).1).1).1 in
  movementQueue a3 = [p1; p2; p3] /\
  currentTask a3 = currentTask a /\
  Grid.getCell (grid a3) p2 = Some QueuedTarget /\
  movementQueue (removeTaskFromQueue 1 a3) = [p1; p3] /\
  Grid.getCell (grid (removeTaskFromQueue 1 a3)) p2 = Some Empty /\
  (forall (b : t) (index : Z),
      ~ (0 <= index < Z.of_nat (length (movementQueue b))) ->
      removeTaskFromQueue index b = b).
Proof.
  intros Hr Hm Hq H1 H2 H3.
  destruct (click_queued p1 a Hr Hm H1) as (a1 & E1 & Q1 & R1 & M1 & T1 & G1).
  rewrite E1. simpl.
  assert (H2' : clickable (grid a1) p2) by eauto using clickable_after_click.
  assert (H3' : clickable (grid a1) p3) by eauto using clickable_after_click.
  destruct (click_queued p2 a1 R1 M1 H2') as (a2 & E2 & Q2 & R2 & M2 & T2 & G2).
  rewrite E2. simpl.
  assert (H3'' : clickable (grid a2) p3) by eauto using clickable_after_click.
  destruct (click_queued p3 a2 R2 M2 H3'') as (a3 & E3 & Q3 & R3 & M3 & T3 & G3).
  rewrite E3. simpl.
  assert (HQ : movementQueue a3 = [p1; p2; p3]).
  { rewrite Q3, Q2, Q1, Hq. done. }
  assert (HG : Grid.getCell (grid a3) p2 = Some QueuedTarget).
  { rewrite G3. case_decide; [done|]. rewrite G2. by rewrite decide_True. }
  split; [done|]. split; [congruence|]. split; [done|].
  unfold removeTaskFromQueue. rewrite HQ. simpl. rewrite HG.
  split; [done|]. split.
  - unfold Grid.resetCell. rewrite getCell_setType by (rewrite HG; eauto).
    by rewrite decide_True.
  - intros b index Hout.
    destruct ((0 <=? index) && (index <? Z.of_nat (length (movementQueue b)))) eqn:E;
      [lia|done].
Qed.

Lemma queue_integrity_witness :
  let a := {| grid := Grid.mk 3 1 [[Empty; Empty; Empty]];
              currentTask := Some (1, 0); movementQueue := [];
              isRandomMode := false; isMoving := true |} in
  let a3 := (handleGridClick (2, 0)
               (handleGridClick (1, 0) (handleGridClick (0, 0) a).1).1).1 in
  movementQueue (removeTaskFromQueue 1 a3) = [(0, 0); (2, 0)] /\
  Grid.getCell (grid (removeTaskFromQueue 1 a3)) (1, 0) = Some Empty.
Proof.
  intros a a3.
  assert (Hc : forall p, Grid.getCell (grid a) p = Some Empty ->
               clickable (grid a) p).
  { intros p Hp. exists Empty. by repeat split. }
  pose proof (queue_integrity a (0, 0) (1, 0) (2, 0) eq_refl eq_refl eq_refl
                (Hc (0, 0) eq_refl) (Hc (1, 0) eq_refl) (Hc (2, 0) eq_refl))
    as (_ & _ & _ & HQ & HG & _).
  split; [exact HQ|exact HG].
Defined.

End AppFacts.

(** ** Paths on the grid *)

(** [q] is one axis-aligned unit step from [p]. *)
Definition step (p q : Position) : Prop :=
  (px q = px p /\ (py q = py p - 1 \/ py q = py p + 1)) \/
  (py q = py p /\ (px q = px p - 1 \/ px q = px p + 1)).

(** A cell of the world that is not a wall. *)
Definition walkable (g : Grid.t) (p : Position) : Prop :=
  exists ty, Grid.getCell g p = Some ty /\ ty <> Wall.

(** Consecutive positions are one step apart. *)
Fixpoint stepwise (l : list Position) : Prop :=
  match l with
  | [] => True
  | p :: l' =>
      match l' with
      | [] => True
      | q :: _ => step p q /\ stepwise l'
      end
  end.

(** A path of the 4-connected walkable graph from [a] to [b]. *)
Definition walk (g : Grid.t) (a b : Position) (l : list Position) : Prop :=
  head l = Some a /\ last l = Some b /\ stepwise l /\ Forall (walkable g) l.

Lemma step_sym p q : step p q -> step q p.
Proof. unfold step. lia. Qed.

Lemma step_heuristic p q e :
  step p q -> PathFinder.heuristic p e <= 1 + PathFinder.heuristic q e.
Proof. unfold step, PathFinder.heuristic. lia. Qed.

Lemma stepwise_app_one (l : list Position) (p q : Position) :
  stepwise l -> last l = Some p -> step p q -> stepwise (l ++ [q]).
Proof.
  induction l as [|a l IH]; [done|].
  intros Hs Hl Hpq. destruct l as [|b l].
  - simpl in *. injection Hl as ->. done.
  - destruct Hs as [Hab Hs]. split; [done|]. apply IH; done.
Qed.

Lemma stepwise_heuristic (l : list Position) (a b : Position) :
  stepwise l -> head l = Some a -> last l = Some b ->
  PathFinder.heuristic a b + 1 <= Z.of_nat (length l).
Proof.
  revert a. induction l as [|p l IH]; intros a Hs Hh Hl; [done|].
  injection Hh as ->. destruct l as [|q l].
  - injection Hl as ->. unfold PathFinder.heuristic. simpl. lia.
  - destruct Hs as [Hpq Hs].
    specialize (IH q Hs eq_refl Hl).
    pose proof (step_heuristic a q b Hpq).
    change (length (a :: q :: l)) with (Datatypes.S (length (q :: l))). lia.
Qed.

Section Neighbours.
Implicit Types (g : Grid.t) (p q : Position).

Lemma walkable_isWalkable g q :
  walkable g q <->
  exists ty, Grid.getCell g q = Some ty /\ Cell.isWalkable ty = true.
Proof.
  unfold walkable, Cell.isWalkable.
  split; intros (ty & H & Hw); exists ty; (split; [done|]); by case_decide.
Qed.

(** The contribution of one direction to [getNeighbors]. *)
Definition candidate g q : list Position :=
  match Grid.getCell g q with
  | Some ty => if Cell.isWalkable ty then [q] else []
  | None => []
  end.

Lemma elem_of_candidate g q q' : q ∈ candidate g q' <-> q = q' /\ walkable g q.
Proof.
  rewrite walkable_isWalkable. unfold candidate. split.
  - destruct (Grid.getCell g q') as [ty|] eqn:E; [|by intros ?%elem_of_nil].
    destruct (Cell.isWalkable ty) eqn:W; [|by intros ?%elem_of_nil].
    intros ->%list_elem_of_singleton. eauto.
  - intros [-> (ty & -> & ->)]. by apply list_elem_of_singleton.
Qed.

Lemma getNeighbors_candidates g p :
  Grid.getNeighbors g p
  = candidate g (px p, py p - 1) ++ candidate g (px p + 1, py p)
    ++ candidate g (px p, py p + 1) ++ candidate g (px p - 1, py p).
Proof.
  assert (Hone : forall acc q,
             match Grid.getCell g q with
             | Some ty => if Cell.isWalkable ty then acc ++ [q] else acc
             | None => acc
             end = acc ++ candidate g q).
  { intros acc q. unfold candidate. destruct (Grid.getCell g q) as [ty|];
      [destruct (Cell.isWalkable ty)|]; by rewrite ?app_nil_r. }
  unfold Grid.getNeighbors, Grid.directions. simpl. unfold px at 2 4 6 8, py at 2 4 6 8.
  simpl. rewrite !Hone. rewrite !Z.add_0_r. simpl.
  replace (py p + -1) with (py p - 1) by lia.
  replace (px p + -1) with (px p - 1) by lia.
  by rewrite <- !app_assoc.
Qed.

Lemma getNeighbors_spec g p q :
  q ∈ Grid.getNeighbors g p <-> step p q /\ walkable g q.
Proof.
  rewrite getNeighbors_candidates, !elem_of_app, !elem_of_candidate.
  unfold step. destruct p as [x y], q as [a b]. unfold px, py. simpl.
  split.
  - intros [[H W]|[[H W]|[[H W]|[H W]]]]; injection H as -> ->; (split; [lia|done]).
  - intros [Hst W].
    destruct Hst as [[-> [-> | ->]] | [-> [-> | ->]]]; auto 6.
Qed.

End Neighbours.

(** ** The search *)

Module PathFinderFacts.
Import PathFinder.

#[local] Arguments lowestIndex : simpl never.
#[local] Arguments markVisited : simpl never.
#[local] Arguments relax : simpl never.
#[local] Arguments reconstructPath : simpl never.
#[local] Arguments Grid.getNeighbors : simpl never.

Section Search.
(** The world as the search finds it, and the two ends. *)
Variables (g0 : Grid.t) (start end_ : Position).

(** [reach k p]: [p] is [k] steps from the start, every position after the
    start being walkable (the start's own cell is never examined). *)
Inductive reach : Z -> Position -> Prop :=
| reach_start : reach 0 start
| reach_step k p q : reach k p -> step p q -> walkable g0 q -> reach (k + 1) q.

Lemma reach_nonneg k p : reach k p -> 0 <= k.
Proof. induction 1; lia. Qed.

(** The positions from the start to a node, along the parent links. *)
Fixpoint chain (n : CellNode) : list Position :=
  match n with
  | mkNode pos _ _ _ par =>
      match par with
      | None => [pos]
      | Some m => chain m ++ [pos]
      end
  end.

(** A node whose parent links lead back to the start, one walkable step
    and one unit of cost at a time. *)
Fixpoint nodeOk (n : CellNode) : Prop :=
  match n with
  | mkNode pos _ gn _ par =>
      match par with
      | None => pos = start /\ gn = 0
      | Some m => step (position m) pos /\ walkable g0 pos
                  /\ gn = g m + 1 /\ nodeOk m
      end
  end.

Lemma unshiftParents_chain n : forall acc, unshiftParents n acc = chain n ++ acc.
Proof.
  revert n. fix IH 1. intros [pos fn gn hn [m|]] acc; simpl.
  - rewrite IH. by rewrite <- app_assoc.
  - done.
Qed.

Lemma reconstructPath_chain n : reconstructPath n = chain n.
Proof. unfold reconstructPath. by rewrite unshiftParents_chain, app_nil_r. Qed.

Lemma chain_last n : last (chain n) = Some (position n).
Proof. destruct n as [pos fn gn hn [m|]]; simpl; [apply last_snoc|done]. Qed.

Lemma nodeOk_chain n :
  nodeOk n ->
  head (chain n) = Some start /\ stepwise (chain n)
  /\ Z.of_nat (length (chain n)) = g n + 1
  /\ reach (g n) (position n).
Proof.
  revert n. fix IH 1. intros [pos fn gn hn [m|]]; simpl.
  - intros (Hst & Hw & -> & Hm). destruct (IH m Hm) as (Hh & Hs & Hl & Hr).
    repeat split.
    + destruct (chain m); [done|]. simpl in *. done.
    + eapply stepwise_app_one; [done|apply chain_last|done].
    + rewrite length_app. simpl. lia.
    + by eapply reach_step.
  - intros [-> ->]. repeat split; constructor.
Qed.

Lemma nodeOk_position n : nodeOk n -> position n = start \/ walkable g0 (position n).
Proof. destruct n as [pos fn gn hn [m|]]; simpl; [tauto|]. intros [-> _]. by left. Qed.

(** *** Selecting the node with the lowest [f] *)

Lemma lowestFrom_spec (pre suf : list CellNode) (cur : nat) (c : CellNode) :
  (pre ++ suf) !! cur = Some c ->
  (forall m, m ∈ pre -> f c <= f m) ->
  exists n, (pre ++ suf) !! lowestFrom suf (length pre) cur (f c) = Some n
            /\ forall m, m ∈ pre ++ suf -> f n <= f m.
Proof.
  revert pre cur c. induction suf as [|a suf IH]; intros pre cur c Hc Hpre.
  - simpl. exists c. split; [done|]. intros m. rewrite app_nil_r. auto.
  - simpl. replace (pre ++ a :: suf) with ((pre ++ [a]) ++ suf) in *
      by (by rewrite <- app_assoc).
    replace (Datatypes.S (length pre)) with (length (pre ++ [a]))
      by (rewrite length_app; simpl; lia).
    destruct (f a <? f c) eqn:E.
    + apply IH.
      * rewrite lookup_app_l by (rewrite length_app; simpl; lia).
        rewrite lookup_app_r by lia. by rewrite Nat.sub_diag.
      * intros m [Hm| ->%list_elem_of_singleton]%elem_of_app; [|lia].
        specialize (Hpre m Hm). lia.
    + apply IH; [done|].
      intros m [Hm| ->%list_elem_of_singleton]%elem_of_app; [auto|lia].
Qed.

Lemma lowestIndex_spec (openList : list CellNode) :
  openList <> [] ->
  exists n, openList !! lowestIndex openList = Some n
            /\ forall m, m ∈ openList -> f n <= f m.
Proof.
  destruct openList as [|a l]; [done|]. intros _. unfold lowestIndex.
  apply (lowestFrom_spec [] (a :: l) 0 a); [done|].
  intros m Hm. by apply elem_of_nil in Hm.
Qed.

(** *** Finding a node of the open list by position *)

Lemma find_Some (l : list CellNode) (pos : Position) i m :
  find l pos = Some (i, m) -> l !! i = Some m /\ position m = pos.
Proof.
  revert i. induction l as [|a l IH]; intros i; [done|]. simpl.
  case_decide as Ha.
  - by intros [= <- <-].
  - destruct (find l pos) as [[j m']|]; [|done]. simpl.
    intros [= <- <-]. by apply IH.
Qed.

Lemma find_None (l : list CellNode) (pos : Position) :
  find l pos = None -> forall m, m ∈ l -> position m <> pos.
Proof.
  induction l as [|a l IH]; [by intros _ m ?%elem_of_nil|]. simpl.
  case_decide as Ha; [done|].
  destruct (find l pos) as [[j m']|]; [done|]. intros _ m.
  intros [->|Hm]%elem_of_cons; auto.
Qed.

(** *** The open list *)

(** A node at [q] with cost at most [b] is in the list. *)
Definition covered (l : list CellNode) (q : Position) (b : Z) : Prop :=
  exists m, m ∈ l /\ position m = q /\ g m <= b.

(** [f = g + h], but for the start node, which is created with [f = 0]. *)
Definition fOk (n : CellNode) : Prop :=
  f n = g n + heuristic (position n) end_ \/ (g n = 0 /\ f n = 0).

(** An open list next to a closed list [closed]. *)
Record OpenOk (closed : ClosedList) (l : list CellNode) : Prop := {
  open_nodes : forall m, m ∈ l -> nodeOk m /\ fOk m;
  open_nodup : NoDup (position <$> l);
  open_fresh : forall m, m ∈ l -> position m ∉ closed
}.

Lemma covered_mono_bound l q b b' : b <= b' -> covered l q b -> covered l q b'.
Proof. intros Hb (m & Hm & Hp & Hg). exists m. repeat split; [done|done|lia]. Qed.

Lemma relax_spec (closed : ClosedList) (n : CellNode) (l : list CellNode)
    (q : Position) :
  nodeOk n -> step (position n) q -> walkable g0 q -> OpenOk closed l ->
  let l' := relax end_ closed n l q in
  OpenOk closed l'
  /\ (q ∈ closed \/ covered l' q (g n + 1))
  /\ (forall q' b, covered l q' b -> covered l' q' b).
Proof.
  intros Hn Hst Hw [Hnodes Hnd Hfresh]. unfold relax.
  assert (Hl : OpenOk closed l) by (by constructor).
  case_decide as Hc; [by split; [|split; [left|]]|].
  destruct (find l q) as [[i m]|] eqn:Ef.
  - apply find_Some in Ef as [Hi Hpos].
    destruct (g m <=? g n + 1) eqn:Hg.
    + split; [done|]. split; [|done]. right. exists m.
      repeat split; [by eapply list_elem_of_lookup_2|done|lia].
    + set (m' := {| position := position m; f := g n + 1 + heuristic q end_;
                    g := g n + 1; h := h m; parent := Some n |}).
      assert (Hin : forall x, x ∈ <[i := m']> l -> x = m' \/ x ∈ l).
      { intros x [j Hj]%list_elem_of_lookup_1.
        destruct (decide (i = j)) as [->|Hij].
        - rewrite list_lookup_insert_eq in Hj by (by eapply lookup_lt_Some).
          left. congruence.
        - rewrite list_lookup_insert_ne in Hj by done.
          right. by eapply list_elem_of_lookup_2. }
      assert (Hm' : m' ∈ <[i := m']> l).
      { apply list_elem_of_insert. by eapply lookup_lt_Some. }
      split; [constructor|split].
      * intros x [->|Hx]%Hin; [|by apply Hnodes]. split.
        -- simpl. rewrite Hpos. done.
        -- left. simpl. by rewrite Hpos.
      * rewrite list_fmap_insert. simpl. rewrite list_insert_id; [done|].
        by rewrite list_lookup_fmap, Hi.
      * intros x [->|Hx]%Hin; [|by apply Hfresh]. simpl. by rewrite Hpos.
      * right. exists m'. repeat split; [done|done|simpl; lia].
      * intros q' b (x & [j Hj]%list_elem_of_lookup_1 & Hxp & Hxg).
        destruct (decide (i = j)) as [->|Hij].
        -- exists m'. assert (x = m) by congruence. subst x.
           repeat split; [done|done|simpl; lia].
        -- exists x. repeat split; [|done|done].
           eapply list_elem_of_lookup_2. by rewrite list_lookup_insert_ne.
  - pose proof (find_None _ _ Ef) as Hnone.
    set (m' := {| position := q; f := g n + 1 + heuristic q end_;
                  g := g n + 1; h := heuristic q end_; parent := Some n |}).
    split; [constructor|split].
    + intros x [Hx| ->%list_elem_of_singleton]%elem_of_app; [by apply Hnodes|].
      split; [done|by left].
    + rewrite fmap_app. apply NoDup_app. repeat split; [done| |apply NoDup_singleton].
      intros p (x & Hp & Hx)%list_elem_of_fmap Hq%list_elem_of_singleton.
      apply (Hnone x Hx). simpl in Hq. congruence.
    + intros x [Hx| ->%list_elem_of_singleton]%elem_of_app; [by apply Hfresh|done].
    + right. exists m'. repeat split; [|simpl; lia].
      apply elem_of_app. right. by apply list_elem_of_singleton.
    + intros q' b (x & Hx & Hxp & Hxg). exists x.
      repeat split; [|done|done]. apply elem_of_app. by left.
Qed.

Lemma relax_all (closed : ClosedList) (n : CellNode) (ns : list Position) :
  nodeOk n ->
  (forall q, q ∈ ns -> step (position n) q /\ walkable g0 q) ->
  forall l, OpenOk closed l ->
  let l' := foldl (relax end_ closed n) l ns in
  OpenOk closed l'
  /\ (forall q, q ∈ ns -> q ∈ closed \/ covered l' q (g n + 1))
  /\ (forall q' b, covered l q' b -> covered l' q' b).
Proof.
  intros Hn. induction ns as [|q ns IH]; intros Hns l Hl; cbv zeta in *.
  - simpl. split; [done|]. split; [|done]. by intros q ?%elem_of_nil.
  - simpl.
    destruct (Hns q) as [Hst Hw]; [by left|].
    destruct (relax_spec closed n l q Hn Hst Hw Hl) as (Hl1 & Hq1 & Hmono1).
    destruct (IH (fun q' Hq' => Hns q' (list_elem_of_further _ _ _ Hq'))
                 _ Hl1) as (Hl2 & Hq2 & Hmono2).
    split; [done|]. split; [|by auto].
    intros q' [->|Hq']%elem_of_cons; [|by auto].
    destruct Hq1 as [?|Hcov]; [by left|]. right. by apply Hmono2.
Qed.

(** *** The visualisation step *)

Lemma markVisited_cases (grid : Grid.t) (pos p : Position) :
  Grid.getCell (markVisited grid start end_ pos) p = Grid.getCell grid p
  \/ (p = pos /\ pos <> start /\
      Grid.getCell (markVisited grid start end_ pos) p = Some Visited /\
      exists ty, Grid.getCell grid p = Some ty /\ ty <> Player /\ ty <> Target).
Proof.
  unfold markVisited. repeat case_decide; auto.
  destruct (Grid.getCell grid pos) as [ty|] eqn:E; auto.
  repeat case_decide; auto.
  rewrite getCell_setType by (rewrite E; eauto).
  case_decide as Hp; auto. subst p. right. repeat split; eauto.
Qed.

Lemma markVisited_dims (grid : Grid.t) (pos : Position) :
  Grid.worldWidth (markVisited grid start end_ pos) = Grid.worldWidth grid /\
  Grid.worldHeight (markVisited grid start end_ pos) = Grid.worldHeight grid.
Proof.
  unfold markVisited. repeat case_decide; auto.
  destruct (Grid.getCell grid pos) as [ty|]; auto. repeat case_decide; auto.
Qed.

Lemma markVisited_walkable (grid : Grid.t) (pos p : Position) :
  pos = start \/ walkable grid pos ->
  walkable (markVisited grid start end_ pos) p <-> walkable grid p.
Proof.
  intros Hpos. unfold walkable.
  destruct (markVisited_cases grid pos p) as [->|(-> & Hne & -> & ty & Hty & _)];
    [done|].
  destruct Hpos as [?|Hw]; [done|]. split; [by intros _|].
  intros _. by exists Visited.
Qed.

(** *** The invariant of the loop *)

Record Inv (grid : Grid.t) (openList : list CellNode) (closed : ClosedList)
    : Prop := {
  inv_walkable : forall p, walkable grid p <-> walkable g0 p;
  inv_open : OpenOk closed openList;
  inv_end : end_ ∉ closed;
  inv_start : start ∈ closed \/ covered openList start 0;
  inv_closed : forall p k q,
    p ∈ closed -> reach k p -> step p q -> walkable g0 q ->
    q ∈ closed \/ covered openList q (k + 1);
  inv_bound : forall p, p ∈ closed -> p = start \/ walkable g0 p
}.

Lemma Inv_init :
  Inv g0 [{| position := start; f := 0; g := 0; h := heuristic start end_;
             parent := None |}] ∅.
Proof.
  split.
  - done.
  - split.
    + intros m ->%list_elem_of_singleton. split; [done|]. right. done.
    + apply NoDup_singleton.
    + intros m _. set_solver.
  - set_solver.
  - right. eexists. split; [by apply list_elem_of_singleton|]. done.
  - set_solver.
  - set_solver.
Qed.

(** Along a path from the start, either every position is closed, or some
    position of the path is in the open list with a cost that does not
    exceed its index; [j + h] of that position bounds nothing above
    [k + h] of the end of the path. *)
Lemma frontier grid openList closed k p :
  Inv grid openList closed -> reach k p ->
  p ∈ closed \/
  exists j q, covered openList q j
              /\ j + heuristic q end_ <= k + heuristic p end_.
Proof.
  intros HI. induction 1 as [|k p q Hr IH Hst Hw].
  - destruct (inv_start _ _ _ HI) as [?|Hc]; [by left|].
    right. exists 0, start. split; [done|lia].
  - destruct IH as [Hp|(j & q' & Hc & Hj)].
    + destruct (inv_closed _ _ _ HI p k q Hp Hr Hst Hw) as [?|Hc]; [by left|].
      right. exists (k + 1), q. split; [done|lia].
    + right. exists j, q'. split; [done|].
      pose proof (step_heuristic p q end_ Hst). lia.
Qed.

(** The node taken from the open list has the least cost of any path to
    its position. *)
Lemma lowest_optimal grid openList closed n k :
  Inv grid openList closed -> n ∈ openList ->
  (forall m, m ∈ openList -> f n <= f m) ->
  reach k (position n) -> g n <= k.
Proof.
  intros HI Hn Hmin Hr.
  pose proof (reach_nonneg _ _ Hr) as Hk.
  destruct (open_nodes _ _ (inv_open _ _ _ HI) n Hn) as [_ Hfn].
  destruct (frontier _ _ _ _ _ HI Hr) as [Hc|(j & q & (m & Hm & Hmp & Hmg) & Hj)].
  - by apply (open_fresh _ _ (inv_open _ _ _ HI)) in Hn.
  - destruct (open_nodes _ _ (inv_open _ _ _ HI) m Hm) as [_ Hfm].
    specialize (Hmin m Hm).
    assert (0 <= heuristic (position m) end_) by (unfold heuristic; lia).
    subst q. destruct Hfn as [Hfn|[Hfn _]], Hfm as [Hfm|[Hfm1 Hfm2]]; lia.
Qed.

Lemma delete_split (l : list CellNode) (i : nat) (n : CellNode) :
  l !! i = Some n -> NoDup (position <$> l) ->
  NoDup (position <$> delete i l)
  /\ (forall m, m ∈ delete i l -> m ∈ l /\ position m <> position n)
  /\ (forall m, m ∈ l -> m = n \/ m ∈ delete i l).
Proof.
  intros Hi Hnd. pose proof (delete_Permutation l i n Hi) as Hp.
  assert (Hnd' : NoDup (position n :: (position <$> delete i l))).
  { change (NoDup (position <$> n :: delete i l)).
    by rewrite <- Hp. }
  apply NoDup_cons in Hnd' as [Hnotin Hnd'].
  split; [done|]. split.
  - intros m Hm. split; [by eapply list_elem_of_delete_inv|].
    intros Heq. apply Hnotin. rewrite <- Heq. by apply list_elem_of_fmap_2.
  - intros m Hm. rewrite Hp in Hm. by apply elem_of_cons in Hm.
Qed.

(** One iteration that does not return keeps the invariant and closes a
    new position. *)
Lemma Inv_step grid openList closed i n :
  Inv grid openList closed -> openList !! i = Some n ->
  (forall m, m ∈ openList -> f n <= f m) -> position n <> end_ ->
  let closed1 := {[position n]} ∪ closed in
  let grid1 := markVisited grid start end_ (position n) in
  (position n ∉ closed) /\
  Inv grid1
      (foldl (relax end_ closed1 n) (delete i openList)
             (Grid.getNeighbors grid1 (position n)))
      closed1.
Proof.
  intros HI Hi Hmin Hne closed1 grid1.
  pose proof (inv_open _ _ _ HI) as [Hnodes Hnd Hfresh].
  assert (Hn : n ∈ openList) by (by eapply list_elem_of_lookup_2).
  destruct (Hnodes n Hn) as [HnOk _].
  destruct (delete_split openList i n Hi Hnd) as (Hnd1 & Hdel & Hsplit).
  assert (Hwalk1 : forall p, walkable grid1 p <-> walkable g0 p).
  { intros p. unfold grid1. rewrite markVisited_walkable.
    - apply (inv_walkable _ _ _ HI).
    - destruct (nodeOk_position n HnOk) as [?|Hw]; [by left|].
      right. by apply (inv_walkable _ _ _ HI). }
  assert (Hopen1 : OpenOk closed1 (delete i openList)).
  { split; [|done|].
    - intros m [Hm _]%Hdel. by apply Hnodes.
    - intros m [Hm Hpos]%Hdel. specialize (Hfresh m Hm). set_solver. }
  assert (Hns : forall q, q ∈ Grid.getNeighbors grid1 (position n) ->
                step (position n) q /\ walkable g0 q).
  { intros q [Hst Hw]%getNeighbors_spec. split; [done|]. by apply Hwalk1. }
  destruct (relax_all closed1 n _ HnOk Hns _ Hopen1) as (Hopen2 & Hcov & Hmono).
  (** a node covered before is closed or covered afterwards *)
  assert (Hkeep : forall q b, covered openList q b ->
            q ∈ closed1 \/
            covered (foldl (relax end_ closed1 n) (delete i openList)
                           (Grid.getNeighbors grid1 (position n))) q b).
  { intros q b (m & Hm & Hmp & Hmg).
    destruct (Hsplit m Hm) as [->|Hm'].
    - left. set_solver.
    - right. apply Hmono. by exists m. }
  split; [by apply Hfresh|]. split.
  - done.
  - done.
  - pose proof (inv_end _ _ _ HI). set_solver.
  - destruct (inv_start _ _ _ HI) as [?|Hc]; [left; set_solver|].
    by apply Hkeep.
  - intros p k q Hp Hr Hst Hw.
    apply elem_of_union in Hp as [->%elem_of_singleton|Hp].
    + pose proof (lowest_optimal _ _ _ _ _ HI Hn Hmin Hr) as Hg.
      destruct (Hcov q) as [?|Hc]; [|by left|].
      * apply getNeighbors_spec. split; [done|]. by apply Hwalk1.
      * right. eapply covered_mono_bound; [|done]. lia.
    + destruct (inv_closed _ _ _ HI p k q Hp Hr Hst Hw) as [?|Hc];
        [left; set_solver|].
      by apply Hkeep.
  - intros p [->%elem_of_singleton|Hp]%elem_of_union.
    + by apply nodeOk_position.
    + by apply (inv_bound _ _ _ HI).
Qed.

(** *** Termination *)

(** Every position of the world. *)
Definition allCells : list Position :=
  list_prod (seqZ 0 (Grid.worldWidth g0)) (seqZ 0 (Grid.worldHeight g0)).

Lemma walkable_allCells p : walkable g0 p -> p ∈ allCells.
Proof.
  intros (ty & Hty & _). apply getCell_bounds in Hty.
  apply list_elem_of_In. destruct p as [x y]. unfold px, py in *. simpl in *.
  apply in_prod; apply list_elem_of_In, elem_of_seqZ; lia.
Qed.

Lemma length_allCells :
  length allCells
  = (Z.to_nat (Grid.worldWidth g0) * Z.to_nat (Grid.worldHeight g0))%nat.
Proof. unfold allCells. etrans; [apply length_prod|]. by rewrite !length_seqZ. Qed.

Lemma size_list_to_set_le (l : list Position) :
  (size (list_to_set (C:=gset Position) l) <= length l)%nat.
Proof.
  induction l as [|x l IH].
  - by rewrite list_to_set_nil, size_empty.
  - rewrite list_to_set_cons, size_union_alt, size_singleton. simpl.
    assert (Hs : list_to_set (C:=gset Position) l ∖ {[x]} ⊆ list_to_set l)
      by set_solver.
    apply subseteq_size in Hs. lia.
Qed.

Lemma closed_size grid openList closed :
  Inv grid openList closed ->
  (size closed <= Datatypes.S (length allCells))%nat.
Proof.
  intros HI. unfold ClosedList in closed, HI.
  assert (Hsub : closed ⊆ {[start]} ∪ list_to_set allCells).
  { intros p Hp. destruct (inv_bound _ _ _ HI p Hp) as [->|Hw]; [set_solver|].
    apply elem_of_union. right. apply elem_of_list_to_set.
    by apply walkable_allCells. }
  apply subseteq_size in Hsub.
  pose proof (size_list_to_set_le allCells).
  rewrite size_union_alt, size_singleton in Hsub.
  assert (Hs : list_to_set (C:=gset Position) allCells ∖ {[start]}
               ⊆ list_to_set allCells) by set_solver.
  apply subseteq_size in Hs.
  eapply Nat.le_trans; [exact Hsub|]. apply le_n_S.
  eapply Nat.le_trans; [exact Hs|exact H].
Qed.

(** *** The loop *)

(** What the loop ends in, from any state that satisfies the invariant:
    a path along the parent links of a node at the end, the cheapest
    there is; [null] only when the end cannot be reached; and no answer
    only when the fuel is less than the number of positions that are not
    closed yet. *)
Lemma search_spec (fuel : nat) :
  forall grid openList closed,
    Inv grid openList closed ->
    match (search fuel start end_ grid openList closed).2 with
    | Found path =>
        exists n, nodeOk n /\ position n = end_ /\ path = chain n
                  /\ forall k, reach k end_ -> g n <= k
    | Null => forall k, ~ reach k end_
    | Running => (fuel + size closed <= Datatypes.S (length allCells))%nat
    end.
Proof.
  induction fuel as [|fuel IH]; intros grid openList closed HI.
  - destruct openList as [|a l]; simpl.
    + intros k Hr. destruct (frontier _ _ _ _ _ HI Hr) as [Hc|(j & q & Hc & _)].
      * by apply (inv_end _ _ _ HI).
      * destruct Hc as (m & Hm & _). by apply elem_of_nil in Hm.
    + by eapply closed_size.
  - destruct openList as [|a l] eqn:El.
    + simpl. intros k Hr.
      destruct (frontier _ _ _ _ _ HI Hr) as [Hc|(j & q & Hc & _)].
      * by apply (inv_end _ _ _ HI).
      * destruct Hc as (m & Hm & _). by apply elem_of_nil in Hm.
    + rewrite <- El in *. assert (Hne : openList <> []) by (by rewrite El).
      destruct (lowestIndex_spec openList Hne) as (n & Hi & Hmin).
      assert (Hn : n ∈ openList) by (by eapply list_elem_of_lookup_2).
      replace (search (Datatypes.S fuel) start end_ grid openList closed)
        with (if decide (position n = end_)
              then (grid, Found (reconstructPath n))
              else
                let closed1 := {[position n]} ∪ closed in
                let grid1 := markVisited grid start end_ (position n) in
                search fuel start end_ grid1
                  (foldl (relax end_ closed1 n)
                         (delete (lowestIndex openList) openList)
                         (Grid.getNeighbors grid1 (position n)))
                  closed1)
        by (rewrite El in *; simpl; by rewrite Hi).
      case_decide as Hend.
      * simpl. exists n. split; [|split; [done|split]].
        -- by apply (open_nodes _ _ (inv_open _ _ _ HI)).
        -- apply reconstructPath_chain.
        -- intros k Hr. rewrite <- Hend in Hr.
           by eapply lowest_optimal.
      * cbv zeta.
        destruct (Inv_step _ _ _ _ _ HI Hi Hmin Hend) as [Hfresh HI'].
        specialize (IH _ _ _ HI').
        destruct (search fuel start end_ _ _ _) as [grid' [path| |]];
          simpl in *; [done|done|].
        rewrite size_union in IH by set_solver.
        rewrite size_singleton in IH. lia.
Qed.

(** The search never writes over a [Player] or a [Target] cell. *)
Lemma markVisited_keeps (grid : Grid.t) (pos p : Position) (ty : CellType) :
  Grid.getCell grid p = Some ty -> ty = Player \/ ty = Target ->
  Grid.getCell (markVisited grid start end_ pos) p = Some ty.
Proof.
  intros Hty Hpt.
  destruct (markVisited_cases grid pos p)
    as [->|(_ & _ & _ & ty' & Hty' & Hp & Ht)]; [done|].
  assert (ty' = ty) by congruence. subst. tauto.
Qed.

Lemma search_keeps (fuel : nat) (p : Position) (ty : CellType) :
  ty = Player \/ ty = Target ->
  forall grid openList closed,
    Grid.getCell grid p = Some ty ->
    Grid.getCell (search fuel start end_ grid openList closed).1 p = Some ty.
Proof.
  intros Hpt. induction fuel as [|fuel IH]; intros grid openList closed Hty.
  - by destruct openList.
  - destruct openList as [|a l]; [done|]. simpl.
    destruct ((a :: l) !! lowestIndex (a :: l)) as [n|]; [|done].
    case_decide; [done|]. apply IH. by apply markVisited_keeps.
Qed.

End Search.

(** *** Paths as lists *)

Lemma stepwise_snoc (l : list Position) (p q : Position) :
  stepwise (l ++ [q]) -> last l = Some p -> stepwise l /\ step p q.
Proof.
  induction l as [|a l IH]; [done|].
  intros Hs Hl. destruct l as [|b l].
  - simpl in *. injection Hl as ->. tauto.
  - destruct Hs as [Hab Hs]. destruct (IH Hs Hl) as [Hs' Hpq].
    repeat split; done.
Qed.

Lemma walk_reach (g0 : Grid.t) (a b : Position) (l : list Position) :
  walk g0 a b l -> reach g0 a (Z.of_nat (length l) - 1) b.
Proof.
  revert b. induction l as [|q l IH] using rev_ind; intros b (Hh & Hl & Hs & Hw).
  - done.
  - rewrite last_snoc in Hl. injection Hl as ->.
    destruct l as [|a' l'] eqn:El.
    + simpl in *. injection Hh as ->. constructor.
    + rewrite <- El in *.
      assert (exists p, last l = Some p) as [p Hp].
      { rewrite El. destruct (last (a' :: l')) eqn:E; [eauto|].
        by apply last_None in E. }
      destruct (stepwise_snoc _ _ _ Hs Hp) as [Hs' Hpb].
      apply Forall_app in Hw as [Hw Hwb]. apply Forall_inv in Hwb.
      replace (Z.of_nat (length (l ++ [b])) - 1)
        with (Z.of_nat (length l) - 1 + 1) by (rewrite length_app; simpl; lia).
      apply (reach_step g0 a _ p b); [|exact Hpb|exact Hwb].
      apply IH. repeat split; try done. rewrite El in *. done.
Qed.

Lemma chain_walk (g0 : Grid.t) (start : Position) (n : CellNode) :
  walkable g0 start -> nodeOk g0 start n ->
  Forall (walkable g0) (chain n).
Proof.
  intros Hstart. revert n. fix IH 1. intros [pos fn gn hn [m|]]; simpl.
  - intros (_ & Hw & _ & Hm). apply Forall_app. split; [by apply IH|].
    by apply Forall_singleton.
  - intros [-> _]. by apply Forall_singleton.
Qed.

Lemma enoughFuel_allCells (grid : Grid.t) :
  enoughFuel grid = Datatypes.S (Datatypes.S (length (allCells grid))).
Proof. unfold enoughFuel. by rewrite length_allCells. Qed.

(** *** The properties of [findPath] *)

(** C3. A path that [findPath] returns starts with the start, ends with
    the goal, and takes one axis-aligned unit step at a time; so it has
    more positions than the Manhattan distance between its ends. *)
Theorem findPath_path (fuel : nat) (grid grid' : Grid.t) (start goal : Position)
    (path : list Position) :
  findPath fuel grid start goal = (grid', Found path) ->
  head path = Some start /\ last path = Some goal /\ stepwise path
  /\ heuristic start goal < Z.of_nat (length path).
Proof.
  intros Hrun. unfold findPath, aStar in Hrun.
  pose proof (search_spec grid start goal fuel _ _ _ (Inv_init grid start goal))
    as Hspec.
  rewrite Hrun in Hspec. simpl in Hspec.
  destruct Hspec as (n & HnOk & Hpos & -> & _).
  destruct (nodeOk_chain _ _ _ HnOk) as (Hh & Hs & Hl & _).
  assert (Hlast : last (chain n) = Some goal) by (rewrite chain_last; congruence).
  repeat split; try done.
  pose proof (stepwise_heuristic _ _ _ Hs Hh Hlast). lia.
Qed.

Lemma findPath_path_witness :
  let grid := Grid.mk 3 2 [[Player; Wall; Target]; [Empty; Empty; Empty]] in
  head [(0, 0); (0, 1); (1, 1); (2, 1); (2, 0)] = Some (0, 0)
  /\ last [(0, 0); (0, 1); (1, 1); (2, 1); (2, 0)] = Some (2, 0)
  /\ stepwise [(0, 0); (0, 1); (1, 1); (2, 1); (2, 0)]
  /\ heuristic (0, 0) (2, 0) < 5.
Proof.
  intros grid.
  exact (findPath_path (enoughFuel grid) grid _ (0, 0) (2, 0) _ eq_refl).
Defined.

(** C2. When the start and the goal are joined by a path of walkable
    cells, [findPath] returns a path (with the fuel of [enoughFuel] or
    more), that path is a path of walkable cells from the start to the
    goal, and no such path has fewer positions. *)
Theorem findPath_shortest (fuel : nat) (grid : Grid.t) (start goal : Position)
    (l : list Position) :
  walk grid start goal l -> (enoughFuel grid <= fuel)%nat ->
  exists grid' path,
    findPath fuel grid start goal = (grid', Found path)
    /\ walk grid start goal path
    /\ forall l', walk grid start goal l' -> (length path <= length l')%nat.
Proof.
  intros Hwalk Hfuel. unfold findPath, aStar.
  pose proof (search_spec grid start goal fuel _ _ _ (Inv_init grid start goal))
    as Hspec.
  destruct (search fuel start goal grid _ ∅) as [grid' [path| |]] eqn:Hrun;
    cbn [snd] in Hspec.
  - exists grid', path. split; [done|].
    destruct Hspec as (n & HnOk & Hpos & -> & Hopt).
    destruct (nodeOk_chain _ _ _ HnOk) as (Hh & Hs & Hl & _).
    assert (Hstart : walkable grid start).
    { destruct Hwalk as (Hhd & _ & _ & Hall). destruct l as [|a l]; [done|].
      injection Hhd as ->. by apply Forall_inv in Hall. }
    split.
    + repeat split; [done|rewrite chain_last; congruence|done|].
      by apply (chain_walk grid start).
    + intros l' Hl'. apply walk_reach in Hl'. apply Hopt in Hl'. lia.
  - exfalso. apply walk_reach in Hwalk. by eapply Hspec.
  - exfalso. rewrite enoughFuel_allCells in Hfuel. rewrite size_empty in Hspec. lia.
Qed.

Lemma findPath_shortest_witness :
  let grid := Grid.mk 3 2 [[Player; Wall; Target]; [Empty; Empty; Empty]] in
  exists grid' path,
    findPath (enoughFuel grid) grid (0, 0) (2, 0) = (grid', Found path)
    /\ walk grid (0, 0) (2, 0) path
    /\ forall l', walk grid (0, 0) (2, 0) l' -> (length path <= length l')%nat.
Proof.
  intros grid.
  apply (findPath_shortest _ grid (0, 0) (2, 0)
           [(0, 0); (0, 1); (1, 1); (2, 1); (2, 0)]); [|done].
  repeat split; try done; try (simpl; unfold step, px, py; simpl; lia).
  repeat constructor; eexists; (split; [reflexivity|discriminate]).
Defined.

(** C8. When the goal is not a walkable cell and is not the start,
    [findPath] ends (with the fuel of [enoughFuel] or more) and returns
    [null]. *)
Theorem findPath_unwalkable_goal (fuel : nat) (grid : Grid.t)
    (start goal : Position) :
  ~ walkable grid goal -> start <> goal -> (enoughFuel grid <= fuel)%nat ->
  (findPath fuel grid start goal).2 = Null.
Proof.
  intros Hwall Hne Hfuel. unfold findPath, aStar.
  pose proof (search_spec grid start goal fuel _ _ _ (Inv_init grid start goal))
    as Hspec.
  destruct (search fuel start goal grid _ ∅) as [grid' [path| |]] eqn:Hrun;
    cbn [snd] in *.
  - exfalso. destruct Hspec as (n & HnOk & Hpos & _).
    destruct (nodeOk_position _ _ _ HnOk) as [?|?]; congruence.
  - done.
  - exfalso. rewrite enoughFuel_allCells in Hfuel. rewrite size_empty in Hspec. lia.
Qed.

Lemma findPath_unwalkable_goal_witness :
  let grid := Grid.mk 3 2 [[Player; Wall; Target]; [Empty; Empty; Empty]] in
  (findPath (enoughFuel grid) grid (0, 0) (1, 0)).2 = Null.
Proof.
  intros grid. apply findPath_unwalkable_goal; [|done|done].
  intros (ty & Hty & Hw). vm_compute in Hty. congruence.
Defined.

(** C10. A cell that is tagged [Player] or [Target] when the search
    starts has the same tag when the search ends, whatever the search
    ends in: the [Visited] annotation is never written over it. *)
Theorem findPath_keeps_player_and_target (fuel : nat) (grid : Grid.t)
    (start goal p : Position) (ty : CellType) :
  Grid.getCell grid p = Some ty -> ty = Player \/ ty = Target ->
  Grid.getCell (findPath fuel grid start goal).1 p = Some ty.
Proof. intros Hty Hpt. by apply search_keeps. Qed.

Lemma findPath_keeps_player_and_target_witness :
  let grid := Grid.mk 3 2 [[Empty; Player; Empty]; [Empty; Target; Empty]] in
  Grid.getCell (findPath (enoughFuel grid) grid (0, 0) (2, 0)).1 (1, 0) = Some Player
  /\ Grid.getCell (findPath (enoughFuel grid) grid (0, 0) (2, 0)).1 (1, 1)
     = Some Target.
Proof.
  intros grid. split.
  - apply findPath_keeps_player_and_target; [reflexivity|by left].
  - apply findPath_keeps_player_and_target; [reflexivity|by right].
Defined.

End PathFinderFacts.

(** ** World generation *)

Module WorldGeneratorFacts.
Import WorldGenerator.


Lemma bind_Normal {A B : Type} (c : Completion A) (k : A -> Completion B) (b : B) :
  c ≫= k = Normal b -> exists a, c = Normal a /\ k a = Normal b.
Proof. destruct c as [a| |]; [|done|done]. intros H. by exists a. Qed.

Lemma index_Normal {A : Type} (l : list A) (i : Z) (a : A) :
  index l i = Normal a -> a ∈ l.
Proof.
  unfold index. destruct (0 <=? i); [|done].
  destruct (l !! Z.to_nat i) eqn:E; [|done].
  intros [= ->]. by eapply list_elem_of_lookup_2.
Qed.

(** *** What the stages may do to the grid *)

Section Painting.
(** The stages only ever write types of [tys] (among them [Empty]) on
    cells of a grid that started as [gb]. *)
Variables (tys : CellType -> Prop) (gb : Grid.t).
Hypothesis tys_Empty : tys Empty.

Definition Painted (g : Grid.t) : Prop :=
  Grid.worldWidth g = Grid.worldWidth gb /\
  Grid.worldHeight g = Grid.worldHeight gb /\
  forall q, Grid.getCell g q = Grid.getCell gb q \/
            (is_Some (Grid.getCell gb q) /\
             exists ty, tys ty /\ Grid.getCell g q = Some ty).

Lemma Painted_setType (g : Grid.t) (p : Position) (ty : CellType) :
  tys ty -> is_Some (Grid.getCell g p) -> Painted g ->
  Painted (Grid.setType g p ty).
Proof.
  intros Hty Hp (HW & HH & Hq). repeat split; [done|done|].
  intros q. rewrite getCell_setType by done. case_decide as Hqp; [|done].
  subst q. right. split; [|eauto].
  destruct (Hq p) as [<-|[? _]]; done.
Qed.

Lemma random_grid w x w' : random w = (x, w') -> grid w' = grid w.
Proof. unfold random. destruct (SeededRandom.random (rng w)). by intros [= _ <-]. Qed.

Lemma randomInt_grid a b w x w' : randomInt a b w = (x, w') -> grid w' = grid w.
Proof.
  unfold randomInt. destruct (SeededRandom.randomInt _ _ (rng w)).
  by intros [= _ <-].
Qed.

Lemma randomBoolean_grid p w x w' :
  randomBoolean p w = (x, w') -> grid w' = grid w.
Proof.
  unfold randomBoolean. destruct (SeededRandom.randomBoolean p (rng w)).
  by intros [= _ <-].
Qed.

Lemma resetAt_painted p w : Painted (grid w) -> Painted (grid (resetAt p w)).
Proof.
  intros H. unfold resetAt. destruct (Grid.getCell (grid w) p) eqn:E; [|done].
  simpl. apply Painted_setType; [done| |done]. rewrite E. eauto.
Qed.

Lemma wallAt_painted p w :
  tys Wall -> Painted (grid w) -> Painted (grid (wallAt p w)).
Proof.
  intros HW H. unfold wallAt. destruct (Grid.getCell (grid w) p) eqn:E; [|done].
  simpl. apply Painted_setType; [done| |done]. rewrite E. eauto.
Qed.

Lemma widenAt_painted x y w : Painted (grid w) -> Painted (grid (widenAt x y w)).
Proof.
  intros H. unfold widenAt. destruct (Grid.getCell (grid w) (x, y)) eqn:E; [|done].
  destruct (isWithinBounds w x y); [|done].
  simpl. apply Painted_setType; [done| |done]. rewrite E. eauto.
Qed.

Lemma resetCell_painted g p :
  is_Some (Grid.getCell g p) -> Painted g -> Painted (Grid.resetCell g p).
Proof. intros Hp H. by apply Painted_setType. Qed.

Lemma wallCell_painted g p :
  tys Wall -> is_Some (Grid.getCell g p) -> Painted g ->
  Painted (Grid.setType g p Wall).
Proof. intros HW Hp H. by apply Painted_setType. Qed.

#[local] Opaque random randomInt randomBoolean resetAt wallAt widenAt
  isWithinBounds Grid.getCell Grid.setType Grid.resetCell.

(** Destructs a draw in the goal; the grid of the new state is that of
    the old one, and the goal is rewritten accordingly. *)
Ltac norm_grid E :=
  simpl grid in E;
  repeat match goal with
         | E' : grid ?a = _ |- _ =>
             lazymatch type of E with
             | _ = grid a => rewrite E' in E
             end
         end;
  rewrite ?E.

Ltac draw :=
  let E := fresh "E" in
  cbv beta;
  match goal with
  | |- context [random ?w] =>
      destruct (random w) as [? ?] eqn:E; apply random_grid in E
  | |- context [randomInt ?a ?b ?w] =>
      destruct (randomInt a b w) as [? ?] eqn:E; apply randomInt_grid in E
  | |- context [randomBoolean ?p ?w] =>
      destruct (randomBoolean p w) as [? ?] eqn:E; apply randomBoolean_grid in E
  end; cbv beta iota; norm_grid E.

(** Splits on the cell that the goal reads. *)
Ltac case_cell :=
  match goal with
  | |- context [match Grid.getCell ?g ?p with _ => _ end] =>
      let Ec := fresh "Ec" in
      destruct (Grid.getCell g p) as [[]|] eqn:Ec
  end.

(** Closes a goal [Painted (grid w')] after the draws. *)
Ltac painted :=
  repeat first
    [ assumption
    | match goal with
      | E : grid ?w = _ |- Painted (grid ?w) => rewrite E
      | Ec : Grid.getCell ?g ?p = Some _ |- is_Some (Grid.getCell ?g ?p) =>
          rewrite Ec; eauto
      | |- Painted (grid (if ?b then _ else _)) => destruct b
      end
    | apply resetAt_painted
    | apply widenAt_painted
    | progress simpl grid
    | apply resetCell_painted ].

Lemma clearStartArea_painted w :
  Painted (grid w) -> Painted (grid (clearStartArea w)).
Proof.
  intros H. unfold clearStartArea.
  apply (forRange_ind (fun w => Painted (grid w))); [done|]. intros y w1 _ H1.
  apply (forRange_ind (fun w => Painted (grid w))); [done|].
  intros x w2 _ H2. by apply resetAt_painted.
Qed.

Lemma addRandomEmptySpaces_painted w :
  Painted (grid w) -> Painted (grid (addRandomEmptySpaces w)).
Proof.
  intros H. unfold addRandomEmptySpaces.
  apply (forRange_ind (fun w => Painted (grid w))); [done|]. intros i w1 _ H1.
  do 2 draw. case_cell; try (by painted).
  draw. destruct b; [do 2 draw|]; painted.
Qed.

(** Takes the first call of a sequence out of the goal
    [c ≫= k = Normal b -> _]. *)
Ltac unbind H :=
  cbv beta;
  match goal with
  | |- (?c ≫= ?k) = Normal _ -> _ =>
      let H' := fresh in
      intros H'; apply bind_Normal in H' as (? & H & H'); revert H';
      cbv beta iota
  end.

Ltac case_if :=
  match goal with
  | |- context [if ?c then _ else _] => destruct c
  end; cbv beta iota.

Lemma tunnel_painted (fuel : nat) (end_ : Position) :
  forall currentX currentY w w',
    tunnel fuel end_ currentX currentY w = Normal w' ->
    Painted (grid w) -> Painted (grid w').
Proof.
  induction fuel as [|fuel IH]; intros cx cy w w'; simpl.
  - destruct ((cx =? px end_) && (cy =? py end_)); [|done].
    by intros [= <-].
  - destruct ((cx =? px end_) && (cy =? py end_)); [by intros [= <-]|].
    intros Hrun Hw. revert Hrun.
    repeat first [draw | case_if];
      intros Hrun; (eapply IH; [exact Hrun|]); painted.
Qed.

Lemma createTunnel_painted fuel start end_ w w' :
  createTunnel fuel start end_ w = Normal w' ->
  Painted (grid w) -> Painted (grid w').
Proof. apply tunnel_painted. Qed.

Lemma connectToStart_painted fuel caves w w' :
  connectToStart fuel caves w = Normal w' ->
  Painted (grid w) -> Painted (grid w').
Proof.
  unfold connectToStart. destruct caves as [|cave0 caves]; [by intros [= <-]|].
  destruct (foldl _ (cave0, None) (cave0 :: caves)) as [closestCave d].
  unbind Hp. destruct (foldl _ _ closestCave) as [closestPoint d'].
  apply createTunnel_painted.
Qed.

Lemma pickOther_grid fuel n i w j w' :
  pickOther fuel n i w = Normal (j, w') -> grid w' = grid w.
Proof.
  revert w. induction fuel as [|fuel IH]; intros w; simpl; [done|].
  destruct (randomInt 0 (n - 1) w) as [k w1] eqn:E. apply randomInt_grid in E.
  destruct (k =? i).
  - intros H. rewrite (IH _ H). done.
  - by intros [= _ <-].
Qed.

Lemma connectCaves_painted fuel caves w w' :
  connectCaves fuel caves w = Normal w' ->
  Painted (grid w) -> Painted (grid w').
Proof.
  unfold connectCaves. destruct (Z.of_nat (length caves) <=? 1);
    [by intros [= <-]|].
  unbind H1. unbind H2. intros H3 Hw.
  eapply connectToStart_painted; [exact H3|].
  eapply (forRangeC_ind (fun w => Painted (grid w))); [| |exact H2].
  - eapply (forRangeC_ind (fun w => Painted (grid w))); [exact Hw| |exact H1].
    intros i s s' _ Hs. unbind Hc. unbind Hn.
    case_if; [|by intros [= <-]].
    do 2 draw. unbind Hst. unbind Hen. intros Hrun.
    eapply createTunnel_painted; [exact Hrun|]. painted.
  - intros i s s' _ Hs. draw. unbind Hpick.
    match type of Hpick with _ = Normal ?x => destruct x as [cave2Idx s1] end.
    apply pickOther_grid in Hpick.
    unbind Hc1. unbind Hc2. case_if; [|intros [= <-]; painted].
    draw. unbind Hst. draw. unbind Hen. intros Hrun.
    eapply createTunnel_painted; [exact Hrun|]. painted.
Qed.

Lemma carve_painted (n : nat) (dir : Position) :
  forall currentX currentY w,
    Painted (grid w) -> Painted (grid (carve n dir currentX currentY w)).
Proof.
  induction n as [|n IH]; intros cx cy w Hw; simpl; [done|].
  case_if; [done|]. case_cell; try (draw; apply IH; painted).
  by apply IH.
Qed.

Lemma improveConnectivity_painted reachableCells w w' :
  improveConnectivity reachableCells w = Normal w' ->
  Painted (grid w) -> Painted (grid w').
Proof.
  unfold improveConnectivity. intros Hrun Hw.
  eapply (forRangeC_ind (fun w => Painted (grid w))); [exact Hw| |exact Hrun].
  intros i s s' _ Hs. do 3 draw. unbind Hst. case_if.
  - unbind Hdir. intros [= <-]. apply carve_painted. painted.
  - intros [= <-]. painted.
Qed.

(** The cave stages also write walls. *)
Hypothesis tys_Wall : tys Wall.

Lemma smoothCave_painted startX startY endX endY w :
  Painted (grid w) -> Painted (grid (smoothCave startX startY endX endY w)).
Proof.
  intros Hw. unfold smoothCave.
  apply (forRange_ind (fun w => Painted (grid w))); [done|].
  intros i w1 _ Hw1. cbv zeta.
  match goal with
  | |- context [forRange startY endY ?body (?m0, w1)] =>
      assert (Hrule : Painted (grid (forRange startY endY body (m0, w1)).2))
  end.
  { apply (forRange_ind (fun mw : gmap Position bool * t => Painted (grid mw.2)));
      [done|].
    intros y mw _ Hmw.
    apply (forRange_ind (fun mw : gmap Position bool * t => Painted (grid mw.2)));
      [done|].
    intros x [m w2] _ Hw2. simpl in Hw2. cbv beta iota.
    case_cell; try done; repeat case_if; try done; draw; simpl; painted. }
  match goal with
  | |- context [forRange startY endY ?body (?m0, w1)] =>
      destruct (forRange startY endY body (m0, w1)) as [newState w2]
  end.
  simpl in Hrule.
  apply (forRange_ind (fun w => Painted (grid w))); [done|].
  intros y w3 _ Hw3.
  apply (forRange_ind (fun w => Painted (grid w))); [done|].
  intros x w4 _ Hw4. case_if; [by apply wallAt_painted|by apply resetAt_painted].
Qed.

Lemma generateCave_painted startX startY width height w :
  Painted (grid w) ->
  Painted (grid (generateCave startX startY width height w).2).
Proof.
  intros Hw. unfold generateCave. simpl. apply smoothCave_painted.
  apply (forRange_ind (fun w => Painted (grid w))); [done|].
  intros y w1 _ Hw1.
  apply (forRange_ind (fun w => Painted (grid w))); [done|].
  intros x w2 _ Hw2.
  case_cell; try done; draw; case_if;
    first [apply wallAt_painted; [done|]|apply resetAt_painted]; painted.
Qed.

Lemma generateCaves_painted w :
  Painted (grid w) -> Painted (grid (generateCaves w).2).
Proof.
  intros Hw. unfold generateCaves. cbv zeta.
  apply (forRange_ind
           (fun cw : list (list Position) * t => Painted (grid cw.2))); [done|].
  intros i [caveRegions w1] _ Hw1. simpl in Hw1. cbv beta iota.
  do 2 draw. case_if; [|simpl; painted].
  match goal with
  | |- context [generateCave ?a ?b ?c ?d ?w] =>
      pose proof (generateCave_painted a b c d w) as Hc;
      destruct (generateCave a b c d w) as [cavePoints w2]
  end.
  simpl in Hc. case_if; simpl; apply Hc; painted.
Qed.

End Painting.

(** *** Filling with walls *)

Lemma fillWithWalls_spec w :
  Grid.worldWidth (grid (fillWithWalls w)) = Grid.worldWidth (grid w) /\
  Grid.worldHeight (grid (fillWithWalls w)) = Grid.worldHeight (grid w) /\
  forall q, Grid.getCell (grid (fillWithWalls w)) q
            = (fun _ => Wall) <$> Grid.getCell (grid w) q.
Proof.
  unfold fillWithWalls.
  apply (cells_loop grid (fun x y => wallAt (x, y)) (fun _ _ => Wall)).
  intros x y s Hx Hy. unfold wallAt.
  destruct (Grid.getCell (grid s) (x, y)) as [ty|] eqn:E.
  - simpl. repeat split; try done. intros q.
    rewrite getCell_setType by (rewrite E; eauto).
    case_decide; [subst q; by rewrite E|done].
  - repeat split; try done. intros q. case_decide; [subst q; by rewrite E|done].
Qed.

(** *** The flood fill *)

(** [b] is joined to [a] by unit steps through positions that satisfy
    [P], both ends included. *)
Inductive connected (P : Position -> Prop) (a : Position) : Position -> Prop :=
| connected_refl : P a -> connected P a a
| connected_step p q : connected P a p -> step p q -> P q -> connected P a q.

Lemma connected_mono (P Q : Position -> Prop) (a b : Position) :
  (forall p, P p -> Q p) -> connected P a b -> connected Q a b.
Proof.
  intros HPQ. induction 1 as [Ha|p q _ IH Hst Hq].
  - apply connected_refl. auto.
  - eapply connected_step; eauto.
Qed.

Section Flood.
(** The state of the generator when [ensureConnectivity] starts; the
    flood fill reads its grid and does not change it. *)
Variable w : t.

Definition inWorld (p : Position) : Prop :=
  0 <= px p < Grid.worldWidth (grid w) /\ 0 <= py p < Grid.worldHeight (grid w).

Lemma isWithinBounds_spec x y : isWithinBounds w x y = true <-> inWorld (x, y).
Proof. unfold isWithinBounds, inWorld, px, py. simpl. lia. Qed.

(** The [visited] array has a row for every [y] and an entry for every
    [x] of the world. *)
Definition sized (visited : list (list bool)) : Prop :=
  length visited = Z.to_nat (Grid.worldHeight (grid w)) /\
  Forall (fun row => length row = Z.to_nat (Grid.worldWidth (grid w))) visited.

Lemma sized_is_Some visited p : sized visited -> inWorld p -> is_Some (get2 visited p).
Proof.
  intros [Hl Hrows] [Hx Hy]. unfold get2.
  destruct (lookup_lt_is_Some_2 visited (Z.to_nat (py p))) as [row Hrow]; [lia|].
  rewrite Hrow. simpl. apply lookup_lt_is_Some_2.
  eapply Forall_lookup_1 in Hrows; [|exact Hrow]. simpl in Hrows. lia.
Qed.

Lemma sized_set2 visited p b : sized visited -> sized (set2 visited p b).
Proof.
  intros [Hl Hrows]. unfold set2. split; [by rewrite length_alter|].
  apply Forall_alter; [done|]. intros row Hrow Hlen. by rewrite length_insert.
Qed.

Lemma sized_initial :
  sized (replicate (Z.to_nat (Grid.worldHeight (grid w)))
                   (replicate (Z.to_nat (Grid.worldWidth (grid w))) false)).
Proof.
  split; [by rewrite length_replicate|].
  apply Forall_replicate. by rewrite length_replicate.
Qed.

Lemma readVisited_initial p :
  readVisited (replicate (Z.to_nat (Grid.worldHeight (grid w)))
                 (replicate (Z.to_nat (Grid.worldWidth (grid w))) false)) p
  = false.
Proof.
  unfold readVisited, get2.
  destruct (replicate _ _ !! Z.to_nat (py p)) as [row|] eqn:E; [|done].
  apply lookup_replicate in E as [-> _]. simpl.
  destruct (replicate _ _ !! Z.to_nat (px p)) as [b|] eqn:E'; [|done].
  by apply lookup_replicate in E' as [-> _].
Qed.

Lemma readVisited_set2 visited p q :
  sized visited -> inWorld p -> inWorld q ->
  readVisited (set2 visited p true) q
  = if decide (q = p) then true else readVisited visited q.
Proof.
  intros Hs [Hpx Hpy] [Hqx Hqy]. unfold readVisited. case_decide as Hqp.
  - subst q. rewrite get2_set2_eq; [done|lia|lia|].
    by apply sized_is_Some.
  - rewrite get2_set2_ne; [done|lia|lia|lia|lia|congruence].
Qed.

(** A position that the fill has marked: in the world, marked, and not
    a wall. *)
Definition seen (visited : list (list bool)) (q : Position) : Prop :=
  inWorld q /\ readVisited visited q = true /\ walkable (grid w) q.

Definition grows (v v' : list (list bool)) : Prop :=
  forall p, inWorld p -> readVisited v p = true -> readVisited v' p = true.

Lemma seen_grows v v' q : grows v v' -> seen v q -> seen v' q.
Proof. intros Hg (Hin & Hv & Hw). split; [done|]. split; [by apply Hg|done]. Qed.

(** Every marked position is joined to the origin through marked
    positions. *)
Definition FloodInv (visited : list (list bool)) : Prop :=
  sized visited /\
  forall p, inWorld p -> readVisited visited p = true ->
            connected (seen visited) (0, 0) p.

Lemma FloodInv_mark visited (x y : Z) :
  FloodInv visited -> inWorld (x, y) -> walkable (grid w) (x, y) ->
  (x, y) = (0, 0) \/ (exists p, seen visited p /\ step p (x, y)) ->
  FloodInv (set2 visited (x, y) true)
  /\ grows visited (set2 visited (x, y) true)
  /\ seen (set2 visited (x, y) true) (x, y).
Proof.
  intros [Hs Hconn] Hin Hw Hfrom.
  assert (Hgrow : grows visited (set2 visited (x, y) true)).
  { intros p Hp Hv. rewrite readVisited_set2 by done. by case_decide. }
  assert (Hseen : seen (set2 visited (x, y) true) (x, y)).
  { repeat split; try done; try apply Hin.
    rewrite readVisited_set2 by done. by rewrite decide_True. }
  split; [|done]. split; [by apply sized_set2|].
  intros p Hp Hv. rewrite readVisited_set2 in Hv by done.
  case_decide as Hpxy.
  - subst p. destruct Hfrom as [Ho|(p0 & Hp0 & Hst)].
    + rewrite Ho in *. by apply connected_refl.
    + eapply connected_step; [|exact Hst|exact Hseen].
      eapply connected_mono; [|apply Hconn; apply Hp0].
      intros q. by apply seen_grows.
  - eapply connected_mono; [|by apply Hconn].
    intros q. by apply seen_grows.
Qed.

Lemma floodFill_spec (fuel : nat) :
  forall x y st st',
    floodFill fuel w x y st = Normal st' ->
    FloodInv st.1 ->
    (x, y) = (0, 0) \/ (exists p, seen st.1 p /\ step p (x, y)) ->
    FloodInv st'.1 /\ grows st.1 st'.1.
Proof.
  induction fuel as [|fuel IH]; intros x y [visited rc] st'; [done|].
  simpl. intros Hrun HI Hfrom.
  destruct (negb (isWithinBounds w x y) || readVisited visited (x, y)) eqn:Hguard.
  { injection Hrun as <-. split; [done|]. by intros p. }
  apply orb_false_iff in Hguard as [Hin%negb_false_iff%isWithinBounds_spec Hv].
  destruct (Grid.getCell (grid w) (x, y)) as [ty|] eqn:Hcell.
  2:{ injection Hrun as <-. split; [done|]. by intros p. }
  assert (Hgo : ty <> Wall ->
     (st1 ← floodFill fuel w (x + 1) y
               (set2 visited (x, y) true, rc ++ [(x, y)]);
      st2 ← floodFill fuel w (x - 1) y st1;
      st3 ← floodFill fuel w x (y + 1) st2;
      floodFill fuel w x (y - 1) st3) = Normal st' ->
     FloodInv st'.1 /\ grows visited st'.1).
  { intros Hty Hseq.
    destruct (FloodInv_mark visited x y HI Hin) as (HI0 & Hg0 & Hs0);
      [by exists ty|done|].
    apply bind_Normal in Hseq as (st1 & H1 & Hseq).
    apply bind_Normal in Hseq as (st2 & H2 & Hseq).
    apply bind_Normal in Hseq as (st3 & H3 & H4).
    destruct (IH _ _ _ _ H1 HI0) as [HI1 Hg1].
    { right. exists (x, y). split; [done|]. unfold step, px, py. simpl. lia. }
    pose proof (seen_grows _ _ _ Hg1 Hs0) as Hs1.
    destruct (IH _ _ _ _ H2 HI1) as [HI2 Hg2].
    { right. exists (x, y). split; [done|]. unfold step, px, py. simpl. lia. }
    pose proof (seen_grows _ _ _ Hg2 Hs1) as Hs2.
    destruct (IH _ _ _ _ H3 HI2) as [HI3 Hg3].
    { right. exists (x, y). split; [done|]. unfold step, px, py. simpl. lia. }
    pose proof (seen_grows _ _ _ Hg3 Hs2) as Hs3.
    destruct (IH _ _ _ _ H4 HI3) as [HI4 Hg4].
    { right. exists (x, y). split; [done|]. unfold step, px, py. simpl. lia. }
    split; [done|]. intros p Hp Hvp.
    apply Hg4, Hg3, Hg2, Hg1, Hg0; done. }
  destruct ty; try (by apply Hgo).
  injection Hrun as <-. split; [done|]. by intros p.
Qed.

End Flood.
(** *** The connectivity stage *)

(** Every cell is a wall or empty. *)
Definition wallOrEmpty (g : Grid.t) : Prop :=
  forall q ty, Grid.getCell g q = Some ty -> ty = Wall \/ ty = Empty.

(** What the last loop of [ensureConnectivity] does to a cell. *)
Definition sealed (visited : list (list bool)) (q : Position) (ty : CellType)
    : CellType :=
  if decide (ty = Empty) then (if readVisited visited q then Empty else Wall)
  else ty.

Lemma seal_spec (visited : list (list bool)) (w : t) :
  let w' :=
    forRange 0 (Grid.worldHeight (grid w)) (fun y =>
      forRange 0 (Grid.worldWidth (grid w)) (fun x w =>
        match Grid.getCell (grid w) (x, y) with
        | Some Empty =>
            if readVisited visited (x, y) then w
            else withGrid (Grid.setType (grid w) (x, y) Wall) w
        | _ => w
        end)) w in
  Grid.worldWidth (grid w') = Grid.worldWidth (grid w) /\
  Grid.worldHeight (grid w') = Grid.worldHeight (grid w) /\
  forall q, Grid.getCell (grid w') q = sealed visited q <$> Grid.getCell (grid w) q.
Proof.
  apply (cells_loop grid
           (fun x y w =>
              match Grid.getCell (grid w) (x, y) with
              | Some Empty =>
                  if readVisited visited (x, y) then w
                  else withGrid (Grid.setType (grid w) (x, y) Wall) w
              | _ => w
              end) (sealed visited)).
  intros x y s Hx Hy.
  destruct (Grid.getCell (grid s) (x, y)) as [ty|] eqn:E.
  - assert (Hsame : forall q, Grid.getCell (grid s) q
              = if decide (q = (x, y))
                then (fun _ => ty) <$> Grid.getCell (grid s) q
                else Grid.getCell (grid s) q).
    { intros q. case_decide; [subst q; by rewrite E|done]. }
    destruct ty; try (repeat split; try done; intros q; rewrite (Hsame q) at 1;
                      case_decide; [subst q; by rewrite E|done]).
    destruct (readVisited visited (x, y)) eqn:Hv.
    + repeat split; try done. intros q. rewrite (Hsame q) at 1.
      case_decide; [subst q; rewrite E; simpl|done].
      unfold sealed. by rewrite decide_True, Hv.
    + simpl. repeat split; try done. intros q.
      rewrite getCell_setType by (rewrite E; eauto).
      case_decide; [subst q; rewrite E; simpl|done].
      unfold sealed. by rewrite decide_True, Hv.
  - repeat split; try done. intros q. case_decide; [subst q; by rewrite E|done].
Qed.

Lemma ensureConnectivity_connected (fuel : nat) (w w' : t) :
  wallOrEmpty (grid w) ->
  ensureConnectivity fuel w = Normal w' ->
  forall p, Grid.getCell (grid w') p = Some Empty ->
            connected (fun q => Grid.getCell (grid w') q = Some Empty) (0, 0) p.
Proof.
  intros Hwe. unfold ensureConnectivity. cbv zeta.
  intros Hrun. apply bind_Normal in Hrun as ([visited rc] & Hflood & Hrun).
  apply bind_Normal in Hrun as (w1 & Himprove & Hrun).
  injection Hrun as Hw'.
  (** the flood fill *)
  destruct (floodFill_spec w fuel 0 0 _ _ Hflood) as [[Hsized Hconn] _].
  { split; [apply sized_initial|]. intros p _ Hv. simpl in Hv.
    by rewrite readVisited_initial in Hv. }
  { by left. }
  simpl in Hsized, Hconn.
  (** the repair only empties cells *)
  assert (Hpaint : Painted (fun ty => ty = Empty) (grid w) (grid w1)).
  { destruct (PrimFloat.ltb _ 25).
    - eapply improveConnectivity_painted; [done|exact Himprove|].
      repeat split; auto.
    - injection Himprove as <-. repeat split; auto. }
  destruct Hpaint as (HW & HH & Hcells).
  (** the last loop *)
  rewrite <- HW, <- HH in Hw'.
  pose proof (seal_spec visited w1) as Hseal. cbv zeta in Hseal.
  rewrite Hw' in Hseal. destruct Hseal as (HW' & HH' & Hseal).
  assert (Hkept : forall q, seen w visited q ->
                            Grid.getCell (grid w') q = Some Empty).
  { intros q (Hin & Hv & ty & Hty & Hnw). rewrite Hseal.
    assert (Hq : Grid.getCell (grid w) q = Some Empty).
    { destruct (Hwe q ty Hty) as [->| ->]; done. }
    destruct (Hcells q) as [Hsame|(_ & ty' & -> & Hq1)].
    - rewrite Hsame, Hq. simpl. unfold sealed. by rewrite decide_True, Hv.
    - rewrite Hq1. simpl. unfold sealed. by rewrite decide_True, Hv. }
  intros p Hp.
  assert (Hin : inWorld w p).
  { apply getCell_bounds in Hp. unfold inWorld.
    rewrite <- HW, <- HH, <- HW', <- HH'. done. }
  assert (Hv : readVisited visited p = true).
  { rewrite Hseal in Hp.
    destruct (Grid.getCell (grid w1) p) as [ty|]; [|done]. simpl in Hp.
    unfold sealed in Hp. case_decide; [|congruence].
    by destruct (readVisited visited p). }
  eapply connected_mono; [exact Hkept|]. by apply Hconn.
Qed.

(** *** The generated world *)

Lemma Painted_refl (tys : CellType -> Prop) (g : Grid.t) : Painted tys g g.
Proof. repeat split; auto. Qed.

(** The grid that enters [ensureConnectivity] holds walls and empty cells
    only. *)
Lemma stages_wallOrEmpty (fuel : nat) (w w4 : t) :
  (let w1 := fillWithWalls w in
   let '(caveRegions, w2) := generateCaves w1 in
   w3 ← connectCaves fuel caveRegions w2;
   Normal (clearStartArea (addRandomEmptySpaces w3))) = Normal w4 ->
  wallOrEmpty (grid w4).
Proof.
  cbv zeta. set (tys := fun ty => ty = Empty \/ ty = Wall).
  set (w1 := fillWithWalls w).
  assert (H1 : Painted tys (grid w1) (grid w1)) by apply Painted_refl.
  pose proof (generateCaves_painted tys (grid w1) (or_introl eq_refl)
                (or_intror eq_refl) w1 H1) as H2.
  destruct (generateCaves w1) as [caveRegions w2]. simpl in H2.
  intros Hrun. apply bind_Normal in Hrun as (w3 & Hconnect & Hrun).
  injection Hrun as <-.
  pose proof (connectCaves_painted tys (grid w1) (or_introl eq_refl)
                _ _ _ _ Hconnect H2) as H3.
  apply (addRandomEmptySpaces_painted tys _ (or_introl eq_refl)) in H3.
  apply (clearStartArea_painted tys _ (or_introl eq_refl)) in H3.
  destruct H3 as (_ & _ & Hcells).
  intros q ty Hty. destruct (Hcells q) as [Hsame|(_ & ty' & Htys & Hq)].
  - rewrite Hsame in Hty. unfold w1 in Hty.
    destruct (fillWithWalls_spec w) as (_ & _ & Hfill). rewrite Hfill in Hty.
    destruct (Grid.getCell (grid w) q); simpl in Hty; [|done].
    left. congruence.
  - rewrite Hq in Hty. injection Hty as <-. destruct Htys; auto.
Qed.

(** C1. In the world that [generateWorld] returns, every [Empty] cell is
    joined to the origin by unit steps through [Empty] cells. *)
Theorem generateWorld_connected (fuel : nat) (newSeed : option SeededRandom.Seed)
    (w w' : t) (p : Position) :
  generateWorld fuel newSeed w = Normal w' ->
  Grid.getCell (grid w') p = Some Empty ->
  connected (fun q => Grid.getCell (grid w') q = Some Empty) (0, 0) p.
Proof.
  unfold generateWorld. cbv zeta.
  set (w0 := match newSeed with Some s => setSeed s w | None => w end).
  intros Hrun.
  destruct (generateCaves (fillWithWalls w0)) as [caveRegions w2] eqn:Hcaves.
  apply bind_Normal in Hrun as (w3 & Hconnect & Hrun).
  eapply ensureConnectivity_connected; [|exact Hrun].
  apply (stages_wallOrEmpty fuel w0). cbv zeta. rewrite Hcaves.
  by rewrite Hconnect.
Qed.

(** C4. The world that [generateWorld(seed)] produces from a grid is the
    same whatever state the generator object is in: a second run from
    the same grid, with the random generator left where the first run
    took it, gives the same cells. *)
Theorem generateWorld_deterministic (fuel : nat) (seed : SeededRandom.Seed)
    (g : Grid.t) (rng1 rng2 : SeededRandom.t) (seed1 seed2 : SeededRandom.Seed) :
  generateWorld fuel (Some seed) {| grid := g; rng := rng1; currentSeed := seed1 |}
  = generateWorld fuel (Some seed) {| grid := g; rng := rng2; currentSeed := seed2 |}.
Proof. reflexivity. Qed.

(** Two runs in a row: when the grid is put back as it was, the second run
    of [generateWorld(seed)] ends as the first did, in the same world. *)
Lemma generateWorld_again (fuel : nat) (seed : SeededRandom.Seed) (w w1 : t) :
  generateWorld fuel (Some seed) w = Normal w1 ->
  generateWorld fuel (Some seed) (withGrid (grid w) w1) = Normal w1.
Proof. intros Hrun. exact Hrun. Qed.

Lemma generateWorld_connected_witness :
  let w := {| grid := Grid.initializeWorld 12 12;
              rng := SeededRandom.new 0%float None;
              currentSeed := SeededRandom.SeedNumber 0%float |} in
  exists w',
    generateWorld 200 (Some (SeededRandom.SeedString "x")) w = Normal w'
    /\ connected (fun q => Grid.getCell (grid w') q = Some Empty) (0, 0) (5, 8).
Proof.
  intros w.
  let r := eval vm_compute in
             (generateWorld 200 (Some (SeededRandom.SeedString "x")) w) in
  match r with
  | Normal ?w' =>
      assert (Hrun : generateWorld 200 (Some (SeededRandom.SeedString "x")) w
                     = Normal w') by (vm_compute; reflexivity);
      exists w'; split; [exact Hrun|];
      apply (generateWorld_connected _ _ _ _ _ Hrun); vm_compute; reflexivity
  end.
Defined.

End WorldGeneratorFacts.

(** ** Termination of the flood fill *)

Module FloodFillFacts.
Import WorldGenerator WorldGeneratorFacts.

(** The number of elements of a list that satisfy a test. *)
Fixpoint count {A : Type} (test : A -> bool) (l : list A) : nat :=
  match l with
  | [] => O
  | a :: l' => if test a then Datatypes.S (count test l') else count test l'
  end.

Lemma count_le {A : Type} (t1 t2 : A -> bool) (l : list A) :
  (forall a, a ∈ l -> t1 a = true -> t2 a = true) ->
  (count t1 l <= count t2 l)%nat.
Proof.
  induction l as [|a l IH]; intros H; simpl; [lia|].
  assert (IH' : (count t1 l <= count t2 l)%nat).
  { apply IH. intros b Hb. apply H. by right. }
  destruct (t1 a) eqn:E1.
  - rewrite (H a) by (done || by left). lia.
  - destruct (t2 a); lia.
Qed.

Lemma count_lt {A : Type} (t1 t2 : A -> bool) (l : list A) (a : A) :
  (forall b, b ∈ l -> t1 b = true -> t2 b = true) ->
  a ∈ l -> t1 a = false -> t2 a = true ->
  (count t1 l < count t2 l)%nat.
Proof.
  induction l as [|b l IH]; intros H Ha H1 H2; [by apply elem_of_nil in Ha|].
  simpl.
  assert (Hle : (count t1 l <= count t2 l)%nat).
  { apply count_le. intros c Hc. apply H. by right. }
  apply elem_of_cons in Ha as [<-|Ha].
  - rewrite H1, H2. lia.
  - assert (IH' : (count t1 l < count t2 l)%nat).
    { apply IH; [|done..]. intros c Hc. apply H. by right. }
    destruct (t1 b) eqn:E1.
    + rewrite (H b) by (done || by left). lia.
    + destruct (t2 b); lia.
Qed.

Lemma count_length {A : Type} (test : A -> bool) (l : list A) :
  (count test l <= length l)%nat.
Proof. induction l as [|a l IH]; simpl; [lia|]. destruct (test a); lia. Qed.

Section Total.
Variable w : t.

(** The cells of the world that the fill has not marked. *)
Definition unmarked (visited : list (list bool)) : nat :=
  count (fun p => negb (readVisited visited p))
        (PathFinderFacts.allCells (grid w)).

Lemma inWorld_allCells p : inWorld w p <-> p ∈ PathFinderFacts.allCells (grid w).
Proof.
  unfold PathFinderFacts.allCells, inWorld. rewrite list_elem_of_In.
  destruct p as [x y]. unfold px, py. simpl.
  etrans; [|symmetry; apply in_prod_iff].
  rewrite <- !list_elem_of_In, !elem_of_seqZ. lia.
Qed.

Lemma unmarked_mark visited p :
  sized w visited -> inWorld w p -> readVisited visited p = false ->
  (unmarked (set2 visited p true) < unmarked visited)%nat.
Proof.
  intros Hs Hp Hv. unfold unmarked. apply (count_lt _ _ _ p).
  - intros q Hq%inWorld_allCells. rewrite (readVisited_set2 w) by done.
    case_decide; [done|]. done.
  - by apply inWorld_allCells.
  - rewrite (readVisited_set2 w) by done. by rewrite decide_True.
  - by rewrite Hv.
Qed.

(** The flood fill returns when the depth allowed exceeds the number of
    unmarked cells, and it never unmarks a cell. *)
Lemma floodFill_total (fuel : nat) :
  forall x y st,
    sized w st.1 -> (unmarked st.1 < fuel)%nat ->
    exists st', floodFill fuel w x y st = Normal st'
                /\ sized w st'.1 /\ (unmarked st'.1 <= unmarked st.1)%nat.
Proof.
  induction fuel as [|fuel IH]; intros x y [visited rc] Hs Hfuel; [lia|].
  simpl in *.
  destruct (negb (isWithinBounds w x y) || readVisited visited (x, y)) eqn:Hguard.
  { eexists. split; [done|]. split; [done|]. simpl. lia. }
  apply orb_false_iff in Hguard as [Hin%negb_false_iff%isWithinBounds_spec Hv].
  destruct (Grid.getCell (grid w) (x, y)) as [ty|] eqn:Hcell.
  2:{ eexists. split; [done|]. split; [done|]. simpl. lia. }
  assert (Hgo : exists st',
     (st1 ← floodFill fuel w (x + 1) y
               (set2 visited (x, y) true, rc ++ [(x, y)]);
      st2 ← floodFill fuel w (x - 1) y st1;
      st3 ← floodFill fuel w x (y + 1) st2;
      floodFill fuel w x (y - 1) st3) = Normal st'
     /\ sized w st'.1 /\ (unmarked st'.1 <= unmarked visited)%nat).
  { pose proof (unmarked_mark visited (x, y) Hs Hin Hv) as Hlt.
    destruct (IH (x + 1) y (set2 visited (x, y) true, rc ++ [(x, y)]))
      as (st1 & -> & Hs1 & Hu1); [by apply sized_set2|simpl; lia|].
    simpl in Hu1.
    destruct (IH (x - 1) y st1) as (st2 & H2 & Hs2 & Hu2); [done|lia|].
    destruct (IH x (y + 1) st2) as (st3 & H3 & Hs3 & Hu3); [done|lia|].
    destruct (IH x (y - 1) st3) as (st4 & H4 & Hs4 & Hu4); [done|lia|].
    exists st4. simpl. rewrite H2. simpl. rewrite H3. simpl.
    split; [done|]. split; [done|]. lia. }
  destruct ty; try exact Hgo.
  eexists. split; [done|]. split; [done|]. simpl. lia.
Qed.

(** In [ensureConnectivity] the fill returns whenever the depth allowed
    exceeds the number of cells of the world. *)
Lemma floodFill_returns (fuel : nat) :
  (Z.to_nat (Grid.worldWidth (grid w)) * Z.to_nat (Grid.worldHeight (grid w))
   < fuel)%nat ->
  exists st',
    floodFill fuel w 0 0
      (replicate (Z.to_nat (Grid.worldHeight (grid w)))
                 (replicate (Z.to_nat (Grid.worldWidth (grid w))) false), [])
    = Normal st'.
Proof.
  intros Hfuel.
  destruct (floodFill_total fuel 0 0
              (replicate (Z.to_nat (Grid.worldHeight (grid w)))
                 (replicate (Z.to_nat (Grid.worldWidth (grid w))) false), []))
    as (st' & Hrun & _); [apply sized_initial| |by exists st'].
  simpl. unfold unmarked.
  eapply Nat.le_lt_trans; [apply count_length|].
  by rewrite PathFinderFacts.length_allCells.
Qed.

End Total.
End FloodFillFacts.

(* ================================================================== *)
(** * Part III: further properties                                    *)
(* ================================================================== *)

(** ** The search: its end, its failure, and what it writes *)

Module SearchFacts.
Import PathFinder PathFinderFacts.

(** One iteration of the loop on a non-empty open list. *)
Lemma search_S (fuel : nat) (start end_ : Position) (grid : Grid.t)
    (openList : list CellNode) (closed : ClosedList) (n : CellNode) :
  openList !! lowestIndex openList = Some n ->
  search (S fuel) start end_ grid openList closed
  = if decide (position n = end_)
    then (grid, Found (reconstructPath n))
    else
      let closed1 := {[position n]} ∪ closed in
      let grid1 := markVisited grid start end_ (position n) in
      search fuel start end_ grid1
        (foldl (relax end_ closed1 n) (delete (lowestIndex openList) openList)
               (Grid.getNeighbors grid1 (position n)))
        closed1.
Proof.
  intros Hi. destruct openList as [|a l]; [done|].
  cbn [search]. by rewrite Hi.
Qed.

(** What the search has written on a cell when it ends: nothing, or
    [Visited] over a cell that was neither a wall, nor the player's, nor
    the target's, and is neither the start nor the end. *)
Definition annotated (start end_ : Position) (grid grid' : Grid.t)
    (p : Position) : Prop :=
  Grid.getCell grid' p = Grid.getCell grid p \/
  (Grid.getCell grid' p = Some Visited /\ p <> start /\ p <> end_ /\
   exists ty, Grid.getCell grid p = Some ty
              /\ ty <> Wall /\ ty <> Player /\ ty <> Target).

Lemma annotated_trans (start end_ : Position) (g1 g2 g3 : Grid.t) (p : Position) :
  annotated start end_ g1 g2 p -> annotated start end_ g2 g3 p ->
  annotated start end_ g1 g3 p.
Proof.
  unfold annotated.
  intros [H12|(H12 & Hs & He & ty & Hty & Hw)]
         [H23|(H23 & Hs' & He' & ty' & Hty' & Hw')].
  - left. congruence.
  - right. rewrite <- H12. eauto 10.
  - right. rewrite H23, H12. eauto 10.
  - right. eauto 10.
Qed.

Lemma search_frame (g0 : Grid.t) (start end_ : Position) (fuel : nat)
    (p : Position) :
  forall grid openList closed,
    Inv g0 start end_ grid openList closed ->
    let grid' := (search fuel start end_ grid openList closed).1 in
    Grid.worldWidth grid' = Grid.worldWidth grid /\
    Grid.worldHeight grid' = Grid.worldHeight grid /\
    annotated start end_ grid grid' p.
Proof.
  induction fuel as [|fuel IH]; intros grid openList closed HI.
  - destruct openList; simpl; repeat split; by left.
  - destruct openList as [|a l] eqn:El.
    { simpl. repeat split; by left. }
    rewrite <- El in *. assert (Hne : openList <> []) by (by rewrite El).
    destruct (lowestIndex_spec openList Hne) as (n & Hi & Hmin).
    assert (Hn : n ∈ openList) by (by eapply list_elem_of_lookup_2).
    rewrite (search_S _ _ _ _ _ _ n Hi).
    case_decide as Hend.
    { simpl. repeat split; by left. }
    cbv zeta.
    destruct (Inv_step _ _ _ _ _ _ _ _ HI Hi Hmin Hend) as [_ HI'].
    destruct (IH _ _ _ HI') as (Hw & Hh & Hann).
    destruct (markVisited_dims start end_ grid (position n)) as [Hw1 Hh1].
    split; [congruence|]. split; [congruence|].
    eapply annotated_trans; [|exact Hann].
    destruct (markVisited_cases start end_ grid (position n) p)
      as [Hsame|(-> & Hs & Hv & ty & Hty & Hpl & Htg)]; [by left|].
    right. repeat split; try done. exists ty. repeat split; try done.
    intros ->.
    destruct (open_nodes _ _ _ _ _ (inv_open _ _ _ _ _ _ HI) n Hn) as [HnOk _].
    destruct (nodeOk_position _ _ _ HnOk) as [?|Hwk]; [done|].
    apply (inv_walkable _ _ _ _ _ _ HI) in Hwk.
    destruct Hwk as (ty & Hty' & Hnw). congruence.
Qed.

(** X1. With the fuel of [enoughFuel] or more, [findPath] ends for every
    grid, start and goal (a wall, a position outside the world, start
    and goal the same); and when it returns [null], no path of walkable
    cells joins the start to the goal. *)
Theorem findPath_ends (fuel : nat) (grid : Grid.t) (start goal : Position) :
  (enoughFuel grid <= fuel)%nat ->
  (findPath fuel grid start goal).2 <> Running /\
  ((findPath fuel grid start goal).2 = Null ->
   forall l, ~ walk grid start goal l).
Proof.
  intros Hfuel. unfold findPath, aStar.
  pose proof (search_spec grid start goal fuel _ _ _ (Inv_init grid start goal))
    as Hspec.
  destruct (search fuel start goal grid _ ∅) as [grid' [path| |]] eqn:Hrun;
    cbn [snd] in *.
  - done.
  - split; [done|]. intros _ l Hl. apply walk_reach in Hl. by eapply Hspec.
  - exfalso. rewrite enoughFuel_allCells in Hfuel. rewrite size_empty in Hspec. lia.
Qed.

Lemma findPath_ends_witness :
  let grid := Grid.mk 3 2 [[Player; Wall; Empty]; [Wall; Wall; Empty]] in
  (findPath (enoughFuel grid) grid (0, 0) (2, 0)).2 <> Running /\
  ((findPath (enoughFuel grid) grid (0, 0) (2, 0)).2 = Null ->
   forall l, ~ walk grid (0, 0) (2, 0) l).
Proof. intros grid. apply findPath_ends. done. Defined.

(** X2. Whatever [findPath] ends in, the grid it leaves has the
    dimensions of the one it was given, and each of its cells is as it
    was or is tagged [Visited]; a cell tagged by the search was not a
    wall, not the player's cell and not the target's, and is neither
    the start nor the goal.  So walls stay walls, and no cell becomes a
    wall. *)
Theorem findPath_writes_only_visited (fuel : nat) (grid : Grid.t)
    (start goal p : Position) :
  let grid' := (findPath fuel grid start goal).1 in
  Grid.worldWidth grid' = Grid.worldWidth grid /\
  Grid.worldHeight grid' = Grid.worldHeight grid /\
  (Grid.getCell grid' p = Grid.getCell grid p \/
   (Grid.getCell grid' p = Some Visited /\ p <> start /\ p <> goal /\
    exists ty, Grid.getCell grid p = Some ty
               /\ ty <> Wall /\ ty <> Player /\ ty <> Target)) /\
  (Grid.getCell grid' p = Some Wall <-> Grid.getCell grid p = Some Wall).
Proof.
  intros grid'.
  destruct (search_frame grid start goal fuel p _ _ _ (Inv_init grid start goal))
    as (Hw & Hh & Hann).
  fold (aStar fuel grid start goal) in Hw, Hh, Hann.
  fold (findPath fuel grid start goal) in Hw, Hh, Hann. fold grid' in Hw, Hh, Hann.
  split; [done|]. split; [done|]. split; [exact Hann|].
  destruct Hann as [->|(Hv & _ & _ & ty & Hty & Hnw & _)]; [done|].
  rewrite Hv, Hty. split; congruence.
Qed.

(** *** Which of the nodes with the lowest [f] is taken *)

Lemma lowestFrom_first (pre suf : list CellNode) (cur : nat) (c : CellNode) :
  (pre ++ suf) !! cur = Some c ->
  (forall m, m ∈ pre -> f c <= f m) ->
  (forall j m, (j < cur)%nat -> (pre ++ suf) !! j = Some m -> f c < f m) ->
  (cur <= length pre)%nat ->
  exists n, (pre ++ suf) !! lowestFrom suf (length pre) cur (f c) = Some n
            /\ (forall m, m ∈ pre ++ suf -> f n <= f m)
            /\ (forall j m, (j < lowestFrom suf (length pre) cur (f c))%nat ->
                            (pre ++ suf) !! j = Some m -> f n < f m).
Proof.
  revert pre cur c. induction suf as [|a suf IH]; intros pre cur c Hc Hpre Hlt Hcur.
  - simpl. exists c. split; [done|]. split; [|done].
    intros m. rewrite app_nil_r. auto.
  - simpl. replace (pre ++ a :: suf) with ((pre ++ [a]) ++ suf) in *
      by (by rewrite <- app_assoc).
    replace (Datatypes.S (length pre)) with (length (pre ++ [a]))
      by (rewrite length_app; simpl; lia).
    assert (Ha : ((pre ++ [a]) ++ suf) !! length pre = Some a).
    { rewrite lookup_app_l by (rewrite length_app; simpl; lia).
      rewrite lookup_app_r by lia. by rewrite Nat.sub_diag. }
    destruct (f a <? f c) eqn:E.
    + apply IH.
      * exact Ha.
      * intros m [Hm| ->%list_elem_of_singleton]%elem_of_app; [|lia].
        specialize (Hpre m Hm). lia.
      * intros j m Hj Hm.
        rewrite lookup_app_l in Hm by (rewrite length_app; simpl; lia).
        rewrite lookup_app_l in Hm by lia.
        apply list_elem_of_lookup_2, Hpre in Hm. lia.
      * rewrite length_app. simpl. lia.
    + apply IH; [done| |done|rewrite length_app; simpl; lia].
      intros m [Hm| ->%list_elem_of_singleton]%elem_of_app; [auto|lia].
Qed.

(** X3. On a non-empty open list, [lowestIndex] is the index of a node
    whose [f] is the lowest of the list, and the first such index: every
    node before it has a strictly higher [f]. *)
Theorem lowestIndex_first_minimum (openList : list CellNode) :
  openList <> [] ->
  exists n, openList !! lowestIndex openList = Some n
            /\ (forall m, m ∈ openList -> f n <= f m)
            /\ (forall j m, (j < lowestIndex openList)%nat ->
                            openList !! j = Some m -> f n < f m).
Proof.
  destruct openList as [|a l]; [done|]. intros _. unfold lowestIndex.
  apply (lowestFrom_first [] (a :: l) 0 a); [done| | |simpl; lia].
  - intros m Hm. by apply elem_of_nil in Hm.
  - intros j m Hj. lia.
Qed.

Lemma lowestIndex_first_minimum_witness :
  let node := fun x fx => mkNode (x, 0) fx 0 fx None in
  let openList := [node 0 7; node 1 4; node 2 9; node 3 4] in
  exists n, openList !! lowestIndex openList = Some n
            /\ (forall m, m ∈ openList -> f n <= f m)
            /\ (forall j m, (j < lowestIndex openList)%nat ->
                            openList !! j = Some m -> f n < f m).
Proof. intros node openList. apply lowestIndex_first_minimum. done. Defined.

End SearchFacts.

(** ** The world grid: creation, reset, neighbours, empty positions *)

Module WorldGridFacts.

(** Every position inside the bounds has a cell (as after
    [initializeWorld]; [this.cells[y][x]] is then defined wherever the
    loops over the world read it). *)
Definition complete (g : Grid.t) : Prop :=
  forall p, Grid.isWithinWorldBounds g p = true -> is_Some (get2 (Grid.cells g) p).

Lemma complete_getCell (g : Grid.t) (p : Position) :
  complete g ->
  0 <= px p < Grid.worldWidth g -> 0 <= py p < Grid.worldHeight g ->
  is_Some (Grid.getCell g p).
Proof.
  intros Hc Hx Hy. unfold Grid.getCell.
  assert (Hb : Grid.isWithinWorldBounds g p = true) by (apply bounds_spec; lia).
  rewrite Hb. by apply Hc.
Qed.

Lemma getCell_initializeWorld (w h : Z) (p : Position) :
  Grid.getCell (Grid.initializeWorld w h) p
  = if decide (0 <= px p < w /\ 0 <= py p < h) then Some Empty else None.
Proof.
  unfold Grid.getCell.
  destruct (Grid.isWithinWorldBounds _ p) eqn:Hb.
  - apply bounds_spec in Hb. simpl in Hb. rewrite decide_True by lia.
    unfold get2. simpl.
    rewrite (lookup_replicate_2 _ _ (Z.to_nat (py p))) by lia. simpl.
    by rewrite lookup_replicate_2 by lia.
  - rewrite decide_False; [done|]. intros Hin.
    assert (Grid.isWithinWorldBounds (Grid.initializeWorld w h) p = true)
      by (apply bounds_spec; simpl; lia).
    congruence.
Qed.

(** X4. After [initializeWorld] the world has an [Empty] cell at every
    position inside its bounds and no cell outside them, whatever the
    dimensions are (none at all when one of them is not positive). *)
Theorem initializeWorld_cells (w h : Z) (p : Position) :
  complete (Grid.initializeWorld w h) /\
  (Grid.getCell (Grid.initializeWorld w h) p = Some Empty
   <-> 0 <= px p < w /\ 0 <= py p < h) /\
  (Grid.getCell (Grid.initializeWorld w h) p = None
   <-> ~ (0 <= px p < w /\ 0 <= py p < h)).
Proof.
  split; [|split].
  - intros q Hq. pose proof (getCell_initializeWorld w h q) as H.
    unfold Grid.getCell in H. rewrite Hq in H. rewrite H.
    apply bounds_spec in Hq. simpl in Hq. rewrite decide_True by lia. eauto.
  - rewrite getCell_initializeWorld. case_decide; split; try done.
  - rewrite getCell_initializeWorld. case_decide; split; try done.
Qed.

Lemma resetCell_getCell (g : Grid.t) (p q : Position) :
  is_Some (Grid.getCell g p) ->
  Grid.getCell (Grid.resetCell g p) q
  = if decide (q = p) then Some Empty else Grid.getCell g q.
Proof. apply getCell_setType. Qed.

Lemma set2_None {A : Type} (a : list (list A)) (p : Position) (v : A) :
  get2 a p = None -> set2 a p v = a.
Proof.
  unfold get2, set2. intros H.
  transitivity (alter (fun row : list A => row) (Z.to_nat (py p)) a).
  - apply list_alter_ext; [|done]. intros row Hrow. rewrite Hrow in H. simpl in H.
    apply list_insert_ge. by apply lookup_ge_None.
  - by apply list_alter_id.
Qed.

Lemma reset_getCell (g : Grid.t) :
  Grid.worldWidth (Grid.reset g) = Grid.worldWidth g /\
  Grid.worldHeight (Grid.reset g) = Grid.worldHeight g /\
  forall q, Grid.getCell (Grid.reset g) q = (fun _ => Empty) <$> Grid.getCell g q.
Proof.
  apply (cells_loop (fun g : Grid.t => g) (fun x y g => Grid.resetCell g (x, y))
           (fun _ _ => Empty) g).
  intros x y s Hx Hy. split; [done|]. split; [done|]. intros q.
  destruct (Grid.getCell s (x, y)) as [ty|] eqn:E.
  - rewrite resetCell_getCell by eauto. case_decide; [subst; by rewrite E|done].
  - assert (Hsame : Grid.resetCell s (x, y) = s).
    { unfold Grid.resetCell, Grid.setType. destruct s as [w h cs]. simpl. f_equal.
      apply set2_None. unfold Grid.getCell in E.
      assert (Hb : Grid.isWithinWorldBounds (Grid.mk w h cs) (x, y) = true)
        by (apply bounds_spec; simpl in *; unfold px, py; simpl; lia).
      by rewrite Hb in E. }
    rewrite Hsame. case_decide; [subst; by rewrite E|done].
Qed.

(** X5. On a world that has all its cells, [reset] leaves every cell
    [Empty] (walls and the player's cell included) and keeps the
    dimensions. *)
Theorem reset_all_empty (g : Grid.t) (p : Position) :
  complete g ->
  Grid.worldWidth (Grid.reset g) = Grid.worldWidth g /\
  Grid.worldHeight (Grid.reset g) = Grid.worldHeight g /\
  Grid.getCell (Grid.reset g) p
  = if decide (0 <= px p < Grid.worldWidth g /\ 0 <= py p < Grid.worldHeight g)
    then Some Empty else None.
Proof.
  intros Hc. destruct (reset_getCell g) as (Hw & Hh & Hq).
  split; [done|]. split; [done|]. rewrite Hq. case_decide as Hin.
  - destruct (complete_getCell g p Hc) as [ty ->]; [lia|lia|done].
  - destruct (Grid.getCell g p) eqn:E; [|done]. apply getCell_bounds in E. lia.
Qed.

Lemma reset_all_empty_witness :
  let g := Grid.mk 2 2 [[Player; Wall]; [Visited; QueuedTarget]] in
  Grid.getCell (Grid.reset g) (1, 0) = Some Empty /\
  Grid.getCell (Grid.reset g) (2, 0) = None.
Proof.
  intros g.
  assert (Hc : complete g).
  { intros [x y] Hb. apply bounds_spec in Hb. unfold px, py in Hb. simpl in Hb.
    assert (Hx : x = 0 \/ x = 1) by lia. assert (Hy : y = 0 \/ y = 1) by lia.
    destruct Hx as [->| ->], Hy as [->| ->]; by eexists. }
  split.
  - by destruct (reset_all_empty g (1, 0) Hc) as (_ & _ & ->).
  - by destruct (reset_all_empty g (2, 0) Hc) as (_ & _ & ->).
Defined.

Lemma candidate_length (g : Grid.t) (q : Position) : (length (candidate g q) <= 1)%nat.
Proof.
  unfold candidate. destruct (Grid.getCell g q) as [ty|]; [|simpl; lia].
  destruct (Cell.isWalkable ty); simpl; lia.
Qed.

(** X6. [getNeighbors] returns the positions one unit step away (up,
    right, down, left; no diagonal) whose cell exists and is not a wall,
    and nothing else: each of them once, so at most four. *)
Theorem getNeighbors_exact (g : Grid.t) (p : Position) :
  (forall q, q ∈ Grid.getNeighbors g p <-> step p q /\ walkable g q) /\
  NoDup (Grid.getNeighbors g p) /\
  (length (Grid.getNeighbors g p) <= 4)%nat.
Proof.
  split; [intros q; apply getNeighbors_spec|].
  rewrite getNeighbors_candidates. split.
  - rewrite !NoDup_app. destruct p as [x y]. unfold px, py. simpl.
    assert (Hnd : forall q, NoDup (candidate g q)).
    { intros q. unfold candidate. destruct (Grid.getCell g q) as [ty|];
        [destruct (Cell.isWalkable ty)|]; try apply NoDup_nil_2.
      apply NoDup_singleton. }
    repeat split; try apply Hnd; intros q; rewrite ?elem_of_app, !elem_of_candidate;
      intros [-> _]; intros H; repeat destruct H as [H|H];
      destruct H as [H _]; injection H; lia.
  - rewrite !length_app.
    pose proof (candidate_length g (px p, py p - 1)).
    pose proof (candidate_length g (px p + 1, py p)).
    pose proof (candidate_length g (px p, py p + 1)).
    pose proof (candidate_length g (px p - 1, py p)). lia.
Qed.

(** *** Loops that may throw *)

Lemma forRangeC_empty {S : Type} (lo hi : Z) (body : Z -> S -> Completion S) (s : S) :
  hi <= lo -> forRangeC lo hi body s = Normal s.
Proof. intros H. unfold forRangeC. by rewrite seqZ_nil by lia. Qed.

Lemma forRangeC_snoc {S : Type} (lo hi : Z) (body : Z -> S -> Completion S) (s : S) :
  lo <= hi ->
  forRangeC lo (hi + 1) body s = forRangeC lo hi body s ≫= body hi.
Proof.
  intros H. unfold forRangeC.
  replace (hi + 1 - lo) with (Z.of_nat (Datatypes.S (Z.to_nat (hi - lo)))) by lia.
  rewrite seqZ_S, foldl_app. simpl.
  replace (Z.of_nat (Z.to_nat (hi - lo))) with (hi - lo) by lia.
  by replace (lo + (hi - lo)) with hi by lia.
Qed.

Lemma forRangeC_inv {S : Type} (I : Z -> S -> Prop) (lo hi : Z)
    (body : Z -> S -> Completion S) (s : S) :
  lo <= hi ->
  I lo s ->
  (forall i s, lo <= i < hi -> I i s ->
               exists s', body i s = Normal s' /\ I (i + 1) s') ->
  exists s', forRangeC lo hi body s = Normal s' /\ I hi s'.
Proof.
  intros Hle H0 Hstep.
  assert (Hn : forall n : nat, lo + Z.of_nat n <= hi ->
             exists s', forRangeC lo (lo + Z.of_nat n) body s = Normal s'
                        /\ I (lo + Z.of_nat n) s').
  { induction n as [|n IH]; intros Hn.
    - rewrite Z.add_0_r. rewrite forRangeC_empty by lia. eauto.
    - destruct IH as (s1 & Hrun & HI); [lia|].
      replace (lo + Z.of_nat (Datatypes.S n)) with (lo + Z.of_nat n + 1) by lia.
      rewrite forRangeC_snoc by lia. rewrite Hrun. simpl.
      apply Hstep; [lia|done]. }
  specialize (Hn (Z.to_nat (hi - lo))).
  replace (lo + Z.of_nat (Z.to_nat (hi - lo))) with hi in Hn by lia.
  apply Hn. lia.
Qed.

(** The list that [getRandomEmptyPosition] draws from holds the
    positions of the [Empty] cells, and only them. *)
Lemma emptyCells_spec (g : Grid.t) :
  complete g ->
  exists l, Viewport.emptyCells g = Normal l
            /\ forall p, p ∈ l <-> Grid.getCell g p = Some Empty.
Proof.
  intros Hc. unfold Viewport.emptyCells.
  set (W := Grid.worldWidth g). set (H := Grid.worldHeight g).
  pose (I := fun (y : Z) (l : list Position) =>
    forall p, p ∈ l <-> Grid.getCell g p = Some Empty /\ py p < y).
  pose (J := fun (y x : Z) (l : list Position) =>
    forall p, p ∈ l <-> Grid.getCell g p = Some Empty
                        /\ (py p < y \/ (py p = y /\ px p < x))).
  assert (Hrow : forall y l, 0 <= y < H -> I y l ->
            exists l', forRangeC 0 W (fun x emptyCells =>
                         match get2 (Grid.cells g) (x, y) with
                         | Some ty =>
                             Normal (if decide (ty = Empty)
                                     then emptyCells ++ [(x, y)] else emptyCells)
                         | None => Throw
                         end) l = Normal l' /\ I (y + 1) l').
  { intros y l Hy HI.
    destruct (decide (0 <= W)) as [HW|HW].
    - destruct (forRangeC_inv (J y) 0 W
                  (fun x emptyCells =>
                     match get2 (Grid.cells g) (x, y) with
                     | Some ty =>
                         Normal (if decide (ty = Empty)
                                 then emptyCells ++ [(x, y)] else emptyCells)
                     | None => Throw
                     end) l HW) as (l' & Hrun & HJ).
      + intros p. rewrite (HI p). split; [intros [? ?]; split; [done|by left]|].
        intros [He [?|[Hpy Hpx]]]; [done|]. apply getCell_bounds in He. lia.
      + intros x l0 Hx HJ.
        destruct (complete_getCell g (x, y) Hc) as [ty Hty];
          [unfold px; simpl; lia|unfold py; simpl; lia|].
        rewrite (getCell_get2 _ _ _ Hty). eexists. split; [done|].
        intros p. case_decide as Hemp.
        * subst ty. rewrite elem_of_app, list_elem_of_singleton, (HJ p). split.
          -- intros [[He Hp]| ->]; [split; [done|lia]|].
             split; [done|]. right. unfold px, py. simpl. lia.
          -- intros [He [Hp|[Hpy Hpx]]]; [left; split; [done|by left]|].
             destruct (decide (px p = x)) as [Hpx'|Hpx'].
             ++ right. destruct p as [a b]. unfold px, py in *. simpl in *. congruence.
             ++ left. split; [done|]. right. lia.
        * rewrite (HJ p). split.
          -- intros [He Hp]. split; [done|lia].
          -- intros [He [Hp|[Hpy Hpx]]]; [split; [done|by left]|].
             split; [done|]. right. split; [done|].
             assert (px p <> x); [|lia]. intros Hpx'. apply Hemp.
             destruct p as [a b]. unfold px, py in *. simpl in *. subst.
             congruence.
      + exists l'. split; [done|]. intros p. rewrite (HJ p). split.
        * intros [He [?|[? ?]]]; (split; [done|lia]).
        * intros [He Hp]. split; [done|]. apply getCell_bounds in He. fold W in He. lia.
    - rewrite forRangeC_empty by lia. exists l. split; [done|].
      intros p. rewrite (HI p). split; [intros [? ?]; split; [done|lia]|].
      intros [He _]. apply getCell_bounds in He. fold W in He. lia. }
  destruct (decide (0 <= H)) as [HH|HH].
  - destruct (forRangeC_inv I 0 H
                (fun y => forRangeC 0 W (fun x emptyCells =>
                   match get2 (Grid.cells g) (x, y) with
                   | Some ty =>
                       Normal (if decide (ty = Empty)
                               then emptyCells ++ [(x, y)] else emptyCells)
                   | None => Throw
                   end)) [] HH) as (l & Hrun & HI).
    + intros p. split; [by intros ?%elem_of_nil|].
      intros [He Hp]. apply getCell_bounds in He. lia.
    + intros y l Hy HI. by apply Hrow.
    + exists l. split; [done|]. intros p. rewrite (HI p). split; [by intros [? _]|].
      intros He. split; [done|]. apply getCell_bounds in He. fold H in He. lia.
  - rewrite forRangeC_empty by lia. exists []. split; [done|].
    intros p. split; [by intros ?%elem_of_nil|].
    intros He. apply getCell_bounds in He. fold H in He. lia.
Qed.

(** X7. On a world that has all its cells, [getRandomEmptyPosition]
    returns without an error, whatever [Math.random()] yields; a
    position it returns is the position of an [Empty] cell of the world;
    and it returns [null] when the world has no [Empty] cell. *)
Theorem getRandomEmptyPosition_sound (mathRandom : float) (g : Grid.t) :
  complete g ->
  exists result,
    Viewport.getRandomEmptyPosition mathRandom g = Normal result
    /\ (forall p, result = Some p -> Grid.getCell g p = Some Empty)
    /\ ((forall p, Grid.getCell g p <> Some Empty) -> result = None).
Proof.
  intros Hc. destruct (emptyCells_spec g Hc) as (l & Hl & Hin).
  unfold Viewport.getRandomEmptyPosition. rewrite Hl. simpl.
  destruct (Z.of_nat (length l) =? 0) eqn:Hlen.
  - eexists. split; [done|]. split; [done|done].
  - eexists. split; [done|]. split.
    + intros p Hp. apply Hin. destruct (0 <=? _); [|done].
      by eapply list_elem_of_lookup_2.
    + intros Hnone. destruct l as [|q l]; [done|].
      exfalso. apply (Hnone q), Hin. by left.
Qed.

Lemma getRandomEmptyPosition_sound_witness :
  let g := Grid.mk 2 2 [[Player; Wall]; [Wall; Empty]] in
  exists result,
    Viewport.getRandomEmptyPosition 0.75%float g = Normal result
    /\ (forall p, result = Some p -> Grid.getCell g p = Some Empty)
    /\ ((forall p, Grid.getCell g p <> Some Empty) -> result = None).
Proof.
  intros g. apply getRandomEmptyPosition_sound.
  intros [x y] Hb. apply bounds_spec in Hb. unfold px, py in Hb. simpl in Hb.
  assert (Hx : x = 0 \/ x = 1) by lia. assert (Hy : y = 0 \/ y = 1) by lia.
  destruct Hx as [->| ->], Hy as [->| ->]; by eexists.
Defined.

End WorldGridFacts.

(** ** The viewport *)

Module ViewportFacts.
Import Viewport.

(** The window lies inside the world on each axis on which the world is
    at least as large as the window, and sits at offset 0 on the others. *)
Definition clamped (v : t) : Prop :=
  0 <= viewportX v /\ 0 <= viewportY v /\
  (viewWidth v <= Grid.worldWidth (world v) ->
   viewportX v + viewWidth v <= Grid.worldWidth (world v)) /\
  (Grid.worldWidth (world v) <= viewWidth v -> viewportX v = 0) /\
  (viewHeight v <= Grid.worldHeight (world v) ->
   viewportY v + viewHeight v <= Grid.worldHeight (world v)) /\
  (Grid.worldHeight (world v) <= viewHeight v -> viewportY v = 0).

Lemma centerViewportOn_clamped (p : Position) (v : t) :
  clamped (centerViewportOn p v).
Proof. unfold clamped, centerViewportOn. simpl. lia. Qed.

Lemma centerViewportOn_world (p : Position) (v : t) :
  world (centerViewportOn p v) = world v.
Proof. done. Qed.

Lemma centerViewportOn_visible (p : Position) (v : t) :
  1 <= viewWidth v -> 1 <= viewHeight v ->
  0 <= px p < Grid.worldWidth (world v) ->
  0 <= py p < Grid.worldHeight (world v) ->
  isWithinViewport (centerViewportOn p v) p = true.
Proof.
  intros Hw Hh Hx Hy. unfold isWithinViewport, centerViewportOn. simpl.
  assert (viewWidth v / 2 < viewWidth v) by (apply Z.div_lt; lia).
  assert (viewHeight v / 2 < viewHeight v) by (apply Z.div_lt; lia).
  assert (0 <= viewWidth v / 2) by (apply Z.div_pos; lia).
  assert (0 <= viewHeight v / 2) by (apply Z.div_pos; lia).
  repeat (apply andb_true_intro; split); lia.
Qed.

(** X8. After [moveViewport] (by any amounts, from any offset) and after
    [centerViewportOn] (on any position), the offsets are not negative,
    the window lies inside the world on each axis on which the world is
    at least as large as the window, and the offset is 0 on an axis on
    which it is not; neither changes the size of the window or the
    world. *)
Theorem viewport_stays_clamped (deltaX deltaY : Z) (p : Position) (v : t) :
  clamped (moveViewport deltaX deltaY v) /\
  clamped (centerViewportOn p v) /\
  world (moveViewport deltaX deltaY v) = world v /\
  viewWidth (moveViewport deltaX deltaY v) = viewWidth v /\
  viewHeight (moveViewport deltaX deltaY v) = viewHeight v.
Proof.
  split; [|split; [apply centerViewportOn_clamped|]].
  - unfold clamped, moveViewport. cbv zeta.
    destruct (_ || _) eqn:E; simpl; [lia|].
    apply orb_false_elim in E as [E1 E2].
    apply negb_false_iff, Z.eqb_eq in E1. apply negb_false_iff, Z.eqb_eq in E2.
    lia.
  - unfold moveViewport. cbv zeta. by destruct (_ || _).
Qed.

(** X9. The two conversions between world and view coordinates are
    inverse to each other on the window: [worldToViewPosition] returns a
    position exactly for the world positions that [isWithinViewport]
    accepts, the position it returns lies in the window and
    [viewToWorldPosition] maps it back; and a position of the window,
    taken to the world and back, is itself. *)
Theorem view_world_round_trip (v : t) (p q : Position) :
  (isWithinViewport v p = true <-> is_Some (worldToViewPosition v p)) /\
  (worldToViewPosition v p = Some q ->
   viewToWorldPosition v q = p
   /\ 0 <= px q < viewWidth v /\ 0 <= py q < viewHeight v) /\
  (0 <= px q < viewWidth v -> 0 <= py q < viewHeight v ->
   worldToViewPosition v (viewToWorldPosition v q) = Some q).
Proof.
  unfold isWithinViewport, worldToViewPosition, viewToWorldPosition.
  destruct p as [x y], q as [a b]. unfold px, py. simpl. split; [|split].
  - destruct ((0 <=? x - viewportX v) && (x - viewportX v <? viewWidth v)
              && (0 <=? y - viewportY v) && (y - viewportY v <? viewHeight v)) eqn:E.
    + split; [eauto|]. intros _.
      repeat (apply andb_prop in E as [E ?]).
      repeat (apply andb_true_intro; split); lia.
    + split; [|by intros [? ?]]. intros H. exfalso.
      repeat (apply andb_prop in H as [H ?]).
      assert (E' : (0 <=? x - viewportX v) && (x - viewportX v <? viewWidth v)
                   && (0 <=? y - viewportY v) && (y - viewportY v <? viewHeight v)
                   = true) by (repeat (apply andb_true_intro; split); lia).
      congruence.
  - destruct ((0 <=? x - viewportX v) && (x - viewportX v <? viewWidth v)
              && (0 <=? y - viewportY v) && (y - viewportY v <? viewHeight v)) eqn:E;
      [|done].
    intros [= <- <-]. repeat (apply andb_prop in E as [E ?]).
    split; [f_equal; lia|lia].
  - intros Ha Hb.
    replace (a + viewportX v - viewportX v) with a by lia.
    replace (b + viewportY v - viewportY v) with b by lia.
    assert (E : (0 <=? a) && (a <? viewWidth v) && (0 <=? b) && (b <? viewHeight v)
                = true) by (repeat (apply andb_true_intro; split); lia).
    by rewrite E.
Qed.

End ViewportFacts.

(** ** The player and its trail *)

Module PlayerFacts.
Import Player.

Lemma updatePlayerPosition_getCell (p q : Position) (g : Grid.t) :
  is_Some (Grid.getCell g p) ->
  Grid.getCell (updatePlayerPosition p g) q
  = if decide (q = p) then Some Player else Grid.getCell g q.
Proof.
  intros Hp. unfold updatePlayerPosition. destruct Hp as [ty Hty]. rewrite Hty.
  apply getCell_setType. eauto.
Qed.

Lemma updatePlayerPosition_dims (p : Position) (g : Grid.t) :
  Grid.worldWidth (updatePlayerPosition p g) = Grid.worldWidth g /\
  Grid.worldHeight (updatePlayerPosition p g) = Grid.worldHeight g.
Proof. unfold updatePlayerPosition. by destruct (Grid.getCell g p). Qed.

Lemma moveTo_cells (p : Position) (pl : t) (v : Viewport.t) (q : Position) :
  is_Some (Grid.getCell (Viewport.world v) (position pl)) ->
  is_Some (Grid.getCell (Viewport.world v) p) ->
  Grid.getCell (Viewport.world (moveTo p pl v).2) q
  = if decide (q = p) then Some Player
    else if decide (q = position pl) then Some PlayerTrail
    else Grid.getCell (Viewport.world v) q.
Proof.
  intros [ty0 Hty0] Hp. unfold moveTo. rewrite Hty0. simpl.
  rewrite updatePlayerPosition_getCell.
  - case_decide; [done|]. apply getCell_setType. eauto.
  - rewrite getCell_setType by eauto. case_decide; eauto.
Qed.

(** X10. [moveTo(p)], with the player on a cell of the world and [p] a
    cell of the world: the player is at [p] and that cell is tagged
    [Player]; the cell that was left is tagged [PlayerTrail] (unless it
    is [p] itself) and its position is added to the trail; no other cell
    changes; and the viewport, centred on [p], shows [p] (its window
    being at least one cell wide and high). *)
Theorem moveTo_spec (p : Position) (pl : t) (v : Viewport.t) :
  is_Some (Grid.getCell (Viewport.world v) (position pl)) ->
  is_Some (Grid.getCell (Viewport.world v) p) ->
  1 <= Viewport.viewWidth v -> 1 <= Viewport.viewHeight v ->
  position (moveTo p pl v).1 = p /\
  trailCells (moveTo p pl v).1 = trailCells pl ++ [position pl] /\
  (forall q, Grid.getCell (Viewport.world (moveTo p pl v).2) q
             = if decide (q = p) then Some Player
               else if decide (q = position pl) then Some PlayerTrail
               else Grid.getCell (Viewport.world v) q) /\
  Viewport.isWithinViewport (moveTo p pl v).2 p = true /\
  ViewportFacts.clamped (moveTo p pl v).2.
Proof.
  intros Hpos Hp Hw Hh.
  split; [|split; [|split; [intros q; by apply moveTo_cells|]]].
  - unfold moveTo. by destruct (Grid.getCell _ (position pl)).
  - unfold moveTo. by destruct Hpos as [ty ->].
  - destruct Hp as [ty Hty]. pose proof (getCell_bounds _ _ _ Hty) as [Hx Hy].
    unfold moveTo. destruct Hpos as [ty0 ->]. simpl. split.
    + apply ViewportFacts.centerViewportOn_visible; simpl; try done.
      * by rewrite (proj1 (updatePlayerPosition_dims _ _)), setType_width.
      * by rewrite (proj2 (updatePlayerPosition_dims _ _)), setType_height.
    + apply ViewportFacts.centerViewportOn_clamped.
Qed.

Lemma moveTo_spec_witness :
  let v := Viewport.mk (Grid.mk 3 1 [[Player; Empty; Wall]]) 1 1 0 0 in
  let pl := Player.mk (0, 0) [] in
  position (moveTo (1, 0) pl v).1 = (1, 0) /\
  trailCells (moveTo (1, 0) pl v).1 = [(0, 0)] /\
  Grid.getCell (Viewport.world (moveTo (1, 0) pl v).2) (0, 0) = Some PlayerTrail /\
  Viewport.isWithinViewport (moveTo (1, 0) pl v).2 (1, 0) = true.
Proof.
  intros v pl.
  destruct (moveTo_spec (1, 0) pl v) as (H1 & H2 & H3 & H4 & _);
    [by eexists|by eexists|simpl; lia|simpl; lia|].
  split; [exact H1|]. split; [exact H2|]. split; [|exact H4].
  by rewrite H3.
Defined.

Lemma clearTrail_fold (l : list Position) (g : Grid.t) :
  let g' := foldl (fun g pos =>
                     match Grid.getCell g pos with
                     | Some PlayerTrail => Grid.resetCell g pos
                     | _ => g
                     end) g l in
  Grid.worldWidth g' = Grid.worldWidth g /\
  Grid.worldHeight g' = Grid.worldHeight g /\
  forall q, Grid.getCell g' q
            = if decide (q ∈ l /\ Grid.getCell g q = Some PlayerTrail)
              then Some Empty else Grid.getCell g q.
Proof.
  revert g. induction l as [|a l IH]; intros g; cbv zeta.
  - cbn [foldl]. split; [done|]. split; [done|]. intros q.
    case_decide as H; [|done]. destruct H as [H _]. by apply elem_of_nil in H.
  - cbn [foldl].
    set (g1 := match Grid.getCell g a with
               | Some PlayerTrail => Grid.resetCell g a
               | _ => g
               end).
    assert (H1 : Grid.worldWidth g1 = Grid.worldWidth g /\
                 Grid.worldHeight g1 = Grid.worldHeight g /\
                 forall q, Grid.getCell g1 q
                           = if decide (q = a /\ Grid.getCell g q = Some PlayerTrail)
                             then Some Empty else Grid.getCell g q).
    { subst g1. destruct (Grid.getCell g a) as [ty|] eqn:E.
      - destruct (decide (ty = PlayerTrail)) as [->|Hty].
        + split; [done|]. split; [done|]. intros q.
          unfold Grid.resetCell. rewrite getCell_setType by eauto.
          repeat case_decide; try done; subst; tauto.
        + assert (Hsame : match ty with
                          | PlayerTrail => Grid.resetCell g a
                          | _ => g
                          end = g) by (by destruct ty).
          rewrite Hsame. split; [done|]. split; [done|]. intros q.
          case_decide as H; [|done]. destruct H as [-> Hq]. congruence.
      - split; [done|]. split; [done|]. intros q.
        case_decide as H; [|done]. destruct H as [-> Hq]. congruence. }
    destruct H1 as (Hw1 & Hh1 & Hc1). destruct (IH g1) as (Hw & Hh & Hc).
    split; [congruence|]. split; [congruence|]. intros q. rewrite Hc, !Hc1.
    destruct (decide (q = a /\ Grid.getCell g q = Some PlayerTrail)) as [[-> Ht]|Hn].
    + destruct (decide (a ∈ l /\ Some Empty = Some PlayerTrail)) as [[_ ?]|_]; [done|].
      destruct (decide (a ∈ a :: l /\ Grid.getCell g a = Some PlayerTrail))
        as [_|Hn]; [done|].
      exfalso. apply Hn. split; [by left|done].
    + destruct (decide (q ∈ l /\ Grid.getCell g q = Some PlayerTrail)) as [[Hl Ht]|Hn1];
        destruct (decide (q ∈ a :: l /\ Grid.getCell g q = Some PlayerTrail))
          as [[Hl' Ht']|Hn2]; try done.
      * exfalso. apply Hn2. split; [by right|done].
      * exfalso. apply elem_of_cons in Hl' as [->|Hl']; [by apply Hn|by apply Hn1].
Qed.

(** X11. [clearTrail] empties the recorded trail, keeps the player's
    position, and resets to [Empty] the cells whose position is recorded
    in the trail and that are still tagged [PlayerTrail]; every other
    cell is as it was (so a recorded cell that has since become the
    player's, a target or a queued target is kept). *)
Theorem clearTrail_spec (pl : t) (g : Grid.t) (q : Position) :
  trailCells (clearTrail pl g).1 = [] /\
  position (clearTrail pl g).1 = position pl /\
  Grid.worldWidth (clearTrail pl g).2 = Grid.worldWidth g /\
  Grid.worldHeight (clearTrail pl g).2 = Grid.worldHeight g /\
  Grid.getCell (clearTrail pl g).2 q
  = if decide (q ∈ trailCells pl /\ Grid.getCell g q = Some PlayerTrail)
    then Some Empty else Grid.getCell g q.
Proof.
  destruct (clearTrail_fold (trailCells pl) g) as (Hw & Hh & Hc).
  unfold clearTrail. simpl. repeat split; try done.
Qed.

End PlayerFacts.

(** ** The connectivity stage, exactly *)

Module ConnectivityFacts.
Import WorldGenerator WorldGeneratorFacts.

Lemma connected_trans (P : Position -> Prop) (a b c : Position) :
  connected P a b -> connected P b c -> connected P a c.
Proof.
  intros Hab. induction 1 as [Hb|p q _ IH Hst Hq]; [done|].
  eapply connected_step; eauto.
Qed.

Lemma connected_start (P : Position -> Prop) (a b : Position) :
  connected P a b -> P a.
Proof. induction 1; auto. Qed.

Lemma connected_end (P : Position -> Prop) (a b : Position) :
  connected P a b -> P b.
Proof. destruct 1; auto. Qed.

Section Closure.
Variable w : t.

(** The positions marked between [v0] and [v] have all their walkable
    neighbours marked in [v]. *)
Definition closedSince (v0 v : list (list bool)) : Prop :=
  forall p q, inWorld w p -> readVisited v p = true -> readVisited v0 p = false ->
              step p q -> inWorld w q -> walkable (grid w) q ->
              readVisited v q = true.

Lemma grows_refl v : grows w v v.
Proof. by intros p. Qed.

Lemma grows_trans v1 v2 v3 : grows w v1 v2 -> grows w v2 v3 -> grows w v1 v3.
Proof. intros H12 H23 p Hp Hv. by apply H23, H12. Qed.

Lemma floodFill_closed (fuel : nat) :
  forall x y st st',
    floodFill fuel w x y st = Normal st' ->
    sized w st.1 ->
    sized w st'.1 /\ grows w st.1 st'.1 /\ closedSince st.1 st'.1 /\
    (inWorld w (x, y) -> walkable (grid w) (x, y) ->
     readVisited st'.1 (x, y) = true).
Proof.
  induction fuel as [|fuel IH]; intros x y [visited rc] st'; [done|].
  simpl. intros Hrun Hs.
  assert (Hstay : st' = (visited, rc) ->
            (inWorld w (x, y) -> walkable (grid w) (x, y) ->
             readVisited visited (x, y) = true) ->
            sized w st'.1 /\ grows w visited st'.1 /\ closedSince visited st'.1 /\
            (inWorld w (x, y) -> walkable (grid w) (x, y) ->
             readVisited st'.1 (x, y) = true)).
  { intros -> Hxy. simpl. split; [done|]. split; [apply grows_refl|].
    split; [|done]. intros p q _ Hv Hv0. congruence. }
  destruct (negb (isWithinBounds w x y) || readVisited visited (x, y)) eqn:Hguard.
  { injection Hrun as <-. apply Hstay; [done|]. intros Hin _.
    apply orb_true_iff in Hguard as [Hout|Hv]; [|done].
    apply negb_true_iff in Hout. apply isWithinBounds_spec in Hin. congruence. }
  apply orb_false_iff in Hguard as [Hin%negb_false_iff%isWithinBounds_spec Hv].
  destruct (Grid.getCell (grid w) (x, y)) as [ty|] eqn:Hcell.
  2:{ injection Hrun as <-. apply Hstay; [done|]. intros _ (ty & Hty & _). congruence. }
  assert (Hgo : ty <> Wall ->
     (st1 ← floodFill fuel w (x + 1) y
               (set2 visited (x, y) true, rc ++ [(x, y)]);
      st2 ← floodFill fuel w (x - 1) y st1;
      st3 ← floodFill fuel w x (y + 1) st2;
      floodFill fuel w x (y - 1) st3) = Normal st' ->
     sized w st'.1 /\ grows w visited st'.1 /\ closedSince visited st'.1 /\
     (inWorld w (x, y) -> walkable (grid w) (x, y) ->
      readVisited st'.1 (x, y) = true)).
  { intros Hty Hseq.
    set (v0 := set2 visited (x, y) true).
    assert (Hs0 : sized w v0) by (by apply sized_set2).
    assert (Hg0 : grows w visited v0).
    { intros p Hp Hvp. unfold v0. rewrite (readVisited_set2 w) by done. by case_decide. }
    assert (Hxy0 : readVisited v0 (x, y) = true).
    { unfold v0. rewrite (readVisited_set2 w) by done. by rewrite decide_True. }
    apply bind_Normal in Hseq as (st1 & H1 & Hseq).
    apply bind_Normal in Hseq as (st2 & H2 & Hseq).
    apply bind_Normal in Hseq as (st3 & H3 & H4).
    destruct (IH _ _ _ _ H1 Hs0) as (Hs1 & Hg1 & Hc1 & Ht1).
    destruct (IH _ _ _ _ H2 Hs1) as (Hs2 & Hg2 & Hc2 & Ht2).
    destruct (IH _ _ _ _ H3 Hs2) as (Hs3 & Hg3 & Hc3 & Ht3).
    destruct (IH _ _ _ _ H4 Hs3) as (Hs4 & Hg4 & Hc4 & Ht4).
    simpl in *.
    split; [done|]. split.
    { intros p Hp Hvp. by apply Hg4, Hg3, Hg2, Hg1, Hg0. }
    split.
    - intros p q Hp Hvp Hvp0 Hst Hq Hwq.
      destruct (decide (p = (x, y))) as [->|Hne].
      + (** the neighbours of the position itself *)
        unfold step, px, py in Hst. destruct q as [a b]. simpl in Hst.
        assert (Hcase : (a, b) = (x + 1, y) \/ (a, b) = (x - 1, y)
                        \/ (a, b) = (x, y + 1) \/ (a, b) = (x, y - 1)).
        { destruct Hst as [[-> [->| ->]]|[-> [->| ->]]]; auto. }
        destruct Hcase as [E|[E|[E|E]]]; rewrite E in *.
        * by apply Hg4, Hg3, Hg2, Ht1.
        * by apply Hg4, Hg3, Ht2.
        * by apply Hg4, Ht3.
        * by apply Ht4.
      + assert (Hp0 : readVisited v0 p = false).
        { unfold v0. rewrite (readVisited_set2 w) by done. by rewrite decide_False. }
        destruct (readVisited st1.1 p) eqn:E1.
        { apply Hg4; [done|]. apply Hg3; [done|]. apply Hg2; [done|]. by apply (Hc1 p q). }
        destruct (readVisited st2.1 p) eqn:E2.
        { apply Hg4; [done|]. apply Hg3; [done|]. by apply (Hc2 p q). }
        destruct (readVisited st3.1 p) eqn:E3.
        { apply Hg4; [done|]. by apply (Hc3 p q). }
        by apply (Hc4 p q).
    - intros _ _. by apply Hg4, Hg3, Hg2, Hg1. }
  destruct ty; try (by apply Hgo).
  injection Hrun as <-. apply Hstay; [done|]. intros _ (ty & Hty & Hnw). congruence.
Qed.

(** The fill from the origin marks the walkable positions that are
    joined to the origin through walkable positions, and only them. *)
Lemma floodFill_exact (fuel : nat) (visited : list (list bool))
    (rc : list Position) (p : Position) :
  floodFill fuel w 0 0
    (replicate (Z.to_nat (Grid.worldHeight (grid w)))
               (replicate (Z.to_nat (Grid.worldWidth (grid w))) false), [])
  = Normal (visited, rc) ->
  inWorld w p ->
  (readVisited visited p = true <-> connected (walkable (grid w)) (0, 0) p).
Proof.
  intros Hrun Hp.
  destruct (floodFill_spec w fuel 0 0 _ _ Hrun) as [[Hsized Hconn] _].
  { split; [apply sized_initial|]. intros q _ Hv. simpl in Hv.
    by rewrite readVisited_initial in Hv. }
  { by left. }
  destruct (floodFill_closed fuel 0 0 _ _ Hrun) as (_ & _ & Hclosed & Horigin).
  { apply sized_initial. }
  simpl in *. split.
  - intros Hv. eapply connected_mono; [|by apply Hconn].
    by intros q (_ & _ & Hq).
  - intros Hc. clear Hp. induction Hc as [Ho|q r Hq IH Hst Hr].
    + apply Horigin; [|done]. destruct Ho as (ty & Hty & _).
      by apply getCell_bounds in Hty.
    + assert (Hqin : inWorld w q).
      { apply connected_end in Hq. destruct Hq as (ty & Hty & _).
        by apply getCell_bounds in Hty. }
      assert (Hrin : inWorld w r).
      { destruct Hr as (ty & Hty & _). by apply getCell_bounds in Hty. }
      apply (Hclosed q r); try done.
      apply readVisited_initial.
Qed.

End Closure.

Lemma wallOrEmpty_walkable (g : Grid.t) (q : Position) :
  wallOrEmpty g -> (walkable g q <-> Grid.getCell g q = Some Empty).
Proof.
  intros Hwe. split.
  - intros (ty & Hty & Hnw). by destruct (Hwe q ty Hty) as [->| ->].
  - intros Hq. by exists Empty.
Qed.

(** What [ensureConnectivity] leaves of each cell. *)
Lemma ensureConnectivity_cells (fuel : nat) (w w' : t) (q : Position) :
  wallOrEmpty (grid w) ->
  ensureConnectivity fuel w = Normal w' ->
  let open := connected (fun r => Grid.getCell (grid w) r = Some Empty) (0, 0) in
  Grid.worldWidth (grid w') = Grid.worldWidth (grid w) /\
  Grid.worldHeight (grid w') = Grid.worldHeight (grid w) /\
  (Grid.getCell (grid w) q = None -> Grid.getCell (grid w') q = None) /\
  (open q -> Grid.getCell (grid w') q = Some Empty) /\
  (is_Some (Grid.getCell (grid w) q) -> ~ open q ->
   Grid.getCell (grid w') q = Some Wall) /\
  wallOrEmpty (grid w').
Proof.
  intros Hwe. unfold ensureConnectivity. cbv zeta.
  intros Hrun. apply bind_Normal in Hrun as ([visited rc] & Hflood & Hrun).
  apply bind_Normal in Hrun as (w1 & Himprove & Hrun).
  injection Hrun as Hw'.
  assert (Hvis : forall p, inWorld w p ->
            (readVisited visited p = true
             <-> connected (fun r => Grid.getCell (grid w) r = Some Empty) (0, 0) p)).
  { intros p Hp. rewrite (floodFill_exact w fuel visited rc p Hflood Hp).
    split; apply connected_mono; intros r; by apply wallOrEmpty_walkable. }
  assert (Hpaint : Painted (fun ty => ty = Empty) (grid w) (grid w1)).
  { destruct (PrimFloat.ltb _ 25).
    - eapply improveConnectivity_painted; [done|exact Himprove|].
      repeat split; auto.
    - injection Himprove as <-. repeat split; auto. }
  destruct Hpaint as (HW & HH & Hcells).
  rewrite <- HW, <- HH in Hw'.
  pose proof (seal_spec visited w1) as Hseal. cbv zeta in Hseal.
  rewrite Hw' in Hseal. destruct Hseal as (HW' & HH' & Hseal).
  split; [congruence|]. split; [congruence|]. split; [|split; [|split]].
  4:{ intros r ty Hty. rewrite Hseal in Hty.
      destruct (Grid.getCell (grid w1) r) as [ty1|] eqn:E1; [|done].
      simpl in Hty. injection Hty as <-. unfold sealed.
      case_decide; [destruct (readVisited visited r); auto|].
      destruct (Hcells r) as [Hsame|(_ & ty' & -> & Hr)]; [|congruence].
      rewrite Hsame in E1. destruct (Hwe r ty1 E1); [auto|congruence]. }
  - intros Hnone. rewrite Hseal.
    destruct (Hcells q) as [->|([ty Hty] & _)]; [by rewrite Hnone|congruence].
  - intros Hopen.
    assert (Hq : Grid.getCell (grid w) q = Some Empty)
      by (by apply connected_end in Hopen).
    assert (Hin : inWorld w q) by (by apply getCell_bounds in Hq).
    apply (Hvis q Hin) in Hopen. rewrite Hseal.
    destruct (Hcells q) as [->|(_ & ty' & -> & ->)].
    + rewrite Hq. simpl. unfold sealed. by rewrite decide_True, Hopen.
    + simpl. unfold sealed. by rewrite decide_True, Hopen.
  - intros [ty Hty] Hclosed.
    assert (Hin : inWorld w q) by (by apply getCell_bounds in Hty).
    assert (Hv : readVisited visited q = false).
    { destruct (readVisited visited q) eqn:E; [|done].
      exfalso. apply Hclosed. by apply (Hvis q Hin). }
    rewrite Hseal.
    destruct (Hcells q) as [->|(_ & ty' & -> & ->)].
    + rewrite Hty. simpl. unfold sealed. rewrite Hv.
      destruct (Hwe q ty Hty) as [->| ->]; by case_decide.
    + simpl. unfold sealed. by rewrite decide_True, Hv.
Qed.

Lemma ensureConnectivity_some (fuel : nat) (w w' : t) (q : Position) :
  wallOrEmpty (grid w) ->
  ensureConnectivity fuel w = Normal w' ->
  is_Some (Grid.getCell (grid w) q) ->
  is_Some (Grid.getCell (grid w') q).
Proof.
  intros Hwe Hrun [ty Hty].
  destruct (Grid.getCell (grid w') q) as [ty'|] eqn:E; [eauto|]. exfalso.
  unfold ensureConnectivity in Hrun. cbv zeta in Hrun.
  apply bind_Normal in Hrun as ([visited rc] & Hflood & Hrun).
  apply bind_Normal in Hrun as (w1 & Himprove & Hrun).
  injection Hrun as Hw'.
  assert (Hpaint : Painted (fun ty => ty = Empty) (grid w) (grid w1)).
  { destruct (PrimFloat.ltb _ 25).
    - eapply improveConnectivity_painted; [done|exact Himprove|].
      repeat split; auto.
    - injection Himprove as <-. repeat split; auto. }
  destruct Hpaint as (HW & HH & Hcells).
  rewrite <- HW, <- HH in Hw'.
  pose proof (seal_spec visited w1) as Hseal. cbv zeta in Hseal.
  rewrite Hw' in Hseal. destruct Hseal as (_ & _ & Hseal).
  rewrite Hseal in E.
  destruct (Hcells q) as [Hsame|(_ & ty1 & _ & Hq1)].
  - by rewrite Hsame, Hty in E.
  - by rewrite Hq1 in E.
Qed.

(** X12. [ensureConnectivity] on a world of walls and empty cells: the
    cells that are joined to the origin by unit steps through [Empty]
    cells stay [Empty], every other cell is a wall afterwards, and the
    dimensions are kept.  In particular the passages that
    [improveConnectivity] digs when less than a quarter of the world is
    reachable leave no trace: they are walled up again by the last
    loop. *)
Theorem ensureConnectivity_exact (fuel : nat) (w w' : t) (q : Position) :
  wallOrEmpty (grid w) ->
  ensureConnectivity fuel w = Normal w' ->
  let open := connected (fun r => Grid.getCell (grid w) r = Some Empty) (0, 0) in
  Grid.worldWidth (grid w') = Grid.worldWidth (grid w) /\
  Grid.worldHeight (grid w') = Grid.worldHeight (grid w) /\
  (Grid.getCell (grid w) q = None -> Grid.getCell (grid w') q = None) /\
  (open q -> Grid.getCell (grid w') q = Some Empty) /\
  (is_Some (Grid.getCell (grid w) q) -> ~ open q ->
   Grid.getCell (grid w') q = Some Wall) /\
  wallOrEmpty (grid w').
Proof. apply ensureConnectivity_cells. Qed.

Lemma ensureConnectivity_exact_witness :
  let w := {| grid := Grid.mk 4 1 [[Empty; Empty; Wall; Empty]];
              rng := SeededRandom.new 0%float (Some (SeededRandom.SeedNumber 7%float));
              currentSeed := SeededRandom.SeedNumber 7%float |} in
  exists w', ensureConnectivity 10 w = Normal w'
             /\ Grid.getCell (grid w') (1, 0) = Some Empty
             /\ Grid.getCell (grid w') (3, 0) = Some Wall.
Proof.
  intros w.
  assert (Hwe : wallOrEmpty (grid w)).
  { intros [x y] ty Hty. pose proof (getCell_bounds _ _ _ Hty) as [Hx Hy].
    unfold px, py in Hx, Hy. simpl in Hx, Hy.
    assert (y = 0) as -> by lia.
    assert (x = 0 \/ x = 1 \/ x = 2 \/ x = 3) as [->|[->|[->| ->]]] by lia;
      vm_compute in Hty; injection Hty as <-; auto. }
  destruct (ensureConnectivity 10 w) as [w'| |] eqn:Hrun;
    [|by vm_compute in Hrun..].
  exists w'. split; [done|].
  pose proof (ensureConnectivity_exact 10 w w' (1, 0) Hwe Hrun) as (_ & _ & _ & H1 & _).
  pose proof (ensureConnectivity_exact 10 w w' (3, 0) Hwe Hrun)
    as (_ & _ & _ & _ & H3 & _).
  split.
  - apply H1. eapply connected_step; [by apply connected_refl| |done].
    unfold step, px, py. simpl. lia.
  - apply H3; [by eexists|]. intros Hc.
    assert (Hleft : forall p, connected
                      (fun r => Grid.getCell (grid w) r = Some Empty) (0, 0) p ->
                    px p <= 1).
    { induction 1 as [|p r Hp IH Hst Hr]; [unfold px; simpl; lia|].
      destruct r as [x y]. pose proof (getCell_bounds _ _ _ Hr) as [Hx Hy].
      unfold step, px, py in *. simpl in *.
      assert (y = 0) as -> by lia.
      assert (x = 2 -> False) by (intros ->; by vm_compute in Hr).
      lia. }
    apply Hleft in Hc. unfold px in Hc. simpl in Hc. lia.
Defined.

End ConnectivityFacts.

(** ** The generated world *)

Module GeneratedWorldFacts.
Import WorldGenerator WorldGeneratorFacts.

(** A double loop over a rectangle whose body rewrites the cell at its
    position by [fn] rewrites the cells of the rectangle by [fn]. *)
Lemma rect_loop {S : Type} (gr : S -> Grid.t) (body : Z -> Z -> S -> S)
    (fn : Position -> CellType -> CellType) (x0 x1 y0 y1 : Z) (s0 : S) :
  x0 <= x1 -> y0 <= y1 ->
  (forall x y s,
      x0 <= x < x1 -> y0 <= y < y1 ->
      Grid.worldWidth (gr (body x y s)) = Grid.worldWidth (gr s) /\
      Grid.worldHeight (gr (body x y s)) = Grid.worldHeight (gr s) /\
      forall q, Grid.getCell (gr (body x y s)) q
                = if decide (q = (x, y)) then fn q <$> Grid.getCell (gr s) q
                  else Grid.getCell (gr s) q) ->
  let s1 := forRange y0 y1 (fun y => forRange x0 x1 (fun x => body x y)) s0 in
  Grid.worldWidth (gr s1) = Grid.worldWidth (gr s0) /\
  Grid.worldHeight (gr s1) = Grid.worldHeight (gr s0) /\
  forall q, Grid.getCell (gr s1) q
            = if decide (x0 <= px q < x1 /\ y0 <= py q < y1)
              then fn q <$> Grid.getCell (gr s0) q
              else Grid.getCell (gr s0) q.
Proof.
  intros Hx01 Hy01 Hbody.
  pose (I := fun (y : Z) (s : S) =>
    Grid.worldWidth (gr s) = Grid.worldWidth (gr s0) /\
    Grid.worldHeight (gr s) = Grid.worldHeight (gr s0) /\
    forall q, Grid.getCell (gr s) q
              = if decide (x0 <= px q < x1 /\ y0 <= py q < y)
                then fn q <$> Grid.getCell (gr s0) q
                else Grid.getCell (gr s0) q).
  apply (forRange_inv I); [done| |].
  { repeat split; try done. intros q. case_decide; [lia|done]. }
  intros y s Hy (HW1 & HH1 & Hq).
  pose (J := fun (x : Z) (s' : S) =>
    Grid.worldWidth (gr s') = Grid.worldWidth (gr s0) /\
    Grid.worldHeight (gr s') = Grid.worldHeight (gr s0) /\
    forall q, Grid.getCell (gr s') q
              = if decide ((x0 <= px q < x1 /\ y0 <= py q < y)
                           \/ (py q = y /\ x0 <= px q < x))
                then fn q <$> Grid.getCell (gr s0) q
                else Grid.getCell (gr s0) q).
  assert (HJ : J x1 (forRange x0 x1 (fun x => body x y) s)).
  { apply forRange_inv; [done| |].
    { repeat split; try done. intros q. rewrite Hq.
      repeat case_decide; try done; lia. }
    intros x s' Hx (HW2 & HH2 & Hq2).
    destruct (Hbody x y s') as (HW3 & HH3 & Hq3); [lia|lia|].
    repeat split; [congruence|congruence|].
    intros q. rewrite Hq3, Hq2. destruct q as [qx qy].
    unfold px, py in *. simpl in *.
    repeat case_decide; simplify_eq; try done; try lia;
      exfalso; match goal with Hne : (_, _) <> (_, _) |- _ => apply Hne; f_equal; lia end. }
  destruct HJ as (HW2 & HH2 & Hq2). repeat split; try done.
  intros q. rewrite Hq2.
  repeat case_decide; try done; lia.
Qed.

Lemma resetAt_getCell (p q : Position) (w : t) :
  Grid.getCell (grid (resetAt p w)) q
  = if decide (q = p) then (fun _ => Empty) <$> Grid.getCell (grid w) q
    else Grid.getCell (grid w) q.
Proof.
  unfold resetAt. destruct (Grid.getCell (grid w) p) as [ty|] eqn:E.
  - simpl. unfold Grid.resetCell. rewrite getCell_setType by eauto.
    case_decide; [subst; by rewrite E|done].
  - case_decide; [subst; by rewrite E|done].
Qed.

Lemma resetAt_dims (p : Position) (w : t) :
  Grid.worldWidth (grid (resetAt p w)) = Grid.worldWidth (grid w) /\
  Grid.worldHeight (grid (resetAt p w)) = Grid.worldHeight (grid w).
Proof. unfold resetAt. by destruct (Grid.getCell (grid w) p). Qed.

(** [clearStartArea] empties the cells of the world among the nine of
    the corner block and changes no other cell. *)
Lemma clearStartArea_spec (w : t) :
  Grid.worldWidth (grid (clearStartArea w)) = Grid.worldWidth (grid w) /\
  Grid.worldHeight (grid (clearStartArea w)) = Grid.worldHeight (grid w) /\
  forall q, Grid.getCell (grid (clearStartArea w)) q
            = if decide (0 <= px q < 3 /\ 0 <= py q < 3)
              then (fun _ => Empty) <$> Grid.getCell (grid w) q
              else Grid.getCell (grid w) q.
Proof.
  apply (rect_loop grid (fun x y => resetAt (x, y)) (fun _ _ => Empty) 0 3 0 3 w);
    [lia|lia|].
  intros x y s _ _. destruct (resetAt_dims (x, y) s) as [Hw Hh].
  split; [done|]. split; [done|]. intros q. apply resetAt_getCell.
Qed.

(** The corner of a rectangle of positions that satisfy [P] is joined to
    every position of the rectangle. *)
Lemma connected_row (P : Position -> Prop) (a : nat) :
  (forall x, 0 <= x <= Z.of_nat a -> P (x, 0)) ->
  connected P (0, 0) (Z.of_nat a, 0).
Proof.
  induction a as [|a IH]; intros HP.
  - apply connected_refl. apply HP. lia.
  - eapply connected_step.
    + apply IH. intros x Hx. apply HP. lia.
    + unfold step, px, py. simpl. lia.
    + apply HP. lia.
Qed.

Lemma connected_block (P : Position -> Prop) (a b : nat) :
  (forall x y, 0 <= x <= Z.of_nat a -> 0 <= y <= Z.of_nat b -> P (x, y)) ->
  connected P (0, 0) (Z.of_nat a, Z.of_nat b).
Proof.
  induction b as [|b IH]; intros HP.
  - apply connected_row. intros x Hx. apply HP; lia.
  - eapply connected_step.
    + apply IH. intros x y Hx Hy. apply HP; lia.
    + unfold step, px, py. simpl. lia.
    + apply HP; lia.
Qed.

(** The stages of [generateWorld] before [ensureConnectivity]. *)
Lemma generateWorld_stages (fuel : nat) (newSeed : option SeededRandom.Seed)
    (w w' : t) :
  generateWorld fuel newSeed w = Normal w' ->
  exists w3,
    let w4 := clearStartArea (addRandomEmptySpaces w3) in
    ensureConnectivity fuel w4 = Normal w' /\
    wallOrEmpty (grid w4) /\
    Grid.worldWidth (grid w4) = Grid.worldWidth (grid w) /\
    Grid.worldHeight (grid w4) = Grid.worldHeight (grid w) /\
    (forall q, is_Some (Grid.getCell (grid w4) q)
               <-> is_Some (Grid.getCell (grid w) q)) /\
    (forall q, 0 <= px q < 3 -> 0 <= py q < 3 ->
               is_Some (Grid.getCell (grid w) q) ->
               Grid.getCell (grid w4) q = Some Empty).
Proof.
  unfold generateWorld. cbv zeta.
  set (w0 := match newSeed with Some s => setSeed s w | None => w end).
  assert (Hw0 : grid w0 = grid w) by (unfold w0; by destruct newSeed).
  intros Hrun.
  destruct (generateCaves (fillWithWalls w0)) as [caveRegions w2] eqn:Hcaves.
  apply bind_Normal in Hrun as (w3 & Hconnect & Hrun).
  exists w3. cbv zeta. split; [exact Hrun|].
  set (tys := fun ty => ty = Empty \/ ty = Wall).
  set (w1 := fillWithWalls w0) in *.
  assert (H1 : Painted tys (grid w1) (grid w1)) by apply Painted_refl.
  pose proof (generateCaves_painted tys (grid w1) (or_introl eq_refl)
                (or_intror eq_refl) w1 H1) as H2.
  rewrite Hcaves in H2. simpl in H2.
  pose proof (connectCaves_painted tys (grid w1) (or_introl eq_refl)
                _ _ _ _ Hconnect H2) as H3.
  apply (addRandomEmptySpaces_painted tys _ (or_introl eq_refl)) in H3.
  pose proof (clearStartArea_painted tys _ (or_introl eq_refl) _ H3) as H4.
  destruct H4 as (HW & HH & Hcells).
  destruct (fillWithWalls_spec w0) as (HW1 & HH1 & Hfill). fold w1 in HW1, HH1, Hfill.
  rewrite Hw0 in HW1, HH1, Hfill.
  assert (Hsome : forall q, is_Some (Grid.getCell
                     (grid (clearStartArea (addRandomEmptySpaces w3))) q)
                   <-> is_Some (Grid.getCell (grid w) q)).
  { intros q. destruct (Hcells q) as [->|(Hq1 & ty & _ & ->)].
    - rewrite Hfill. apply fmap_is_Some.
    - rewrite Hfill, fmap_is_Some in Hq1. split; eauto. }
  split; [|split; [congruence|split; [congruence|split; [exact Hsome|]]]].
  - intros q ty Hty. destruct (Hcells q) as [Hsame|(_ & ty' & Htys & Hq)].
    + rewrite Hsame, Hfill in Hty.
      destruct (Grid.getCell (grid w) q); simpl in Hty; [|done].
      left. congruence.
    + rewrite Hq in Hty. injection Hty as <-. destruct Htys; auto.
  - intros q Hx Hy Hq. apply Hsome in Hq as [ty Hty].
    destruct (clearStartArea_spec (addRandomEmptySpaces w3)) as (_ & _ & Hclear).
    rewrite Hclear in Hty. rewrite Hclear. rewrite decide_True in * by lia.
    destruct (Grid.getCell (grid (addRandomEmptySpaces w3)) q); [done|done].
Qed.

(** The world that [generateWorld] returns, cell by cell. *)
Lemma generateWorld_cells (fuel : nat) (newSeed : option SeededRandom.Seed)
    (w w' : t) :
  WorldGridFacts.complete (grid w) ->
  generateWorld fuel newSeed w = Normal w' ->
  Grid.worldWidth (grid w') = Grid.worldWidth (grid w) /\
  Grid.worldHeight (grid w') = Grid.worldHeight (grid w) /\
  (forall q, 0 <= px q < Grid.worldWidth (grid w) ->
             0 <= py q < Grid.worldHeight (grid w) ->
             Grid.getCell (grid w') q = Some Wall
             \/ Grid.getCell (grid w') q = Some Empty) /\
  (forall q, 0 <= px q < 3 -> 0 <= py q < 3 ->
             px q < Grid.worldWidth (grid w) -> py q < Grid.worldHeight (grid w) ->
             Grid.getCell (grid w') q = Some Empty).
Proof.
  intros Hc Hrun.
  destruct (generateWorld_stages fuel newSeed w w' Hrun)
    as (w3 & Hens & Hwe & HW & HH & Hsome & Hblock).
  cbv zeta in *. set (w4 := clearStartArea (addRandomEmptySpaces w3)) in *.
  pose proof (fun q => ConnectivityFacts.ensureConnectivity_cells fuel w4 w' q Hwe Hens)
    as Hcells. cbv zeta in Hcells.
  destruct (Hcells (0, 0)) as (HW' & HH' & _).
  split; [congruence|]. split; [congruence|]. split.
  - intros q Hx Hy.
    assert (Hq : is_Some (Grid.getCell (grid w') q)).
    { apply (ConnectivityFacts.ensureConnectivity_some fuel w4 w' q Hwe Hens).
      apply Hsome. by apply WorldGridFacts.complete_getCell. }
    destruct Hq as [ty Hty]. destruct (Hcells q) as (_ & _ & _ & _ & _ & Hwe').
    destruct (Hwe' q ty Hty) as [->| ->]; auto.
  - intros q Hx Hy Hx' Hy'.
    destruct (Hcells q) as (_ & _ & _ & Hopen & _). apply Hopen.
    destruct q as [x y]. unfold px, py in *. cbn [fst snd] in *.
    replace x with (Z.of_nat (Z.to_nat x)) by lia.
    replace y with (Z.of_nat (Z.to_nat y)) by lia.
    apply connected_block. intros a b Ha Hb.
    apply Hblock; unfold px, py; simpl; [lia|lia|].
    apply WorldGridFacts.complete_getCell; [done|unfold px; simpl; lia|unfold py; simpl; lia].
Qed.

Lemma complete_initializeWorld (width height : Z) :
  WorldGridFacts.complete (Grid.initializeWorld width height).
Proof.
  intros q Hq. pose proof (WorldGridFacts.getCell_initializeWorld width height q) as H.
  unfold Grid.getCell in H. rewrite Hq in H. rewrite H.
  apply bounds_spec in Hq. simpl in Hq. rewrite decide_True by lia. eauto.
Qed.

(** X13. The world that [generateWorld] returns on a grid that has all
    its cells: the dimensions are those of the grid, every cell is a
    wall or empty, and the cells of the 3 x 3 block at the origin (those
    of them that the world has) are empty, the origin among them. *)
Theorem generateWorld_shape (fuel : nat) (newSeed : option SeededRandom.Seed)
    (w w' : t) :
  WorldGridFacts.complete (grid w) ->
  generateWorld fuel newSeed w = Normal w' ->
  Grid.worldWidth (grid w') = Grid.worldWidth (grid w) /\
  Grid.worldHeight (grid w') = Grid.worldHeight (grid w) /\
  (forall q, 0 <= px q < Grid.worldWidth (grid w) ->
             0 <= py q < Grid.worldHeight (grid w) ->
             Grid.getCell (grid w') q = Some Wall
             \/ Grid.getCell (grid w') q = Some Empty) /\
  (forall q, 0 <= px q < 3 -> 0 <= py q < 3 ->
             px q < Grid.worldWidth (grid w) -> py q < Grid.worldHeight (grid w) ->
             Grid.getCell (grid w') q = Some Empty).
Proof. apply generateWorld_cells. Qed.

Lemma generateWorld_shape_witness :
  let w := {| grid := Grid.initializeWorld 12 12;
              rng := SeededRandom.new 0%float None;
              currentSeed := SeededRandom.SeedNumber 0%float |} in
  exists w',
    generateWorld 200 (Some (SeededRandom.SeedString "x")) w = Normal w'
    /\ Grid.worldWidth (grid w') = 12
    /\ Grid.getCell (grid w') (2, 1) = Some Empty.
Proof.
  intros w.
  let r := eval vm_compute in
             (generateWorld 200 (Some (SeededRandom.SeedString "x")) w) in
  match r with
  | Normal ?w' =>
      assert (Hrun : generateWorld 200 (Some (SeededRandom.SeedString "x")) w
                     = Normal w') by (vm_compute; reflexivity);
      exists w'; split; [exact Hrun|];
      destruct (generateWorld_shape 200 _ w _ (complete_initializeWorld 12 12) Hrun)
        as (HW & _ & _ & Hblock);
      split; [exact HW|apply Hblock; unfold px, py; simpl; lia]
  end.
Defined.

(** *** Tunnels *)

Lemma connected_prepend (P : Position -> Prop) (a b c : Position) :
  P a -> step a b -> connected P b c -> connected P a c.
Proof.
  intros Ha Hab. induction 1 as [Hb|p q _ IH Hst Hq].
  - eapply connected_step; [by apply connected_refl|done|done].
  - eapply connected_step; eauto.
Qed.

(** Where an iteration of the loop of [createTunnel] may move to from
    [(x, y)]: it stays, or takes one unit step, and does not leave the
    rectangle spanned by [(x, y)] and the end. *)
Definition moved (end_ : Position) (x y : Z) (pos : Position) : Prop :=
  (pos = (x, y) \/ step (x, y) pos) /\
  Z.min x (px end_) <= px pos <= Z.max x (px end_) /\
  Z.min y (py end_) <= py pos <= Z.max y (py end_).

Ltac draw_random :=
  let E := fresh "E" in
  cbv beta;
  match goal with
  | |- context [random ?w] =>
      destruct (random w) as [? ?] eqn:E; apply random_grid in E
  end; cbv beta iota.

Lemma tunnel_iteration (fuel : nat) (end_ : Position) (currentX currentY : Z)
    (w w' : t) :
  (currentX =? px end_) && (currentY =? py end_) = false ->
  tunnel (S fuel) end_ currentX currentY w = Normal w' ->
  exists (pos : Position) (w0 w2 : t),
    grid w0 = grid w /\
    moved end_ currentX currentY pos /\
    Painted (fun ty => ty = Empty) (grid (resetAt pos w0)) (grid w2) /\
    tunnel fuel end_ (px pos) (py pos) w2 = Normal w'.
Proof.
  intros Hguard. cbn [tunnel]. rewrite Hguard. cbv zeta.
  draw_random.
  match goal with
  | |- context [if PrimFloat.ltb ?r 0.8 then ?a else ?b] =>
      generalize (if PrimFloat.ltb r 0.8 then a else b)
  end.
  intros moveX.
  match goal with
  | E : grid ?w0 = grid w |- _ => rename w0 into wr; rename E into Ewr
  end.
  assert (Hfinal : forall nx ny w2,
            moved end_ currentX currentY (nx, ny) ->
            Painted (fun ty => ty = Empty) (grid (resetAt (nx, ny) wr)) (grid w2) ->
            tunnel fuel end_ nx ny w2 = Normal w' ->
            exists (pos : Position) (w0 w2 : t),
              grid w0 = grid w /\
              moved end_ currentX currentY pos /\
              Painted (fun ty => ty = Empty) (grid (resetAt pos w0)) (grid w2) /\
              tunnel fuel end_ (px pos) (py pos) w2 = Normal w').
  { intros nx ny w2 Hm Hp Hrun. exists (nx, ny), wr, w2. done. }
  assert (Hrefl : forall g, Painted (fun ty => ty = Empty) g g)
    by (intros g; apply Painted_refl).
  assert (Hmoved : forall (b : bool) nx ny,
            (b = true -> (nx, ny) = (currentX, currentY) \/
                         step (currentX, currentY) (nx, ny)) ->
            (b = true -> Z.min currentX (px end_) <= nx <= Z.max currentX (px end_)) ->
            (b = true -> Z.min currentY (py end_) <= ny <= Z.max currentY (py end_)) ->
            b = true -> moved end_ currentX currentY (nx, ny)).
  { intros b nx ny H1 H2 H3 Hb. unfold moved, px, py. cbn [fst snd]. auto. }
  pose proof (Z.sgn_spec (px end_ - currentX)) as Hsx.
  pose proof (Z.sgn_spec (py end_ - currentY)) as Hsy.
  destruct (moveX && negb (currentX =? px end_)) eqn:E1;
    [|destruct (negb (currentY =? py end_)) eqn:E2]; cbv beta iota;
    match goal with
    | |- context [tunnel fuel end_ ?nx ?ny _] =>
        assert (Hm : moved end_ currentX currentY (nx, ny))
          by (apply (Hmoved true); [| | |done]; intros _;
              rewrite ?andb_true_iff, ?negb_true_iff, ?negb_false_iff,
                ?Z.eqb_neq, ?Z.eqb_eq in *;
              [first [by left | right; unfold step, px, py in *; cbn [fst snd]; lia]
              |lia|lia])
    end;
    repeat first
      [ draw_random
      | match goal with
        | |- context [if ?c then _ else _] => destruct c
        end; cbv beta iota ];
    intros Hrun; (eapply Hfinal; [exact Hm| |exact Hrun]);
    repeat first
      [ match goal with
        | E : grid ?a = _ |- Painted _ _ (grid ?a) => rewrite E
        end
      | apply widenAt_painted; [done|]
      | apply Hrefl ].
Qed.

Lemma tunnel_connects (fuel : nat) (end_ : Position) :
  forall currentX currentY w w',
    tunnel fuel end_ currentX currentY w = Normal w' ->
    (forall q, inWorld w q -> is_Some (Grid.getCell (grid w) q)) ->
    inWorld w (currentX, currentY) -> inWorld w end_ ->
    connected (fun q => q = (currentX, currentY)
                        \/ Grid.getCell (grid w') q = Some Empty)
              (currentX, currentY) end_.
Proof.
  induction fuel as [|fuel IH]; intros x y w w' Hrun Hall Hcur Hend;
    destruct ((x =? px end_) && (y =? py end_)) eqn:Hguard.
  - apply andb_prop in Hguard as [->%Z.eqb_eq ->%Z.eqb_eq].
    destruct end_ as [ex ey]. apply connected_refl. by left.
  - simpl in Hrun. by rewrite Hguard in Hrun.
  - apply andb_prop in Hguard as [->%Z.eqb_eq ->%Z.eqb_eq].
    destruct end_ as [ex ey]. apply connected_refl. by left.
  - destruct (tunnel_iteration fuel end_ x y w w' Hguard Hrun)
      as (pos & w0 & w2 & Hw0 & (Hmove & Hbx & Hby) & Hpaint & Hrest).
    assert (Hpos : inWorld w pos).
    { destruct Hcur as [Hcx Hcy], Hend as [Hex Hey]. unfold px, py in Hcx, Hcy.
      simpl in Hcx, Hcy. split; lia. }
    (** the cell moved to is emptied, and stays empty *)
    assert (Hreset : Grid.getCell (grid (resetAt pos w0)) pos = Some Empty).
    { rewrite resetAt_getCell, decide_True by done. rewrite Hw0.
      by destruct (Hall pos Hpos) as [ty ->]. }
    destruct (resetAt_dims pos w0) as [HW0 HH0]. rewrite Hw0 in HW0, HH0.
    pose proof (tunnel_painted (fun ty => ty = Empty) (grid (resetAt pos w0))
                  eq_refl _ _ _ _ _ _ Hrest Hpaint) as Hpaint'.
    assert (Hkept : Grid.getCell (grid w') pos = Some Empty).
    { destruct Hpaint' as (_ & _ & Hc).
      destruct (Hc pos) as [->|(_ & ty & -> & ->)]; done. }
    destruct Hpaint as (HW2 & HH2 & Hc2).
    assert (Hin2 : forall q, inWorld w2 q <-> inWorld w q).
    { intros q. unfold inWorld. by rewrite HW2, HH2, HW0, HH0. }
    assert (Hconn : connected (fun q => q = (px pos, py pos)
                                        \/ Grid.getCell (grid w') q = Some Empty)
                              (px pos, py pos) end_).
    { apply (IH _ _ w2 w' Hrest).
      - intros q Hq%Hin2.
        destruct (Hc2 q) as [->|(_ & ty & _ & ->)]; [|eauto].
        rewrite resetAt_getCell. rewrite Hw0.
        destruct (Hall q Hq) as [ty ->]. case_decide; eauto.
      - apply Hin2. by destruct pos.
      - by apply Hin2. }
    replace (px pos, py pos) with pos in Hconn by (by destruct pos).
    destruct Hmove as [Hstay|Hstep].
    + rewrite Hstay in Hconn. eapply connected_mono; [|exact Hconn].
      intros q [->|Hq]; auto.
    + eapply (connected_prepend _ _ pos); [by left|done|].
      eapply connected_mono; [|exact Hconn].
      intros q [->|Hq]; auto.
Qed.

(** X14. When [createTunnel(start, end)] returns, on a world that has
    all its cells and with both ends in the world, the end is joined to
    the start by unit steps through [Empty] cells (the start itself is
    left as it was); a cell that the call has changed has become
    [Empty]; and the dimensions are kept. *)
Theorem createTunnel_connects (fuel : nat) (start end_ : Position) (w w' : t) :
  WorldGridFacts.complete (grid w) ->
  is_Some (Grid.getCell (grid w) start) ->
  is_Some (Grid.getCell (grid w) end_) ->
  createTunnel fuel start end_ w = Normal w' ->
  connected (fun q => q = start \/ Grid.getCell (grid w') q = Some Empty)
            start end_ /\
  (forall q, Grid.getCell (grid w') q = Grid.getCell (grid w) q
             \/ Grid.getCell (grid w') q = Some Empty) /\
  Grid.worldWidth (grid w') = Grid.worldWidth (grid w) /\
  Grid.worldHeight (grid w') = Grid.worldHeight (grid w).
Proof.
  intros Hc [ty0 Hstart] [ty1 Hend] Hrun. unfold createTunnel in Hrun.
  pose proof (tunnel_painted (fun ty => ty = Empty) (grid w) eq_refl _ _ _ _ _ _
                Hrun (Painted_refl _ _)) as (HW & HH & Hcells).
  split; [|split; [|done]].
  - destruct start as [sx sy]. unfold px at 1, py at 1 in Hrun. cbn [fst snd] in Hrun.
    apply (tunnel_connects fuel end_ _ _ w w' Hrun).
    + intros q [Hx Hy]. by apply WorldGridFacts.complete_getCell.
    + by apply getCell_bounds in Hstart.
    + by apply getCell_bounds in Hend.
  - intros q. destruct (Hcells q) as [->|(_ & ty & -> & ->)]; auto.
Qed.

Lemma createTunnel_connects_witness :
  let w := {| grid := Grid.mk 4 2 [[Empty; Wall; Wall; Wall];
                                   [Wall; Wall; Wall; Empty]];
              rng := SeededRandom.new 0%float (Some (SeededRandom.SeedNumber 3%float));
              currentSeed := SeededRandom.SeedNumber 3%float |} in
  exists w',
    createTunnel 40 (0, 0) (3, 1) w = Normal w'
    /\ connected (fun q => q = (0, 0) \/ Grid.getCell (grid w') q = Some Empty)
                 (0, 0) (3, 1).
Proof.
  intros w.
  assert (Hc : WorldGridFacts.complete (grid w)).
  { intros [x y] Hb. apply bounds_spec in Hb. unfold px, py in Hb. simpl in Hb.
    assert (Hx : x = 0 \/ x = 1 \/ x = 2 \/ x = 3) by lia.
    assert (Hy : y = 0 \/ y = 1) by lia.
    destruct Hx as [->|[->|[->| ->]]], Hy as [->| ->]; by eexists. }
  let r := eval vm_compute in (createTunnel 40 (0, 0) (3, 1) w) in
  match r with
  | Normal ?w' =>
      assert (Hrun : createTunnel 40 (0, 0) (3, 1) w = Normal w')
        by (vm_compute; reflexivity);
      exists w'; split; [exact Hrun|];
      apply (createTunnel_connects 40 (0, 0) (3, 1) w w' Hc);
        [by eexists|by eexists|exact Hrun]
  end.
Defined.

End GeneratedWorldFacts.

(** ** The application: clearing, resetting, generating, navigating *)

Module ShellFacts.
Import Shell.

(** The world of the application's grid. *)
Definition worldOf (a : t) : Grid.t := Viewport.world (grid a).

(** Every cell tagged [PlayerTrail] is recorded in the player's trail. *)
Definition trailed (pl : Player.t) (g : Grid.t) : Prop :=
  forall q, Grid.getCell g q = Some PlayerTrail -> q ∈ Player.trailCells pl.

(** No cell carries a tag of the path visualisation or of the trail. *)
Definition tidy (g : Grid.t) : Prop :=
  forall q, Grid.getCell g q <> Some Path /\ Grid.getCell g q <> Some Visited
            /\ Grid.getCell g q <> Some Target
            /\ Grid.getCell g q <> Some PlayerTrail.

Lemma cleared_cases (ty : CellType) :
  GridFacts.cleared ty <> Path /\ GridFacts.cleared ty <> Visited
  /\ GridFacts.cleared ty <> Target
  /\ (GridFacts.cleared ty = ty \/ GridFacts.cleared ty = Empty)
  /\ (GridFacts.cleared ty = Wall <-> ty = Wall)
  /\ (GridFacts.cleared ty = PlayerTrail <-> ty = PlayerTrail)
  /\ (GridFacts.cleared ty = Player <-> ty = Player).
Proof. unfold GridFacts.cleared. destruct ty; case_decide; naive_solver. Qed.

Lemma clearFrames_loop (g : Grid.t) :
  let g' :=
    forRange 0 (Grid.worldHeight g) (fun y =>
      forRange 0 (Grid.worldWidth g) (fun x g =>
        match Grid.getCell g (x, y) with
        | Some ty =>
            if decide (ty = Path \/ ty = Visited \/ ty = Target)
            then Grid.resetCell g (x, y) else g
        | None => g
        end)) g in
  Grid.worldWidth g' = Grid.worldWidth g /\
  Grid.worldHeight g' = Grid.worldHeight g /\
  forall q, Grid.getCell g' q = GridFacts.cleared <$> Grid.getCell g q.
Proof.
  apply (cells_loop (fun g => g)
           (fun x y g => match Grid.getCell g (x, y) with
                         | Some ty =>
                             if decide (ty = Path \/ ty = Visited \/ ty = Target)
                             then Grid.resetCell g (x, y) else g
                         | None => g
                         end) (fun _ => GridFacts.cleared)).
  intros x y s Hx Hy.
  destruct (Grid.getCell s (x, y)) as [ty|] eqn:E.
  - case_decide as Hty.
    + split; [done|]. split; [done|]. intros q. unfold Grid.resetCell.
      rewrite getCell_setType by eauto.
      case_decide; [|done]. subst q. rewrite E. simpl.
      unfold GridFacts.cleared. by rewrite decide_True.
    + split; [done|]. split; [done|]. intros q. case_decide; [|done]. subst q.
      rewrite E. simpl. unfold GridFacts.cleared. by rewrite decide_False.
  - split; [done|]. split; [done|]. intros q. case_decide; [|done]. subst q.
    by rewrite E.
Qed.

(** [clearFrames], cell by cell and field by field. *)
Lemma clearFrames_cells (a : t) :
  Grid.worldWidth (worldOf (clearFrames a)) = Grid.worldWidth (worldOf a) /\
  Grid.worldHeight (worldOf (clearFrames a)) = Grid.worldHeight (worldOf a) /\
  (forall q, Grid.getCell (worldOf (clearFrames a)) q
             = if decide (q ∈ Player.trailCells (player a)
                          /\ Grid.getCell (worldOf a) q = Some PlayerTrail)
               then Some Empty
               else GridFacts.cleared <$> Grid.getCell (worldOf a) q) /\
  Player.position (player (clearFrames a)) = Player.position (player a) /\
  Player.trailCells (player (clearFrames a)) = [] /\
  movementQueue (clearFrames a) = movementQueue a /\
  currentTask (clearFrames a) = currentTask a /\
  isRandomMode (clearFrames a) = isRandomMode a /\
  isMoving (clearFrames a) = false /\
  movementCancelled (clearFrames a) = movementCancelled a.
Proof.
  unfold clearFrames, worldOf.
  destruct (clearFrames_loop (Viewport.world (grid a))) as (HW & HH & Hc).
  cbv zeta in HW, HH, Hc.
  set (g1 := forRange 0 _ _ _) in *.
  destruct (PlayerFacts.clearTrail_fold (Player.trailCells (player a)) g1)
    as (HW' & HH' & Hc').
  unfold Player.clearTrail. cbv zeta in *. cbn.
  split; [congruence|]. split; [congruence|]. split; [|done].
  intros q. rewrite Hc', Hc.
  destruct (Grid.getCell (Viewport.world (grid a)) q) as [ty|] eqn:E; simpl.
  - destruct (cleared_cases ty) as (_ & _ & _ & _ & _ & Ht & _).
    repeat case_decide; try done; exfalso; naive_solver.
  - repeat case_decide; try done; exfalso; naive_solver.
Qed.

(** X15. [clearFrames] resets to [Empty] the cells tagged [Path],
    [Visited] or [Target] and the [PlayerTrail] cells recorded in the
    player's trail, and leaves every other cell as it is (walls, the
    player's cell, queued targets); so when every trail cell is recorded,
    no tag of the visualisation or of the trail is left.  It empties the
    trail, sets [isMoving] to [false], and keeps the queue and the
    current task. *)
Theorem clearFrames_spec (a : t) (q : Position) (ty : CellType) :
  Grid.getCell (worldOf a) q = Some ty ->
  (ty = Path \/ ty = Visited \/ ty = Target ->
   Grid.getCell (worldOf (clearFrames a)) q = Some Empty) /\
  (ty = PlayerTrail -> q ∈ Player.trailCells (player a) ->
   Grid.getCell (worldOf (clearFrames a)) q = Some Empty) /\
  (ty = Wall \/ ty = Player \/ ty = QueuedTarget \/ ty = Empty ->
   Grid.getCell (worldOf (clearFrames a)) q = Some ty) /\
  (trailed (player a) (worldOf a) -> tidy (worldOf (clearFrames a))) /\
  Player.trailCells (player (clearFrames a)) = [] /\
  isMoving (clearFrames a) = false /\
  movementQueue (clearFrames a) = movementQueue a /\
  currentTask (clearFrames a) = currentTask a.
Proof.
  intros Hty.
  destruct (clearFrames_cells a) as (_ & _ & Hc & _ & Htr & Hq & Hct & _ & Hm & _).
  split; [|split; [|split; [|split; [|done]]]].
  - intros H. rewrite Hc, Hty. simpl.
    rewrite decide_False by (intros [_ ?]; naive_solver).
    unfold GridFacts.cleared. by rewrite decide_True.
  - intros -> Hin. rewrite Hc, Hty. by rewrite decide_True.
  - intros H. rewrite Hc, Hty. simpl.
    rewrite decide_False by (intros [_ ?]; naive_solver).
    unfold GridFacts.cleared. rewrite decide_False; [done|]. naive_solver.
  - intros Htrail r. rewrite Hc.
    destruct (Grid.getCell (worldOf a) r) as [tr|] eqn:E; simpl.
    + destruct (cleared_cases tr) as (H1 & H2 & H3 & _ & _ & H4 & _).
      case_decide as Hd; [done|].
      repeat split; try congruence.
      intros [= Hpt]. apply H4 in Hpt. subst tr. apply Hd. split; [|done].
      by apply Htrail.
    + by case_decide.
Qed.

Lemma clearFrames_spec_witness :
  let g := Grid.mk 4 1 [[Player; Visited; PlayerTrail; QueuedTarget]] in
  let a := Shell.mk (Viewport.mk g 4 1 0 0) (Player.mk (0, 0) [(2, 0)])
             (SeededRandom.new 0%float None) (SeededRandom.SeedNumber 0%float)
             None [(3, 0)] false true false in
  Grid.getCell (worldOf (clearFrames a)) (1, 0) = Some Empty /\
  Grid.getCell (worldOf (clearFrames a)) (3, 0) = Some QueuedTarget.
Proof.
  intros g a.
  destruct (clearFrames_spec a (1, 0) Visited eq_refl) as (H1 & _).
  destruct (clearFrames_spec a (3, 0) QueuedTarget eq_refl) as (_ & _ & H3 & _).
  split; [apply H1; auto|apply H3; auto].
Defined.

(** The state in which [resetGrid] calls [clearFrames]. *)
Definition cancelled (a : t) : t :=
  let pos := Player.getPosition (player a) in
  let g := Viewport.world (grid a) in
  {| grid := Viewport.withWorld
               (match Grid.getCell g pos with
                | Some _ => Grid.resetCell g pos
                | None => g
                end) (grid a);
     player := player a; rng := rng a; currentSeed := currentSeed a;
     currentTask := currentTask a; movementQueue := [];
     isRandomMode := false; isMoving := false; movementCancelled := true |}.

Lemma resetGrid_unfold (a : t) :
  let a1 := clearFrames (cancelled a) in
  worldOf (resetGrid a) = Player.updatePlayerPosition (0, 0) (worldOf a1) /\
  player (resetGrid a) = Player.mk (0, 0) [] /\
  movementQueue (resetGrid a) = movementQueue a1 /\
  currentTask (resetGrid a) = currentTask a1 /\
  isRandomMode (resetGrid a) = isRandomMode a1 /\
  isMoving (resetGrid a) = isMoving a1 /\
  movementCancelled (resetGrid a) = movementCancelled a1.
Proof. cbv zeta. repeat split; reflexivity. Qed.

Lemma cancelled_cells (a : t) (r : Position) :
  Grid.getCell (worldOf (cancelled a)) r
  = if decide (r = Player.position (player a))
    then (fun _ => Empty) <$> Grid.getCell (worldOf a) r
    else Grid.getCell (worldOf a) r.
Proof.
  unfold cancelled, worldOf, Player.getPosition. cbn.
  destruct (Grid.getCell (Viewport.world (grid a)) (Player.position (player a)))
    as [t0|] eqn:E.
  - unfold Grid.resetCell. rewrite getCell_setType by eauto.
    case_decide; [subst r; by rewrite E|done].
  - case_decide; [subst r; by rewrite E|done].
Qed.

Lemma updatePlayerPosition_other (p q : Position) (g : Grid.t) :
  q <> p ->
  Grid.getCell (Player.updatePlayerPosition p g) q = Grid.getCell g q.
Proof.
  intros Hne. destruct (Grid.getCell g p) as [ty|] eqn:E.
  - rewrite PlayerFacts.updatePlayerPosition_getCell by eauto.
    by rewrite decide_False.
  - unfold Player.updatePlayerPosition. by rewrite E.
Qed.

(** X16. [resetGrid] empties the queue and leaves random mode, puts a
    new player with an empty trail at the origin, and resets to [Empty]
    the cell the player was on and the cells tagged [Path], [Visited] or
    [Target]; walls are kept, and so are the cells tagged
    [QueuedTarget], although the queue is empty afterwards; the current
    task is kept as well. *)
Theorem resetGrid_spec (a : t) (q : Position) (ty : CellType) :
  movementQueue (resetGrid a) = [] /\
  currentTask (resetGrid a) = currentTask a /\
  isRandomMode (resetGrid a) = false /\
  isMoving (resetGrid a) = false /\
  movementCancelled (resetGrid a) = true /\
  Player.position (player (resetGrid a)) = (0, 0) /\
  Player.trailCells (player (resetGrid a)) = [] /\
  (is_Some (Grid.getCell (worldOf a) (0, 0)) ->
   Grid.getCell (worldOf (resetGrid a)) (0, 0) = Some Player) /\
  (q <> (0, 0) -> Grid.getCell (worldOf a) q = Some ty ->
   (q = Player.position (player a) \/ ty = Path \/ ty = Visited \/ ty = Target ->
    Grid.getCell (worldOf (resetGrid a)) q = Some Empty) /\
   (q <> Player.position (player a) ->
    ty = Wall \/ ty = QueuedTarget \/ ty = Empty \/ ty = Player ->
    Grid.getCell (worldOf (resetGrid a)) q = Some ty)).
Proof.
  destruct (resetGrid_unfold a) as (Hworld & Hpl & Hq & Hct & Hrm & Hm & Hmc).
  cbv zeta in *.
  destruct (clearFrames_cells (cancelled a))
    as (_ & _ & Hc & _ & _ & Hq' & Hct' & Hrm' & Hm' & Hmc').
  rewrite Hq, Hct, Hrm, Hm, Hmc, Hq', Hct', Hrm', Hm', Hmc', Hpl, Hworld.
  split; [done|]. split; [done|]. split; [done|]. split; [done|]. split; [done|].
  split; [done|]. split; [done|]. split.
  - intros [t0 Ht0]. rewrite PlayerFacts.updatePlayerPosition_getCell.
    + by rewrite decide_True.
    + rewrite Hc. case_decide; [eauto|]. rewrite cancelled_cells.
      case_decide; rewrite Ht0; simpl; eauto.
  - intros Hq0 Hty. rewrite updatePlayerPosition_other by done.
    rewrite Hc, !cancelled_cells, Hty. split.
    + intros Hcase. destruct (decide (q = Player.position (player a))) as [Heq|Hne]; simpl.
      * case_decide; [done|]. unfold GridFacts.cleared.
        by rewrite decide_False by naive_solver.
      * destruct Hcase as [?|Hcase]; [done|].
        case_decide; [done|]. unfold GridFacts.cleared. by rewrite decide_True.
    + intros Hne Hcase. rewrite (decide_False (P := q = _)) by done. simpl.
      rewrite decide_False by (intros [_ ?]; naive_solver).
      unfold GridFacts.cleared. rewrite decide_False; [done|]. naive_solver.
Qed.

(** *** A navigation that nothing interrupts *)

(** With a path of walkable cells from the start to the goal, the search
    finds one, and only annotates the grid. *)
Lemma findPath_found (fuel : nat) (g : Grid.t) (start goal : Position)
    (l : list Position) :
  walk g start goal l -> (PathFinder.enoughFuel g <= fuel)%nat ->
  exists g' path,
    PathFinder.findPath fuel g start goal = (g', PathFinder.Found path)
    /\ walk g start goal path
    /\ Grid.worldWidth g' = Grid.worldWidth g
    /\ Grid.worldHeight g' = Grid.worldHeight g
    /\ forall q, SearchFacts.annotated start goal g g' q.
Proof.
  intros Hwalk Hfuel.
  pose proof (PathFinderFacts.search_spec g start goal fuel _ _ _
                (PathFinderFacts.Inv_init g start goal)) as Hspec.
  pose proof (fun q => SearchFacts.search_frame g start goal fuel q _ _ _
                (PathFinderFacts.Inv_init g start goal)) as Hframe.
  cbv zeta in Hframe. unfold PathFinder.findPath, PathFinder.aStar.
  destruct (PathFinder.search fuel start goal g _ ∅) as [g' [path| |]] eqn:Hrun;
    cbn [fst snd] in *.
  - exists g', path. split; [done|].
    destruct Hspec as (n & HnOk & Hpos & -> & Hopt).
    destruct (PathFinderFacts.nodeOk_chain _ _ _ HnOk) as (Hh & Hs & Hl & _).
    assert (Hstart : walkable g start).
    { destruct Hwalk as (Hhd & _ & _ & Hall). destruct l as [|a l]; [done|].
      injection Hhd as ->. by apply Forall_inv in Hall. }
    split.
    + repeat split; [done|rewrite PathFinderFacts.chain_last; congruence|done|].
      by apply (PathFinderFacts.chain_walk g start).
    + destruct (Hframe start) as (HW & HH & _). split; [done|]. split; [done|].
      intros q. by destruct (Hframe q) as (_ & _ & ?).
  - exfalso. apply PathFinderFacts.walk_reach in Hwalk. by eapply Hspec.
  - exfalso. rewrite PathFinderFacts.enoughFuel_allCells in Hfuel.
    rewrite size_empty in Hspec. lia.
Qed.

Lemma walk_lookup (g : Grid.t) (a b : Position) (l : list Position) :
  walk g a b l ->
  l !! 0%nat = Some a /\ l !! (length l - 1)%nat = Some b
  /\ forall p, p ∈ l -> walkable g p.
Proof.
  intros (Hh & Hl & _ & Hall). split; [|split].
  - by destruct l.
  - rewrite last_lookup in Hl. by replace (length l - 1)%nat with (pred (length l)) by lia.
  - intros p Hp. by eapply Forall_forall in Hall.
Qed.

(** [visualizePath] tags cells of the path, and nothing else. *)
Lemma visualizePath_cells (path : list Position) (a : t) :
  Grid.worldWidth (worldOf (visualizePath path a)) = Grid.worldWidth (worldOf a) /\
  Grid.worldHeight (worldOf (visualizePath path a)) = Grid.worldHeight (worldOf a) /\
  (forall q, Grid.getCell (worldOf (visualizePath path a)) q
             = Grid.getCell (worldOf a) q
             \/ (q ∈ path /\ is_Some (Grid.getCell (worldOf a) q)
                 /\ Grid.getCell (worldOf (visualizePath path a)) q = Some Path)) /\
  player (visualizePath path a) = player a /\
  movementQueue (visualizePath path a) = movementQueue a /\
  currentTask (visualizePath path a) = currentTask a /\
  isRandomMode (visualizePath path a) = isRandomMode a /\
  isMoving (visualizePath path a) = isMoving a /\
  movementCancelled (visualizePath path a) = movementCancelled a /\
  Viewport.viewWidth (grid (visualizePath path a)) = Viewport.viewWidth (grid a) /\
  Viewport.viewHeight (grid (visualizePath path a)) = Viewport.viewHeight (grid a).
Proof.
  unfold visualizePath, worldOf. destruct (movementCancelled a) eqn:Hmc.
  { repeat split; try done. by left. }
  cbn [grid player movementQueue currentTask isRandomMode isMoving
       movementCancelled Viewport.world Viewport.withWorld Viewport.viewWidth
       Viewport.viewHeight].
  pose (P := fun g : Grid.t =>
    Grid.worldWidth g = Grid.worldWidth (Viewport.world (grid a)) /\
    Grid.worldHeight g = Grid.worldHeight (Viewport.world (grid a)) /\
    forall q, Grid.getCell g q = Grid.getCell (Viewport.world (grid a)) q
              \/ (q ∈ path /\ is_Some (Grid.getCell (Viewport.world (grid a)) q)
                  /\ Grid.getCell g q = Some Path)).
  assert (HP : P (forRange 1 (Z.of_nat (length path) - 1) (fun i g =>
                    match path !! Z.to_nat i with
                    | Some pos =>
                        match Grid.getCell g pos with
                        | Some _ => Grid.setType g pos Path
                        | None => g
                        end
                    | None => g
                    end) (Viewport.world (grid a)))).
  { apply (forRange_ind P).
    - split; [done|]. split; [done|]. intros q. by left.
    - intros i g Hi (HW & HH & Hc).
      destruct (path !! Z.to_nat i) as [pos|] eqn:Hpos; [|done].
      destruct (Grid.getCell g pos) as [ty|] eqn:Hty; [|done].
      split; [done|]. split; [done|]. intros q.
      rewrite getCell_setType by eauto. case_decide as Hq; [|apply Hc].
      subst q. right. split; [by eapply list_elem_of_lookup_2|]. split; [|done].
      destruct (Hc pos) as [<-|(_ & ? & _)]; [eauto|done]. }
  destruct HP as (HW & HH & Hc). repeat split; try done.
Qed.

Lemma moveTo_facts (p : Position) (pl : Player.t) (v : Viewport.t) :
  is_Some (Grid.getCell (Viewport.world v) (Player.position pl)) ->
  is_Some (Grid.getCell (Viewport.world v) p) ->
  Player.position (Player.moveTo p pl v).1 = p /\
  Player.trailCells (Player.moveTo p pl v).1
  = Player.trailCells pl ++ [Player.position pl] /\
  Grid.worldWidth (Viewport.world (Player.moveTo p pl v).2)
  = Grid.worldWidth (Viewport.world v) /\
  Grid.worldHeight (Viewport.world (Player.moveTo p pl v).2)
  = Grid.worldHeight (Viewport.world v) /\
  forall q, Grid.getCell (Viewport.world (Player.moveTo p pl v).2) q
            = if decide (q = p) then Some Player
              else if decide (q = Player.position pl) then Some PlayerTrail
              else Grid.getCell (Viewport.world v) q.
Proof.
  intros Hpos Hp. split; [|split; [|split; [|split]]].
  - unfold Player.moveTo. by destruct (Grid.getCell _ (Player.position pl)).
  - unfold Player.moveTo. by destruct Hpos as [ty ->].
  - unfold Player.moveTo. destruct Hpos as [ty ->]. cbn.
    by rewrite (proj1 (PlayerFacts.updatePlayerPosition_dims _ _)), setType_width.
  - unfold Player.moveTo. destruct Hpos as [ty ->]. cbn.
    by rewrite (proj2 (PlayerFacts.updatePlayerPosition_dims _ _)), setType_height.
  - intros q. by apply PlayerFacts.moveTo_cells.
Qed.

(** [moveAlongPath] on a path that starts at the player's position and
    lies in the world. *)
Lemma moveAlongPath_cells (path : list Position) (a : t) (tp : Position) :
  movementCancelled a = false ->
  path !! 0%nat = Some (Player.position (player a)) ->
  (1 < length path)%nat ->
  last path = Some tp ->
  (forall p, p ∈ path -> is_Some (Grid.getCell (worldOf a) p)) ->
  trailed (player a) (worldOf a) ->
  let a' := moveAlongPath path a in
  Grid.worldWidth (worldOf a') = Grid.worldWidth (worldOf a) /\
  Grid.worldHeight (worldOf a') = Grid.worldHeight (worldOf a) /\
  Player.position (player a') = tp /\
  Grid.getCell (worldOf a') tp = Some Player /\
  trailed (player a') (worldOf a') /\
  (forall q, Grid.getCell (worldOf a') q = Grid.getCell (worldOf a) q
             \/ (q ∈ path /\ (Grid.getCell (worldOf a') q = Some Player
                               \/ Grid.getCell (worldOf a') q = Some PlayerTrail))) /\
  movementQueue a' = movementQueue a /\
  currentTask a' = currentTask a /\
  isRandomMode a' = isRandomMode a /\
  isMoving a' = false /\
  movementCancelled a' = false.
Proof.
  intros Hmc Hstart Hlen Hlast Hin Htrail. cbv zeta.
  unfold moveAlongPath. rewrite Hmc. cbn [andb].
  set (g0 := worldOf a) in *.
  pose (I := fun (i : Z) (s : Player.t * Viewport.t) =>
    Grid.worldWidth (Viewport.world s.2) = Grid.worldWidth g0 /\
    Grid.worldHeight (Viewport.world s.2) = Grid.worldHeight g0 /\
    path !! Z.to_nat (i - 1) = Some (Player.position s.1) /\
    (1 < i -> Grid.getCell (Viewport.world s.2) (Player.position s.1) = Some Player) /\
    trailed s.1 (Viewport.world s.2) /\
    (forall q, is_Some (Grid.getCell g0 q) ->
               is_Some (Grid.getCell (Viewport.world s.2) q)) /\
    (forall q, Grid.getCell (Viewport.world s.2) q = Grid.getCell g0 q
               \/ (q ∈ path
                   /\ (Grid.getCell (Viewport.world s.2) q = Some Player
                       \/ Grid.getCell (Viewport.world s.2) q = Some PlayerTrail)))).
  assert (HI : I (Z.of_nat (length path))
                 (forRange 1 (Z.of_nat (length path)) (fun i '(pl, v) =>
                    match path !! Z.to_nat i with
                    | Some currentPosition => Player.moveTo currentPosition pl v
                    | None => (pl, v)
                    end) (player a, grid a))).
  { apply (forRange_inv I); [lia| |].
    - unfold I. cbn [fst snd]. fold (worldOf a). fold g0.
      split; [done|]. split; [done|]. split; [done|]. split; [lia|].
      split; [done|]. split; [done|]. intros q. by left.
    - intros i [pl v] Hi (HW & HH & Hpos & Hpl & Htr & Hsome & Hframe).
      cbn [fst snd] in *.
      destruct (path !! Z.to_nat i) as [p|] eqn:Hp.
      2:{ apply lookup_ge_None in Hp. lia. }
      assert (Hpin : p ∈ path) by (by eapply list_elem_of_lookup_2).
      assert (Hposin : Player.position pl ∈ path)
        by (by eapply list_elem_of_lookup_2).
      destruct (moveTo_facts p pl v) as (Hp1 & Ht1 & HW1 & HH1 & Hc1).
      { apply Hsome, Hin, Hposin. }
      { apply Hsome, Hin, Hpin. }
      unfold I. split; [congruence|]. split; [congruence|].
      split; [replace (i + 1 - 1) with i by lia; congruence|].
      split; [intros _; rewrite Hc1, Hp1; by rewrite decide_True|].
      split; [|split].
      + intros q. rewrite Hc1, Ht1. repeat case_decide; try done.
        * intros _. subst q. apply elem_of_app. right. by left.
        * intros Hq. apply elem_of_app. left. by apply Htr.
      + intros q Hq. rewrite Hc1. repeat case_decide; eauto.
      + intros q. rewrite Hc1. repeat case_decide; subst; auto. }
  destruct (forRange 1 _ _ _) as [pl v].
  destruct HI as (HW & HH & Hpos & Hpl & Htr & Hsome & Hframe).
  cbn [fst snd] in *. unfold worldOf.
  cbn [grid player movementQueue currentTask isRandomMode isMoving movementCancelled].
  assert (Hend : Player.position pl = tp).
  { rewrite last_lookup in Hlast.
    replace (Z.to_nat (Z.of_nat (length path) - 1)) with (pred (length path)) in Hpos
      by lia.
    congruence. }
  split; [done|]. split; [done|]. split; [done|].
  split; [rewrite <- Hend; apply Hpl; lia|]. repeat split; done.
Qed.

Lemma resetPath_dims (g : Grid.t) :
  Grid.worldWidth (Grid.resetPath g) = Grid.worldWidth g /\
  Grid.worldHeight (Grid.resetPath g) = Grid.worldHeight g.
Proof.
  unfold Grid.resetPath.
  destruct (cells_loop (fun g => g)
              (fun x y g => match get2 (Grid.cells g) (x, y) with
                            | Some ty =>
                                if decide (ty = Path \/ ty = Visited \/ ty = Target)
                                then Grid.resetCell g (x, y) else g
                            | None => g
                            end) (fun _ => GridFacts.cleared) g) as (HW & HH & _);
    [|done].
  intros x y s Hx Hy. by apply GridFacts.resetPath_body.
Qed.

(** The grid on which [navigateToPosition] runs the search. *)
Lemma targeted_cells (g : Grid.t) (tp q : Position) :
  is_Some (Grid.getCell g tp) ->
  Grid.getCell (Grid.setType (Grid.resetPath g) tp Target) q
  = if decide (q = tp) then Some Target
    else GridFacts.cleared <$> Grid.getCell g q.
Proof.
  intros [ty Hty]. rewrite getCell_setType.
  - case_decide; [done|]. apply GridFacts.resetPath_getCell.
  - rewrite GridFacts.resetPath_getCell, Hty. simpl. eauto.
Qed.

Lemma navigate_reaches (fuel : nat) (tp : Position) (a : t) (l : list Position) :
  walk (worldOf a) (Player.position (player a)) tp l ->
  Player.position (player a) <> tp ->
  trailed (player a) (worldOf a) ->
  (PathFinder.enoughFuel (worldOf a) <= fuel)%nat ->
  exists a',
    navigateToPosition fuel tp a = Normal (a', true) /\
    Player.position (player a') = tp /\
    Grid.getCell (worldOf a') tp = Some Player /\
    Player.trailCells (player a') = [] /\
    tidy (worldOf a') /\
    (forall q, Grid.getCell (worldOf a') q = Some Wall
               <-> Grid.getCell (worldOf a) q = Some Wall) /\
    Grid.worldWidth (worldOf a') = Grid.worldWidth (worldOf a) /\
    Grid.worldHeight (worldOf a') = Grid.worldHeight (worldOf a) /\
    movementQueue a' = movementQueue a /\
    currentTask a' = currentTask a /\
    isMoving a' = false.
Proof.
  intros Hwalk Hne Htrail Hfuel.
  set (pp := Player.position (player a)) in *.
  set (g := worldOf a) in *.
  destruct (walk_lookup _ _ _ _ Hwalk) as (Hl0 & Hllast & Hlw).
  assert (Htp : walkable g tp).
  { apply Hlw. by eapply list_elem_of_lookup_2. }
  assert (Htps : is_Some (Grid.getCell g tp)).
  { destruct Htp as (ty & -> & _). eauto. }
  set (g1 := Grid.setType (Grid.resetPath g) tp Target).
  assert (Hg1 : forall q, Grid.getCell g1 q
                  = if decide (q = tp) then Some Target
                    else GridFacts.cleared <$> Grid.getCell g q).
  { intros q. by apply targeted_cells. }
  assert (Hg1w : forall q, walkable g q -> walkable g1 q).
  { intros q (ty & Hty & Hnw). unfold walkable. rewrite Hg1.
    case_decide; [by exists Target|]. rewrite Hty. simpl.
    exists (GridFacts.cleared ty). split; [done|].
    destruct (cleared_cases ty) as (_ & _ & _ & _ & Hw & _). naive_solver. }
  assert (Hdims1 : Grid.worldWidth g1 = Grid.worldWidth g
                   /\ Grid.worldHeight g1 = Grid.worldHeight g).
  { unfold g1. rewrite setType_width, setType_height. apply resetPath_dims. }
  destruct Hdims1 as [HW1 HH1].
  assert (Hwalk1 : walk g1 pp tp l).
  { destruct Hwalk as (? & ? & ? & Hall). repeat split; try done.
    eapply Forall_impl; [exact Hall|]. exact Hg1w. }
  destruct (findPath_found fuel g1 pp tp l Hwalk1) as
    (g2 & path & Hfind & Hpath & HW2 & HH2 & Hann).
  { unfold PathFinder.enoughFuel in *. by rewrite HW1, HH1. }
  destruct (walk_lookup _ _ _ _ Hpath) as (Hp0 & Hplast & Hpw).
  assert (Hlen : (1 < length path)%nat).
  { destruct path as [|x [|y path]]; simpl in *; [done| |lia]. congruence. }
  (** the cells of the path are not walls, up to the moves *)
  assert (Hpath2 : forall q, q ∈ path ->
            exists ty, Grid.getCell g2 q = Some ty /\ ty <> Wall).
  { intros q Hq. destruct (Hpw q Hq) as (ty & Hty & Hnw).
    destruct (Hann q) as [->|(-> & _)]; [eauto|]. by exists Visited. }
  set (a2 := {| grid := Viewport.withWorld g2 (grid a); player := player a;
                rng := rng a; currentSeed := currentSeed a;
                currentTask := currentTask a; movementQueue := movementQueue a;
                isRandomMode := isRandomMode a; isMoving := true;
                movementCancelled := false |}).
  destruct (visualizePath_cells path a2)
    as (HW3 & HH3 & Hc3 & Hpl3 & Hq3 & Hct3 & Hrm3 & Hm3 & Hmc3 & _).
  set (a3 := visualizePath path a2) in *.
  assert (Hw2 : worldOf a2 = g2) by done. rewrite Hw2 in *.
  assert (Hpath3 : forall q, q ∈ path ->
            exists ty, Grid.getCell (worldOf a3) q = Some ty /\ ty <> Wall).
  { intros q Hq. destruct (Hc3 q) as [->|(_ & _ & ->)]; [by apply Hpath2|].
    by exists Path. }
  assert (Htrail3 : trailed (player a3) (worldOf a3)).
  { intros q Hq. rewrite Hpl3. apply Htrail.
    destruct (Hc3 q) as [Hsame|(_ & _ & Hp)]; [|congruence].
    rewrite Hsame in Hq.
    destruct (Hann q) as [Hsame2|(Hv & _)]; [|congruence].
    rewrite Hsame2, Hg1 in Hq. case_decide; [done|].
    destruct (Grid.getCell g q) as [ty|]; [|done]. simpl in Hq.
    destruct (cleared_cases ty) as (_ & _ & _ & _ & _ & Ht & _).
    f_equal. apply Ht. congruence. }
  destruct (moveAlongPath_cells path a3 tp)
    as (HW4 & HH4 & Hpos4 & Hcell4 & Htrail4 & Hc4 & Hq4 & Hct4 & Hrm4 & Hm4 & Hmc4).
  { done. }
  { by rewrite Hpl3. }
  { done. }
  { rewrite last_lookup. by replace (pred (length path)) with (length path - 1)%nat by lia. }
  { intros p Hp. destruct (Hpath3 p Hp) as (ty & -> & _). eauto. }
  { done. }
  cbv zeta in *. set (a4 := moveAlongPath path a3) in *.
  destruct (clearFrames_cells a4)
    as (HW5 & HH5 & Hc5 & Hpos5 & Htr5 & Hq5 & Hct5 & Hrm5 & Hm5 & Hmc5).
  exists (clearFrames a4). split.
  { unfold navigateToPosition. cbv zeta. fold (worldOf a). fold g.
    rewrite GridFacts.resetPath_getCell.
    destruct Htps as [ty0 Hty0]. rewrite Hty0. cbn [fmap option_fmap option_map].
    fold g1. unfold Player.getPosition. fold pp. rewrite Hfind.
    fold a2.
    replace (1 <? Z.of_nat (length path)) with true by (symmetry; apply Z.ltb_lt; lia).
    fold a3. rewrite Hmc3. cbn [movementCancelled a2].
    fold a4. by rewrite Hmc4. }
  split; [congruence|]. split.
  { rewrite Hc5, Hcell4. rewrite decide_False by (by intros [_ ?]). done. }
  split; [done|]. split.
  { intros r. rewrite Hc5.
    destruct (Grid.getCell (worldOf a4) r) as [tr|] eqn:E; simpl.
    - destruct (cleared_cases tr) as (H1 & H2 & H3 & _ & _ & H4 & _).
      case_decide as Hd; [done|].
      repeat split; try congruence.
      intros [= Hpt]. apply H4 in Hpt. subst tr. apply Hd. split; [|done].
      by apply Htrail4.
    - by case_decide. }
  split.
  { intros q.
    assert (H54 : Grid.getCell (worldOf (clearFrames a4)) q = Some Wall
                  <-> Grid.getCell (worldOf a4) q = Some Wall).
    { rewrite Hc5. destruct (Grid.getCell (worldOf a4) q) as [tr|] eqn:E; simpl.
      - destruct (cleared_cases tr) as (_ & _ & _ & _ & Hw & _).
        case_decide as Hd; [destruct Hd as [_ [= ->]]; split; done|].
        split; intros [= H]; f_equal; by apply Hw.
      - by case_decide. }
    assert (H43 : Grid.getCell (worldOf a4) q = Some Wall
                  <-> Grid.getCell (worldOf a3) q = Some Wall).
    { destruct (Hc4 q) as [->|(Hq & Hcase)]; [done|].
      destruct (Hpath3 q Hq) as (ty & Hty & Hnw). rewrite Hty.
      destruct Hcase as [->| ->]; split; congruence. }
    assert (H32 : Grid.getCell (worldOf a3) q = Some Wall
                  <-> Grid.getCell g2 q = Some Wall).
    { destruct (Hc3 q) as [->|(Hq & _ & Hp)]; [done|].
      destruct (Hpath2 q Hq) as (ty & Hty & Hnw). rewrite Hty, Hp.
      split; congruence. }
    assert (H21 : Grid.getCell g2 q = Some Wall <-> Grid.getCell g1 q = Some Wall).
    { destruct (Hann q) as [->|(Hv & _ & _ & ty & Hty & Hnw & _)]; [done|].
      rewrite Hv, Hty. split; congruence. }
    assert (H10 : Grid.getCell g1 q = Some Wall <-> Grid.getCell g q = Some Wall).
    { rewrite Hg1. case_decide as Hq.
      - subst q. destruct Htp as (ty & -> & Hnw). split; congruence.
      - destruct (Grid.getCell g q) as [ty|]; [|done]. simpl.
        destruct (cleared_cases ty) as (_ & _ & _ & _ & Hw & _).
        split; intros [= H]; f_equal; by apply Hw. }
    tauto. }
  split; [congruence|]. split; [congruence|].
  split; [by rewrite Hq5, Hq4, Hq3|]. split; [by rewrite Hct5, Hct4, Hct3|done].
Qed.

(** X17. A navigation that nothing interrupts, to a position that a
    path of walkable cells joins to the player's position (and that is
    not the player's position), with every trail cell recorded and the
    fuel of [enoughFuel] or more: [navigateToPosition] resolves to
    [true]; the player is on the target, whose cell is tagged [Player];
    the trail is empty and no cell is left tagged [Path], [Visited],
    [Target] or [PlayerTrail]; the walls are the walls there were; the
    queue and the current task are kept and [isMoving] is [false]. *)
Theorem navigateToPosition_reaches (fuel : nat) (tp : Position) (a : t)
    (l : list Position) :
  walk (worldOf a) (Player.position (player a)) tp l ->
  Player.position (player a) <> tp ->
  trailed (player a) (worldOf a) ->
  (PathFinder.enoughFuel (worldOf a) <= fuel)%nat ->
  exists a',
    navigateToPosition fuel tp a = Normal (a', true) /\
    Player.position (player a') = tp /\
    Grid.getCell (worldOf a') tp = Some Player /\
    Player.trailCells (player a') = [] /\
    tidy (worldOf a') /\
    (forall q, Grid.getCell (worldOf a') q = Some Wall
               <-> Grid.getCell (worldOf a) q = Some Wall) /\
    Grid.worldWidth (worldOf a') = Grid.worldWidth (worldOf a) /\
    Grid.worldHeight (worldOf a') = Grid.worldHeight (worldOf a) /\
    movementQueue a' = movementQueue a /\
    currentTask a' = currentTask a /\
    isMoving a' = false.
Proof. apply navigate_reaches. Qed.

Lemma navigateToPosition_reaches_witness :
  let g := Grid.mk 3 2 [[Player; Wall; Empty]; [Empty; Empty; Empty]] in
  let a := Shell.mk (Viewport.mk g 3 2 0 0) (Player.mk (0, 0) [])
             (SeededRandom.new 0%float None) (SeededRandom.SeedNumber 0%float)
             (Some (2, 0)) [] false false false in
  exists a',
    navigateToPosition (PathFinder.enoughFuel g) (2, 0) a = Normal (a', true)
    /\ Player.position (player a') = (2, 0)
    /\ Grid.getCell (worldOf a') (2, 0) = Some Player.
Proof.
  intros g a.
  assert (Htrail : trailed (player a) (worldOf a)).
  { unfold trailed. intros q Hq. exfalso.
    pose proof (getCell_bounds _ _ _ Hq) as [Hx Hy].
    change (0 <= px q < 3) in Hx. change (0 <= py q < 2) in Hy.
    destruct q as [x y]. unfold px, py in Hx, Hy. cbn [fst snd] in Hx, Hy.
    assert (x = 0 \/ x = 1 \/ x = 2) as [->|[->| ->]] by lia;
      assert (y = 0 \/ y = 1) as [->| ->] by lia; discriminate Hq. }
  assert (Hwalk : walk (worldOf a) (Player.position (player a)) (2, 0)
                    [(0, 0); (0, 1); (1, 1); (2, 1); (2, 0)]).
  { repeat split; try done; try (simpl; unfold step, px, py; simpl; lia).
    repeat constructor; eexists; (split; [reflexivity|discriminate]). }
  destruct (navigateToPosition_reaches (PathFinder.enoughFuel g) (2, 0) a _
              Hwalk ltac:(discriminate) Htrail (le_n _))
    as (a' & Hrun & Hpos & Hcell & _).
  exists a'. split; [exact Hrun|]. split; [exact Hpos|exact Hcell].
Defined.

Lemma connected_walk (g : Grid.t) (P : Position -> Prop) (a b : Position) :
  (forall q, P q -> walkable g q) ->
  WorldGeneratorFacts.connected P a b -> exists l, walk g a b l.
Proof.
  intros HP. induction 1 as [Ha|p q _ (l & Hh & Hl & Hs & Hw) Hst Hq].
  - exists [a]. repeat split; try done. apply Forall_singleton. by apply HP.
  - exists (l ++ [q]). split; [|split; [|split]].
    + destruct l; [done|]. done.
    + apply last_snoc.
    + by eapply stepwise_app_one.
    + apply Forall_app. split; [done|]. apply Forall_singleton. by apply HP.
Qed.

Lemma complete_reset (g : Grid.t) :
  WorldGridFacts.complete g -> WorldGridFacts.complete (Grid.reset g).
Proof.
  intros Hc q Hq. destruct (WorldGridFacts.reset_getCell g) as (HW & HH & Hcells).
  apply bounds_spec in Hq. rewrite HW, HH in Hq.
  destruct (WorldGridFacts.complete_getCell g q Hc) as [ty Hty]; [lia|lia|].
  pose proof (Hcells q) as Hr. rewrite Hty in Hr. simpl in Hr.
  apply getCell_get2 in Hr. rewrite Hr. eauto.
Qed.

(** The application's [generateWorld], field by field. *)
Lemma generateWorld_unfold (fuel : nat) (seed : option SeededRandom.Seed)
    (a a1 : t) :
  generateWorld fuel seed a = Normal a1 ->
  exists w',
    WorldGenerator.generateWorld fuel seed
      {| WorldGenerator.grid := Grid.reset (worldOf a);
         WorldGenerator.rng := rng a;
         WorldGenerator.currentSeed := currentSeed a |} = Normal w' /\
    worldOf a1 = Player.updatePlayerPosition (0, 0) (WorldGenerator.grid w') /\
    player a1 = Player.mk (0, 0) [] /\
    movementQueue a1 = movementQueue a /\
    currentTask a1 = currentTask a /\
    isRandomMode a1 = false /\ isMoving a1 = false /\
    movementCancelled a1 = true.
Proof.
  unfold generateWorld. cbv zeta. intros Hrun.
  apply WorldGeneratorFacts.bind_Normal in Hrun as (w' & Hgen & Hrun).
  exists w'. split; [exact Hgen|]. injection Hrun as <-. repeat split.
Qed.

Lemma generated_navigable (fuel fuel' : nat) (seed : option SeededRandom.Seed)
    (a a1 : t) (p : Position) :
  WorldGridFacts.complete (worldOf a) ->
  generateWorld fuel seed a = Normal a1 ->
  Grid.getCell (worldOf a1) p = Some Empty ->
  (PathFinder.enoughFuel (worldOf a1) <= fuel')%nat ->
  Player.position (player a1) = (0, 0) /\
  Grid.getCell (worldOf a1) (0, 0) = Some Player /\
  exists a2,
    navigateToPosition fuel' p a1 = Normal (a2, true) /\
    Player.position (player a2) = p /\
    Grid.getCell (worldOf a2) p = Some Player /\
    tidy (worldOf a2) /\
    (forall q, Grid.getCell (worldOf a2) q = Some Wall
               <-> Grid.getCell (worldOf a1) q = Some Wall).
Proof.
  intros Hc Hrun Hp Hfuel.
  destruct (generateWorld_unfold fuel seed a a1 Hrun)
    as (w' & Hgen & Hworld & Hpl & _).
  set (w0 := {| WorldGenerator.grid := Grid.reset (worldOf a);
                WorldGenerator.rng := rng a;
                WorldGenerator.currentSeed := currentSeed a |}) in *.
  assert (Hc0 : WorldGridFacts.complete (WorldGenerator.grid w0))
    by (by apply complete_reset).
  destruct (GeneratedWorldFacts.generateWorld_cells fuel seed w0 w' Hc0 Hgen)
    as (HW & HH & Hcells & Hblock).
  (** the world has the origin, since it has the cell at [p] *)
  pose proof (getCell_bounds _ _ _ Hp) as [Hpx Hpy].
  rewrite Hworld in Hpx, Hpy.
  rewrite (proj1 (PlayerFacts.updatePlayerPosition_dims _ _)) in Hpx.
  rewrite (proj2 (PlayerFacts.updatePlayerPosition_dims _ _)) in Hpy.
  rewrite HW in Hpx. rewrite HH in Hpy.
  assert (Horigin : Grid.getCell (WorldGenerator.grid w') (0, 0) = Some Empty).
  { apply Hblock; unfold px, py in *; cbn [fst snd]; lia. }
  assert (Hcell1 : forall q, Grid.getCell (worldOf a1) q
                    = if decide (q = (0, 0)) then Some Player
                      else Grid.getCell (WorldGenerator.grid w') q).
  { intros q. rewrite Hworld.
    apply PlayerFacts.updatePlayerPosition_getCell. rewrite Horigin. eauto. }
  assert (Hne : p <> (0, 0)).
  { intros ->. rewrite Hcell1, decide_True in Hp by done. done. }
  assert (Hp' : Grid.getCell (WorldGenerator.grid w') p = Some Empty).
  { by rewrite Hcell1, decide_False in Hp by done. }
  split; [by rewrite Hpl|]. split; [by rewrite Hcell1, decide_True|].
  (** every empty cell is joined to the origin *)
  destruct (GeneratedWorldFacts.generateWorld_stages fuel seed w0 w' Hgen)
    as (w3 & Hens & Hwe & _).
  cbv zeta in Hens, Hwe.
  pose proof (WorldGeneratorFacts.ensureConnectivity_connected fuel _ w' Hwe Hens
                p Hp') as Hconn.
  assert (Hwalk : exists l, walk (worldOf a1) (0, 0) p l).
  { eapply connected_walk; [|exact Hconn].
    intros q Hq. cbv beta in Hq. unfold walkable. rewrite Hcell1.
    case_decide; [by exists Player|by exists Empty]. }
  destruct Hwalk as (l & Hl).
  destruct (navigate_reaches fuel' p a1 l)
    as (a2 & Hnav & Hpos2 & Hcell2 & _ & Htidy & Hwalls & _).
  - by rewrite Hpl.
  - rewrite Hpl. done.
  - intros q Hq. exfalso. rewrite Hcell1 in Hq. case_decide; [done|].
    pose proof (getCell_bounds _ _ _ Hq) as [Hx Hy]. rewrite HW in Hx. rewrite HH in Hy.
    destruct (Hcells q Hx Hy) as [Hq'|Hq']; congruence.
  - done.
  - exists a2. split; [exact Hnav|]. split; [exact Hpos2|]. split; [exact Hcell2|].
    split; [exact Htidy|exact Hwalls].
Qed.

(** X18. After the application's [generateWorld], run on a grid that has
    all its cells, the player is at the origin, and every [Empty] cell
    can be navigated to: a navigation to it that nothing interrupts
    (with the fuel of [enoughFuel] or more) resolves to [true] and ends
    with the player on that cell, no tag of the visualisation or of the
    trail left, and the walls unchanged. *)
Theorem generateWorld_navigable (fuel fuel' : nat)
    (seed : option SeededRandom.Seed) (a a1 : t) (p : Position) :
  WorldGridFacts.complete (worldOf a) ->
  generateWorld fuel seed a = Normal a1 ->
  Grid.getCell (worldOf a1) p = Some Empty ->
  (PathFinder.enoughFuel (worldOf a1) <= fuel')%nat ->
  Player.position (player a1) = (0, 0) /\
  Grid.getCell (worldOf a1) (0, 0) = Some Player /\
  exists a2,
    navigateToPosition fuel' p a1 = Normal (a2, true) /\
    Player.position (player a2) = p /\
    Grid.getCell (worldOf a2) p = Some Player /\
    tidy (worldOf a2) /\
    (forall q, Grid.getCell (worldOf a2) q = Some Wall
               <-> Grid.getCell (worldOf a1) q = Some Wall).
Proof. apply generated_navigable. Qed.

Lemma generateWorld_navigable_witness :
  let a := Shell.mk (Viewport.mk (Grid.initializeWorld 12 12) 10 10 0 0)
             (Player.mk (0, 0) [])
             (SeededRandom.new 0%float None) (SeededRandom.SeedNumber 0%float)
             None [] false false false in
  exists a1 a2,
    generateWorld 200 (Some (SeededRandom.SeedString "x")) a = Normal a1
    /\ navigateToPosition (PathFinder.enoughFuel (worldOf a1)) (5, 8) a1
       = Normal (a2, true)
    /\ Player.position (player a2) = (5, 8).
Proof.
  intros a.
  let r := eval vm_compute in
             (generateWorld 200 (Some (SeededRandom.SeedString "x")) a) in
  match r with
  | Normal ?a1 =>
      assert (Hrun : generateWorld 200 (Some (SeededRandom.SeedString "x")) a
                     = Normal a1) by (vm_compute; reflexivity);
      exists a1;
      destruct (generateWorld_navigable 200 (PathFinder.enoughFuel (worldOf a1))
                  _ a a1 (5, 8)
                  (GeneratedWorldFacts.complete_initializeWorld 12 12) Hrun)
        as (_ & _ & a2 & Hnav & Hpos & _);
        [vm_compute; reflexivity|done|];
      exists a2; split; [exact Hrun|]; split; [exact Hnav|exact Hpos]
  end.
Defined.

End ShellFacts.

(** ** The random generator: seeds from strings, and the range of a draw *)

Module SeededRandomRange.
Import SeededRandom.




Lemma lxor_range (a b : Z) :
  0 <= a < 4294967296 -> 0 <= b < 4294967296 -> 0 <= Z.lxor a b < 4294967296.
Proof.
  intros Ha Hb.
  assert (Hnn : 0 <= Z.lxor a b) by (apply Z.lxor_nonneg; lia).
  split; [done|].
  destruct (Z.eq_dec (Z.lxor a b) 0) as [->|Hne]; [lia|].
  change 4294967296 with (2 ^ 32) in *.
  pose proof (Z.log2_lxor a b ltac:(lia) ltac:(lia)) as Hl.
  assert (Z.log2 a < 32).
  { destruct (Z.eq_dec a 0) as [->|?]; [simpl; lia|]. apply Z.log2_lt_pow2; lia. }
  assert (Z.log2 b < 32).
  { destruct (Z.eq_dec b 0) as [->|?]; [simpl; lia|]. apply Z.log2_lt_pow2; lia. }
  apply Z.log2_lt_pow2; lia.
Qed.

Lemma ushr_range (a k : Z) :
  0 <= a < 4294967296 -> 0 <= k -> 0 <= Js.ushr a k < 4294967296.
Proof.
  intros Ha Hk. unfold Js.ushr. rewrite Z.shiftr_div_pow2 by done.
  assert (0 < 2 ^ k) by (apply Z.pow_pos_nonneg; lia).
  split; [apply Z.div_pos; lia|].
  apply Z.le_lt_trans with a; [|lia]. apply Z.div_le_upper_bound; [lia|]. nia.
Qed.

Lemma mix_range (u : Z) : 0 <= mix u < 4294967296.
Proof.
  unfold mix. cbv zeta.
  set (t1 := Js.imul _ _).
  assert (H1 : 0 <= t1 < 4294967296)
    by (unfold t1, Js.imul, Js.two32; apply Z.mod_pos_bound; lia).
  set (m := Js.imul _ _).
  assert (H2 : 0 <= (t1 + m) mod Js.two32 < 4294967296)
    by (unfold Js.two32; apply Z.mod_pos_bound; lia).
  set (t2 := Z.lxor t1 _).
  assert (H3 : 0 <= t2 < 4294967296) by (by apply lxor_range).
  apply lxor_range; [done|]. apply ushr_range; [done|lia].
Qed.

(** X20. Every call of [random()], in every state of the generator,
    returns [k / 4294967296] for an integer [k] with [0 <= k < 2^32]
    (so a value from 0 up to, and not including, 1); it adds
    [0x6D2B79F5] to [currentSeed] and keeps [seed]. *)
Theorem random_unit_interval (r : t) :
  (exists k, 0 <= k < 4294967296
             /\ fst (random r) = (Js.ofZ k / 4294967296)%float) /\
  currentSeed (snd (random r)) = (currentSeed r + 1831565813)%float /\
  seed (snd (random r)) = seed r.
Proof.
  unfold random. cbn [fst snd currentSeed seed]. split; [|done].
  eexists. split; [apply mix_range|done].
Qed.

End SeededRandomRange.

(** ** Clicks and removals: what the queue shows *)

Module QueueFacts.
Import App.

(** Every queued position is displayed as a queued target. *)
Definition displayed (a : t) : Prop :=
  forall p, p ∈ movementQueue a -> Grid.getCell (grid a) p = Some QueuedTarget.



Lemma removeTask_cases (index : Z) (a : t) :
  removeTaskFromQueue index a = a \/
  exists removedPosition,
    movementQueue a !! Z.to_nat index = Some removedPosition /\
    movementQueue (removeTaskFromQueue index a)
    = delete (Z.to_nat index) (movementQueue a) /\
    currentTask (removeTaskFromQueue index a) = currentTask a /\
    forall q, Grid.getCell (grid (removeTaskFromQueue index a)) q
              = if decide (q = removedPosition
                           /\ Grid.getCell (grid a) q = Some QueuedTarget)
                then Some Empty else Grid.getCell (grid a) q.
Proof.
  unfold removeTaskFromQueue.
  destruct ((0 <=? index) && (index <? Z.of_nat (length (movementQueue a))));
    [|by left].
  destruct (movementQueue a !! Z.to_nat index) as [rp|] eqn:Hrp; [|by left].
  right. exists rp. cbn [movementQueue currentTask grid].
  split; [done|]. split; [done|]. split; [done|]. intros q.
  destruct (Grid.getCell (grid a) rp) as [ty|] eqn:Hty.
  - destruct (decide (ty = QueuedTarget)) as [->|Hne].
    + unfold Grid.resetCell. rewrite getCell_setType by eauto.
      destruct (decide (q = rp)) as [->|Hq].
      * by rewrite decide_True.
      * rewrite decide_False; [done|]. by intros [? _].
    + assert (Hsame : match ty with
                      | QueuedTarget => Grid.resetCell (grid a) rp
                      | _ => grid a
                      end = grid a) by (by destruct ty).
      rewrite Hsame. rewrite decide_False; [done|]. intros [-> Hq]. congruence.
  - rewrite decide_False; [done|]. intros [-> Hq]. congruence.
Qed.

(** X22. [removeTaskFromQueue], on a queue without a repeated position
    in which every position is displayed as a queued target: the queue
    loses the position at the index (and only it, the others keeping
    their order), the cell of that position becomes [Empty], no other
    cell changes, and every position that remains in the queue is still
    displayed as a queued target. *)
Theorem removeTaskFromQueue_displayed (index : Z) (a : t) :
  NoDup (movementQueue a) -> displayed a ->
  displayed (removeTaskFromQueue index a) /\
  NoDup (movementQueue (removeTaskFromQueue index a)) /\
  (forall removedPosition,
      0 <= index ->
      movementQueue a !! Z.to_nat index = Some removedPosition ->
      movementQueue (removeTaskFromQueue index a)
      = delete (Z.to_nat index) (movementQueue a) /\
      Grid.getCell (grid (removeTaskFromQueue index a)) removedPosition = Some Empty /\
      forall q, q <> removedPosition ->
                Grid.getCell (grid (removeTaskFromQueue index a)) q
                = Grid.getCell (grid a) q).
Proof.
  intros Hnd Hd.
  destruct (removeTask_cases index a) as [Hsame|(rp & Hrp & Hq & _ & Hc)].
  - rewrite Hsame. split; [done|]. split; [done|].
    intros rp Hi Hrp. exfalso.
    unfold removeTaskFromQueue in Hsame.
    assert (Hin : (0 <=? index) && (index <? Z.of_nat (length (movementQueue a)))
                  = true).
    { apply lookup_lt_Some in Hrp. apply andb_true_intro. split; lia. }
    rewrite Hin, Hrp in Hsame.
    assert (Hlen : length (movementQueue a)
                   = length (delete (Z.to_nat index) (movementQueue a)))
      by (rewrite <- Hsame at 1; done).
    rewrite length_delete in Hlen by eauto.
    apply lookup_lt_Some in Hrp. lia.
  - assert (Hsub : forall p, p ∈ delete (Z.to_nat index) (movementQueue a) ->
                             p ∈ movementQueue a /\ p <> rp).
    { intros p Hp. rewrite delete_take_drop in Hp.
      rewrite <- (take_drop_middle _ _ _ Hrp) in Hnd.
      apply NoDup_app in Hnd as (_ & Hdisj & Hnd').
      apply NoDup_cons in Hnd' as [Hnotin _].
      rewrite <- (take_drop_middle _ _ _ Hrp) at 1.
      apply elem_of_app in Hp as [Hp|Hp].
      - split; [apply elem_of_app; by left|].
        intros ->. apply (Hdisj rp Hp). by left.
      - split; [apply elem_of_app; right; by right|].
        intros ->. done. }
    split; [|split].
    + intros p. rewrite Hq, Hc. intros [Hin Hne]%Hsub.
      rewrite decide_False by (by intros [? _]). by apply Hd.
    + rewrite Hq. rewrite delete_take_drop.
      rewrite <- (take_drop_middle _ _ _ Hrp) in Hnd.
      apply NoDup_app in Hnd as (Hnd1 & Hdisj & Hnd').
      apply NoDup_cons in Hnd' as [_ Hnd2].
      apply NoDup_app. split; [done|]. split; [|done].
      intros x Hx Hx'. apply (Hdisj x Hx). by right.
    + intros rp' _ Hrp'. assert (rp' = rp) by congruence. subst rp'.
      split; [done|]. split.
      * rewrite Hc, decide_True; [done|]. split; [done|].
        apply Hd. by eapply list_elem_of_lookup_2.
      * intros q Hne. rewrite Hc. rewrite decide_False; [done|]. by intros [? _].
Qed.

Lemma removeTaskFromQueue_displayed_witness :
  let a := App.mk (Grid.mk 3 1 [[Player; QueuedTarget; QueuedTarget]])
             None [(1, 0); (2, 0)] false true in
  displayed (removeTaskFromQueue 0 a) /\
  Grid.getCell (grid (removeTaskFromQueue 0 a)) (1, 0) = Some Empty.
Proof.
  intros a.
  assert (Hnd : NoDup (movementQueue a)).
  { apply NoDup_cons. split; [by intros ?%list_elem_of_singleton|].
    apply NoDup_singleton. }
  assert (Hd : displayed a).
  { intros p [->|[->|?%elem_of_nil]%elem_of_cons]%elem_of_cons; done. }
  destruct (removeTaskFromQueue_displayed 0 a Hnd Hd) as (H1 & _ & H3).
  split; [exact H1|].
  destruct (H3 (1, 0)) as (_ & Hcell & _); [lia|reflexivity|exact Hcell].
Defined.



End QueueFacts.

(** ** Processing the queue *)

Module ProcessingFacts.
Import Shell ShellFacts.

(** Two grids of the same dimensions with cells at the same positions. *)
Definition sameCells (g g' : Grid.t) : Prop :=
  Grid.worldWidth g' = Grid.worldWidth g /\
  Grid.worldHeight g' = Grid.worldHeight g /\
  forall q, is_Some (Grid.getCell g' q) <-> is_Some (Grid.getCell g q).

Lemma sameCells_refl (g : Grid.t) : sameCells g g.
Proof. by repeat split. Qed.

Lemma sameCells_trans (g1 g2 g3 : Grid.t) :
  sameCells g1 g2 -> sameCells g2 g3 -> sameCells g1 g3.
Proof.
  intros (HW & HH & Hc) (HW' & HH' & Hc'). split; [congruence|].
  split; [congruence|]. intros q. by rewrite Hc', Hc.
Qed.

Lemma sameCells_setType (g : Grid.t) (p : Position) (ty : CellType) :
  is_Some (Grid.getCell g p) -> sameCells g (Grid.setType g p ty).
Proof.
  intros Hp. split; [done|]. split; [done|]. intros q.
  rewrite getCell_setType by done. case_decide; [|done]. subst q.
  split; eauto.
Qed.

Lemma sameCells_fmap (g g' : Grid.t) (fn : CellType -> CellType) :
  Grid.worldWidth g' = Grid.worldWidth g ->
  Grid.worldHeight g' = Grid.worldHeight g ->
  (forall q, Grid.getCell g' q = fn <$> Grid.getCell g q) ->
  sameCells g g'.
Proof.
  intros HW HH Hc. split; [done|]. split; [done|]. intros q.
  rewrite Hc. apply fmap_is_Some.
Qed.

Lemma findPath_answers (fuel : nat) (g : Grid.t) (start goal : Position) :
  (PathFinder.enoughFuel g <= fuel)%nat ->
  (PathFinder.findPath fuel g start goal).2 <> PathFinder.Running /\
  sameCells g (PathFinder.findPath fuel g start goal).1.
Proof.
  intros Hfuel.
  pose proof (PathFinderFacts.search_spec g start goal fuel _ _ _
                (PathFinderFacts.Inv_init g start goal)) as Hspec.
  pose proof (fun q => SearchFacts.search_frame g start goal fuel q _ _ _
                (PathFinderFacts.Inv_init g start goal)) as Hframe.
  cbv zeta in Hframe.
  unfold PathFinder.findPath, PathFinder.aStar.
  split.
  - destruct (PathFinder.search fuel start goal g _ ∅) as [g' [path| |]] eqn:Hrun;
      cbn [fst snd] in *; try done.
    exfalso. rewrite PathFinderFacts.enoughFuel_allCells in Hfuel.
    rewrite size_empty in Hspec. lia.
  - destruct (Hframe start) as (HW & HH & _). split; [done|]. split; [done|].
    intros q. destruct (Hframe q) as (_ & _ & [->|(-> & _ & _ & ty & -> & _)]);
      [done|]. split; eauto.
Qed.

Lemma updatePlayerPosition_sameCells (p : Position) (g : Grid.t) :
  sameCells g (Player.updatePlayerPosition p g).
Proof.
  unfold Player.updatePlayerPosition.
  destruct (Grid.getCell g p) eqn:E; [|apply sameCells_refl].
  apply sameCells_setType. eauto.
Qed.

Lemma moveTo_sameCells (p : Position) (pl : Player.t) (v : Viewport.t) :
  sameCells (Viewport.world v) (Viewport.world (Player.moveTo p pl v).2).
Proof.
  unfold Player.moveTo.
  destruct (Grid.getCell (Viewport.world v) (Player.position pl)) eqn:E; cbn.
  - eapply sameCells_trans; [|apply updatePlayerPosition_sameCells].
    apply sameCells_setType. eauto.
  - apply updatePlayerPosition_sameCells.
Qed.

Lemma moveAlongPath_fields (path : list Position) (a : t) :
  sameCells (worldOf a) (worldOf (moveAlongPath path a)) /\
  movementQueue (moveAlongPath path a) = movementQueue a /\
  currentTask (moveAlongPath path a) = currentTask a /\
  movementCancelled (moveAlongPath path a) = movementCancelled a /\
  (movementCancelled a = false -> isMoving (moveAlongPath path a) = false).
Proof.
  unfold moveAlongPath.
  destruct (movementCancelled a && (1 <? Z.of_nat (length path))) eqn:E.
  { apply andb_prop in E as [E _]. split; [apply sameCells_refl|].
    repeat split; try done. congruence. }
  pose (P := fun s : Player.t * Viewport.t =>
    sameCells (worldOf a) (Viewport.world s.2)).
  assert (HP : P (forRange 1 (Z.of_nat (length path)) (fun i '(pl, v) =>
                    match path !! Z.to_nat i with
                    | Some currentPosition => Player.moveTo currentPosition pl v
                    | None => (pl, v)
                    end) (player a, grid a))).
  { apply (forRange_ind P); [apply sameCells_refl|]. intros i [pl v] _ HP.
    destruct (path !! Z.to_nat i) as [p|]; [|done].
    unfold P in *. cbn [snd] in *.
    eapply sameCells_trans; [exact HP|apply moveTo_sameCells]. }
  destruct (forRange 1 _ _ _) as [pl v]. unfold P in HP.
  unfold worldOf in *.
  cbn [snd grid movementQueue currentTask movementCancelled isMoving] in *.
  repeat split; try done; apply HP.
Qed.

Lemma clearFrames_sameCells (a : t) :
  sameCells (worldOf a) (worldOf (clearFrames a)).
Proof.
  destruct (clearFrames_cells a) as (HW & HH & Hc & _).
  split; [done|]. split; [done|]. intros q. rewrite Hc.
  case_decide as Hd; [destruct Hd as [_ ->]; split; eauto|].
  apply fmap_is_Some.
Qed.

Lemma visualizePath_sameCells (path : list Position) (a : t) :
  sameCells (worldOf a) (worldOf (visualizePath path a)).
Proof.
  destruct (visualizePath_cells path a) as (HW & HH & Hc & _).
  split; [done|]. split; [done|]. intros q.
  destruct (Hc q) as [->|(_ & Hs & ->)]; [done|]. split; eauto.
Qed.

(** An uninterrupted [navigateToPosition] returns, whatever the target
    is, and keeps the cells where they are. *)
Lemma navigate_total (fuel : nat) (tp : Position) (a : t) :
  (PathFinder.enoughFuel (worldOf a) <= fuel)%nat ->
  exists a' b,
    navigateToPosition fuel tp a = Normal (a', b) /\
    sameCells (worldOf a) (worldOf a') /\
    movementQueue a' = movementQueue a /\
    currentTask a' = currentTask a /\
    isRandomMode a' = isRandomMode a /\
    (isMoving a = false -> isMoving a' = false).
Proof.
  intros Hfuel. unfold navigateToPosition. cbv zeta.
  assert (Hreset : sameCells (worldOf a) (Grid.resetPath (Viewport.world (grid a)))).
  { destruct (resetPath_dims (Viewport.world (grid a))) as [HW0 HH0].
    apply (sameCells_fmap _ _ GridFacts.cleared); try done.
    apply GridFacts.resetPath_getCell. }
  destruct (Grid.getCell (Grid.resetPath (Viewport.world (grid a))) tp) as [ty|] eqn:Etp.
  2:{ eexists _, _. split; [done|]. unfold worldOf in *.
      cbn [grid movementQueue currentTask isMoving isRandomMode Viewport.world
           Viewport.withWorld].
      repeat split; try done; apply Hreset. }
  set (g1 := Grid.setType (Grid.resetPath (Viewport.world (grid a))) tp Target).
  assert (H1 : sameCells (worldOf a) g1).
  { eapply sameCells_trans; [exact Hreset|]. apply sameCells_setType. eauto. }
  destruct (findPath_answers fuel g1 (Player.getPosition (player a)) tp)
    as (Hans & H2).
  { destruct H1 as (HW1 & HH1 & _). unfold PathFinder.enoughFuel in *.
    rewrite HW1, HH1. exact Hfuel. }
  destruct (PathFinder.findPath fuel g1 (Player.getPosition (player a)) tp)
    as [g2 ans]. cbn [fst snd] in *.
  assert (H12 : sameCells (worldOf a) g2) by (by eapply sameCells_trans).
  set (a2 := {| grid := Viewport.withWorld g2 (grid a); player := player a;
                rng := rng a; currentSeed := currentSeed a;
                currentTask := currentTask a; movementQueue := movementQueue a;
                isRandomMode := isRandomMode a; isMoving := true;
                movementCancelled := false |}).
  assert (HnoPath : exists a' b,
            Normal ({| grid := grid a2; player := player a2; rng := rng a2;
                       currentSeed := currentSeed a2; currentTask := currentTask a2;
                       movementQueue := movementQueue a2;
                       isRandomMode := isRandomMode a2; isMoving := false;
                       movementCancelled := movementCancelled a2 |}, false)
            = Normal (a', b) /\
            sameCells (worldOf a) (worldOf a') /\
            movementQueue a' = movementQueue a /\
            currentTask a' = currentTask a /\
            isRandomMode a' = isRandomMode a /\
            (isMoving a = false -> isMoving a' = false)).
  { eexists _, _. split; [done|]. split; [exact H12|]. repeat split; done. }
  destruct ans as [path| |]; [|exact HnoPath|done].
  destruct (1 <? Z.of_nat (length path)); [|exact HnoPath].
  destruct (visualizePath_cells path a2)
    as (_ & _ & _ & _ & Hq3 & Hct3 & Hrm3 & _ & Hmc3 & _).
  pose proof (visualizePath_sameCells path a2) as H3.
  rewrite Hmc3. cbn [movementCancelled a2].
  destruct (moveAlongPath_fields path (visualizePath path a2))
    as (H4 & Hq4 & Hct4 & Hmc4 & Hm4).
  rewrite Hmc4, Hmc3. cbn [movementCancelled a2 negb].
  destruct (clearFrames_cells (moveAlongPath path (visualizePath path a2)))
    as (_ & _ & _ & _ & _ & Hq5 & Hct5 & Hrm5 & Hm5 & _).
  pose proof (clearFrames_sameCells (moveAlongPath path (visualizePath path a2)))
    as H5.
  eexists _, _. split; [done|].
  assert (Hw2 : worldOf a2 = g2) by done. rewrite Hw2 in *.
  split.
  { eapply sameCells_trans; [|exact H5]. eapply sameCells_trans; [|exact H4].
    eapply sameCells_trans; [exact H12|exact H3]. }
  split; [by rewrite Hq5, Hq4, Hq3|]. split; [by rewrite Hct5, Hct4, Hct3|].
  split; [|done].
  rewrite Hrm5.
  assert (Hrm4 : isRandomMode (moveAlongPath path (visualizePath path a2))
                 = isRandomMode (visualizePath path a2)).
  { unfold moveAlongPath.
    destruct (movementCancelled (visualizePath path a2) && _); [done|].
    by destruct (forRange 1 _ _ _). }
  by rewrite Hrm4, Hrm3.
Qed.

Lemma processMovementQueue_total (n : nat) (fuel : nat) :
  forall a,
    (length (movementQueue a) <= n)%nat ->
    isMoving a = false ->
    (PathFinder.enoughFuel (worldOf a) <= fuel)%nat ->
    exists a',
      processMovementQueue n fuel a = Normal a' /\
      movementQueue a' = [] /\
      (movementQueue a <> [] -> currentTask a' = None) /\
      isMoving a' = false /\
      Grid.worldWidth (worldOf a') = Grid.worldWidth (worldOf a) /\
      Grid.worldHeight (worldOf a') = Grid.worldHeight (worldOf a).
Proof.
  induction n as [|n IH]; intros a Hlen Hm Hfuel.
  - destruct (movementQueue a) as [|task rest] eqn:Hq; [|simpl in Hlen; lia].
    exists a. simpl. rewrite Hq. repeat split; done.
  - destruct (movementQueue a) as [|task rest] eqn:Hq.
    { exists a. simpl. rewrite Hq. repeat split; done. }
    cbn [processMovementQueue]. rewrite Hq, Hm.
    set (a1 := {| grid := grid a; player := player a; rng := rng a;
                  currentSeed := currentSeed a; currentTask := Some task;
                  movementQueue := rest; isRandomMode := isRandomMode a;
                  isMoving := false; movementCancelled := movementCancelled a |}).
    destruct (navigate_total fuel task a1 Hfuel)
      as (a2 & b & Hnav & (HW2 & HH2 & _) & Hq2 & _ & _ & Hm2).
    rewrite Hnav. cbn [mbind Completion_bind].
    set (a3 := {| grid := grid a2; player := player a2; rng := rng a2;
                  currentSeed := currentSeed a2; currentTask := None;
                  movementQueue := movementQueue a2;
                  isRandomMode := isRandomMode a2; isMoving := isMoving a2;
                  movementCancelled := movementCancelled a2 |}).
    assert (Hw3 : worldOf a3 = worldOf a2) by done.
    assert (Hw1 : worldOf a1 = worldOf a) by done.
    destruct (0 <? Z.of_nat (length (movementQueue a3))) eqn:Hmore.
    + destruct (IH a3) as (a' & Hrun & Hq' & Hct' & Hm' & HW' & HH').
      * cbn [movementQueue a3]. rewrite Hq2. cbn [movementQueue a1].
        simpl in Hlen. lia.
      * cbn [isMoving a3]. by apply Hm2.
      * unfold PathFinder.enoughFuel in *. rewrite Hw3, HW2, HH2, Hw1. exact Hfuel.
      * exists a'. split; [exact Hrun|]. split; [done|]. split.
        { intros _. apply Hct'. apply Z.ltb_lt in Hmore.
          destruct (movementQueue a3); [simpl in Hmore; lia|done]. }
        split; [done|]. rewrite HW', HH', Hw3, HW2, HH2, Hw1. done.
    + exists a3. split; [done|]. split.
      { apply Z.ltb_ge in Hmore. destruct (movementQueue a3); [done|].
        simpl in Hmore. lia. }
      split; [done|]. split; [cbn [isMoving a3]; by apply Hm2|].
      rewrite Hw3, HW2, HH2, Hw1. done.
Qed.

(** X24. Processing the queue when nothing interrupts it, started while
    no movement is in progress, with at least as many rounds as the
    queue is long and the fuel of [enoughFuel] or more: it returns,
    whatever the queued positions are (reachable or not, in the world or
    not); the queue is then empty, no task is current (when there was a
    task to take), [isMoving] is [false], and the world has kept its
    dimensions. *)
Theorem processMovementQueue_drains (n fuel : nat) (a : t) :
  (length (movementQueue a) <= n)%nat ->
  isMoving a = false ->
  (PathFinder.enoughFuel (worldOf a) <= fuel)%nat ->
  exists a',
    processMovementQueue n fuel a = Normal a' /\
    movementQueue a' = [] /\
    (movementQueue a <> [] -> currentTask a' = None) /\
    isMoving a' = false /\
    Grid.worldWidth (worldOf a') = Grid.worldWidth (worldOf a) /\
    Grid.worldHeight (worldOf a') = Grid.worldHeight (worldOf a).
Proof. apply processMovementQueue_total. Qed.

Lemma processMovementQueue_drains_witness :
  let g := Grid.mk 3 2 [[Player; Wall; QueuedTarget]; [Empty; Wall; QueuedTarget]] in
  let a := Shell.mk (Viewport.mk g 3 2 0 0) (Player.mk (0, 0) [])
             (SeededRandom.new 0%float None) (SeededRandom.SeedNumber 0%float)
             None [(0, 1); (2, 0); (7, 7)] false false false in
  exists a',
    processMovementQueue 3 (PathFinder.enoughFuel g) a = Normal a' /\
    movementQueue a' = [] /\ currentTask a' = None.
Proof.
  intros g a.
  destruct (processMovementQueue_drains 3 (PathFinder.enoughFuel g) a)
    as (a' & Hrun & Hq & Hct & _); [simpl; lia|reflexivity|apply le_n|].
  exists a'. split; [exact Hrun|]. split; [exact Hq|]. apply Hct. discriminate.
Defined.

End ProcessingFacts.

(** ** Random mode *)

Module RandomModeFacts.
Import Shell ShellFacts.

(** What [getRandomEmptyPosition] returns on a world that has all its
    cells. *)
Lemma randomEmpty_cases (mathRandom : float) (g : Grid.t) :
  WorldGridFacts.complete g ->
  exists result,
    Viewport.getRandomEmptyPosition mathRandom g = Normal result
    /\ (forall p, result = Some p -> Grid.getCell g p = Some Empty).
Proof.
  intros Hc. destruct (WorldGridFacts.emptyCells_spec g Hc) as (l & Hl & Hin).
  unfold Viewport.getRandomEmptyPosition. rewrite Hl. simpl.
  destruct (Z.of_nat (length l) =? 0).
  - eexists. split; [done|done].
  - eexists. split; [done|]. intros p Hp. apply Hin.
    destruct (0 <=? _); [|done]. by eapply list_elem_of_lookup_2.
Qed.

Lemma pickRandomTarget_cases (mathRandom : float) (fuel : nat) (a : t) :
  isRandomMode a = true -> isMoving a = false ->
  WorldGridFacts.complete (worldOf a) ->
  trailed (player a) (worldOf a) ->
  Grid.getCell (worldOf a) (Player.position (player a)) = Some Player ->
  (forall p, Grid.getCell (worldOf a) p = Some Empty ->
             exists l, walk (worldOf a) (Player.position (player a)) p l) ->
  (PathFinder.enoughFuel (worldOf a) <= fuel)%nat ->
  exists a' outcome,
    pickRandomTarget mathRandom fuel a = Normal (a', outcome) /\
    ((outcome = None /\ a' = a) \/
     (outcome = Some true /\
      Grid.getCell (worldOf a) (Player.position (player a')) = Some Empty /\
      Grid.getCell (worldOf a') (Player.position (player a')) = Some Player /\
      tidy (worldOf a') /\
      (forall q, Grid.getCell (worldOf a') q = Some Wall
                 <-> Grid.getCell (worldOf a) q = Some Wall) /\
      isMoving a' = false)).
Proof.
  intros Hrm Hm Hc Htrail Hpl Hreach Hfuel.
  unfold pickRandomTarget. rewrite Hrm, Hm. cbn [negb].
  destruct (randomEmpty_cases mathRandom (worldOf a) Hc) as (result & Hres & Hemp).
  unfold worldOf in Hres. rewrite Hres. cbn [mbind Completion_bind].
  destruct result as [p|]; [|eexists _, _; split; [done|by left]].
  specialize (Hemp p eq_refl). destruct (Hreach p Hemp) as [l Hwalk].
  destruct (navigate_reaches fuel p a l Hwalk) as
    (a' & Hnav & Hpos & Hcell & _ & Htidy & Hwalls & _ & _ & _ & _ & Hm');
    [congruence|done|done|].
  rewrite Hnav. cbn [mbind Completion_bind].
  eexists _, _. split; [done|]. right. rewrite Hpos.
  split; [done|]. split; [done|]. split; [done|]. split; [done|].
  split; [exact Hwalls|exact Hm'].
Qed.

(** X25. A round of random mode that nothing interrupts, started while
    no movement is in progress on a world that has all its cells, with
    the player's cell tagged [Player], every trail cell recorded and
    every [Empty] cell joined to the player's position by a path of
    walkable cells (and the fuel of [enoughFuel] or more):
    [pickRandomTarget] returns; either no target was drawn and nothing
    has changed, or the navigation succeeds: the player is on a cell
    that was [Empty], now tagged [Player], no cell is left tagged
    [Path], [Visited], [Target] or [PlayerTrail], the walls are the
    walls there were, and [isMoving] is [false].  The navigation of a
    round never fails. *)
Theorem pickRandomTarget_round (mathRandom : float) (fuel : nat) (a : t) :
  isRandomMode a = true -> isMoving a = false ->
  WorldGridFacts.complete (worldOf a) ->
  trailed (player a) (worldOf a) ->
  Grid.getCell (worldOf a) (Player.position (player a)) = Some Player ->
  (forall p, Grid.getCell (worldOf a) p = Some Empty ->
             exists l, walk (worldOf a) (Player.position (player a)) p l) ->
  (PathFinder.enoughFuel (worldOf a) <= fuel)%nat ->
  exists a' outcome,
    pickRandomTarget mathRandom fuel a = Normal (a', outcome) /\
    ((outcome = None /\ a' = a) \/
     (outcome = Some true /\
      Grid.getCell (worldOf a) (Player.position (player a')) = Some Empty /\
      Grid.getCell (worldOf a') (Player.position (player a')) = Some Player /\
      tidy (worldOf a') /\
      (forall q, Grid.getCell (worldOf a') q = Some Wall
                 <-> Grid.getCell (worldOf a) q = Some Wall) /\
      isMoving a' = false)).
Proof. apply pickRandomTarget_cases. Qed.

Lemma pickRandomTarget_round_witness :
  let g := Grid.mk 2 2 [[Player; Empty]; [Wall; Empty]] in
  let a := Shell.mk (Viewport.mk g 2 2 0 0) (Player.mk (0, 0) [])
             (SeededRandom.new 0%float None) (SeededRandom.SeedNumber 0%float)
             None [] true false false in
  exists a' outcome,
    pickRandomTarget 0.75%float (PathFinder.enoughFuel g) a = Normal (a', outcome)
    /\ outcome <> Some false.
Proof.
  intros g a.
  assert (Hcases : forall q ty, Grid.getCell g q = Some ty ->
            (q = (0, 0) /\ ty = Player) \/ (q = (1, 0) /\ ty = Empty)
            \/ (q = (0, 1) /\ ty = Wall) \/ (q = (1, 1) /\ ty = Empty)).
  { intros q ty Hq. pose proof (getCell_bounds _ _ _ Hq) as [Hx Hy].
    change (0 <= px q < 2) in Hx. change (0 <= py q < 2) in Hy.
    destruct q as [x y]. unfold px, py in Hx, Hy. cbn [fst snd] in Hx, Hy.
    assert (x = 0 \/ x = 1) as [->| ->] by lia;
      assert (y = 0 \/ y = 1) as [->| ->] by lia;
      injection Hq as <-; auto. }
  destruct (pickRandomTarget_round 0.75%float (PathFinder.enoughFuel g) a)
    as (a' & outcome & Hrun & Hout).
  - reflexivity.
  - reflexivity.
  - intros [x y] Hb. apply bounds_spec in Hb.
    unfold px, py in Hb. cbn [fst snd] in Hb.
    change (0 <= x < 2 /\ 0 <= y < 2) in Hb.
    assert (x = 0 \/ x = 1) as [->| ->] by lia;
      assert (y = 0 \/ y = 1) as [->| ->] by lia; by eexists.
  - intros q Hq. exfalso.
    destruct (Hcases q _ Hq) as [[_ ?]|[[_ ?]|[[_ ?]|[_ ?]]]]; discriminate.
  - reflexivity.
  - intros p Hp.
    destruct (Hcases p _ Hp) as [[_ ?]|[[-> _]|[[_ ?]|[-> _]]]]; try discriminate.
    + exists [(0, 0); (1, 0)].
      repeat split; try done; try (simpl; unfold step, px, py; simpl; lia).
      repeat constructor; eexists; (split; [reflexivity|discriminate]).
    + exists [(0, 0); (1, 0); (1, 1)].
      repeat split; try done; try (simpl; unfold step, px, py; simpl; lia).
      repeat constructor; eexists; (split; [reflexivity|discriminate]).
  - apply le_n.
  - exists a', outcome. split; [exact Hrun|].
    destruct Hout as [[-> _]|[-> _]]; discriminate.
Defined.

End RandomModeFacts.
